(** * jcollections: Vector, Stack, ArrayDeque and PriorityQueue

    A shallow embedding of the array-backed containers of the [jcollections]
    package (vector.py, stack.py, arraydeque.py, priorityqueue.py) together
    with the properties stated for them.

    Python objects are records; a method is a function in a state-and-error
    monad over the receiver, so that a mutation performed before an exception
    is raised stays visible in the resulting state. *)

From Equations Require Import Equations.
From stdpp Require Import base list numbers sorting.
From Stdlib Require Import ZArith Lia ZifyNat.

Local Open Scope Z_scope.

(** ** Python values, exceptions and list primitives *)

Module Py.

(** The exceptions the modelled methods raise. *)
Inductive exn : Type := IndexError | ValueError | TypeError.

(** The result of running a statement: a value or a raised exception. *)
Inductive outcome (A : Type) : Type :=
| Ok (a : A)
| Raise (e : exn).
Arguments Ok {A} a.
Arguments Raise {A} e.

(** A stored Python value: [None] or an integer. *)
Definition value : Type := option Z.

(** State-and-error monad: the state is returned also when an exception is
    raised, since Python does not roll mutations back. *)
Definition M (S A : Type) : Type := S -> S * outcome A.

Definition ret {S A} (a : A) : M S A := fun s => (s, Ok a).

Definition raise {S A} (e : exn) : M S A := fun s => (s, Raise e).

Definition bind {S A B} (m : M S A) (k : A -> M S B) : M S B :=
  fun s => match m s with
           | (s', Ok a) => k a s'
           | (s', Raise e) => (s', Raise e)
           end.

Definition lift {S A} (o : outcome A) : M S A := fun s => (s, o).

Definition gets {S A} (f : S -> A) : M S A := fun s => (s, Ok (f s)).

Definition modify {S} (f : S -> S) : M S unit := fun s => (f s, Ok tt).

(** [for x in xs: body], with the loop's local variables threaded as [acc]. *)
Fixpoint for_each {S X L} (xs : list X) (body : X -> L -> M S L) (acc : L)
  : M S L :=
  match xs with
  | [] => ret acc
  | x :: xs' => bind (body x acc) (fun acc' => for_each xs' body acc')
  end.

(** [len(l)] *)
Definition len {A} (l : list A) : Z := Z.of_nat (length l).

(** Position denoted by a Python index: negative indices count from the
    end, anything outside [-len, len) is invalid. *)
Definition position {A} (l : list A) (i : Z) : option nat :=
  if (0 <=? i) && (i <? len l) then Some (Z.to_nat i)
  else if (- len l <=? i) && (i <? 0) then Some (Z.to_nat (len l + i))
  else None.

(** [l[i]] *)
Definition getitem {A} (l : list A) (i : Z) : outcome A :=
  match position l i with
  | Some k => match l !! k with Some x => Ok x | None => Raise IndexError end
  | None => Raise IndexError
  end.

(** [l[i] = x] *)
Definition setitem {A} (l : list A) (i : Z) (x : A) : outcome (list A) :=
  match position l i with
  | Some k => Ok (<[k := x]> l)
  | None => Raise IndexError
  end.

(** [[x] * n]: empty when [n] is not positive. *)
Definition repeat {A} (x : A) (n : Z) : list A := replicate (Z.to_nat n) x.

(** [l[:k]]: a negative bound counts from the end. *)
Definition slice_to {A} (l : list A) (k : Z) : list A :=
  if k <? 0 then take (Z.to_nat (len l + k)) l else take (Z.to_nat k) l.

(** [range(a, b)] *)
Definition range (a b : Z) : list Z := seqZ a (b - a).

(** [range(a, b, -1)] *)
Definition range_down (a b : Z) : list Z :=
  (fun k => a - k) <$> seqZ 0 (a - b).

(** [x in c] for a sequence of values, by equality. *)
Definition contains (c : list value) (x : value) : bool :=
  bool_decide (x ∈ c).

(** [l.remove(x)]: drops the first item [y] with [y == x] (the test is
    given as [eqb]), or raises [ValueError] when there is none. *)
Fixpoint list_remove {A} (eqb : A -> bool) (l : list A) : outcome (list A) :=
  match l with
  | [] => Raise ValueError
  | y :: l' => if eqb y then Ok l'
               else match list_remove eqb l' with
                    | Ok r => Ok (y :: r)
                    | Raise e => Raise e
                    end
  end.

(** [l.index(x)]: position of the first item equal to [x], [None] standing
    for the [ValueError] raised when there is none. *)
Fixpoint index_of {A} `{EqDecision A} (x : A) (l : list A) : option nat :=
  match l with
  | [] => None
  | y :: l' => if decide (y = x) then Some 0%nat else S <$> index_of x l'
  end.

(** [del l[i]] *)
Definition delitem {A} (l : list A) (i : Z) : outcome (list A) :=
  match position l i with
  | Some k => Ok (delete k l)
  | None => Raise IndexError
  end.

(** A slice bound brought into [0, len]: a negative bound counts from the
    end. *)
Definition slice_bound {A} (l : list A) (k : Z) : Z :=
  if k <? 0 then Z.max 0 (len l + k) else Z.min k (len l).

(** [l[a:b]] *)
Definition slice {A} (l : list A) (a b : Z) : list A :=
  take (Z.to_nat (slice_bound l b - slice_bound l a))
    (drop (Z.to_nat (slice_bound l a)) l).

(** [l[:k] = new] *)
Definition set_slice_to {A} (l : list A) (k : Z) (new : list A) : list A :=
  new ++ drop (length (slice_to l k)) l.

(** Insertion step of a stable sort on integer keys. *)
Fixpoint insert_by_key {A} (key : A -> Z) (x : A) (l : list A) : list A :=
  match l with
  | [] => [x]
  | y :: l' => if key y <? key x then y :: insert_by_key key x l'
               else x :: l
  end.

(** [sorted(l, key=key)]: the stable sort of [l] by key. *)
Definition sorted {A} (key : A -> Z) (l : list A) : list A :=
  foldr (insert_by_key key) [] l.

(** [wp m Q E s]: running [m] from [s] either returns [a] in a state
    satisfying [Q a], or raises [e] in a state satisfying [E e]. *)
Definition wp {S A} (m : M S A) (Q : A -> S -> Prop) (E : exn -> S -> Prop)
  (s : S) : Prop :=
  match m s with
  | (s', Ok a) => Q a s'
  | (s', Raise e) => E e s'
  end.

End Py.

Import Py.

Declare Scope py_scope.
Delimit Scope py_scope with py.
Notation "x <- m ;; k" := (bind m (fun x => k))
  (at level 100, m at next level, right associativity) : py_scope.
Notation "m ;;; k" := (bind m (fun _ => k))
  (at level 100, right associativity) : py_scope.
Local Open Scope py_scope.

(** ** Vector (vector.py) *)

Module Vector.

(** The three attributes of a [Vector] instance. *)
Record Vector : Type := mkVector {
  capacityIncrement : Z;
  elementData : list value;
  elementCount : Z
}.

Definition set_elementData (d : list value) (self : Vector) : Vector :=
  mkVector (capacityIncrement self) d (elementCount self).

Definition set_elementCount (n : Z) (self : Vector) : Vector :=
  mkVector (capacityIncrement self) (elementData self) n.

(** [self.elementData[i]] *)
Definition read_data (i : Z) : M Vector value :=
  fun self => (self, getitem (elementData self) i).

(** [self.elementData[i] = x] *)
Definition write_data (i : Z) (x : value) : M Vector unit :=
  fun self => match setitem (elementData self) i x with
              | Ok d => (set_elementData d self, Ok tt)
              | Raise e => (self, Raise e)
              end.

(** [len(self.elementData)] *)
Definition capacity (self : Vector) : Z := len (elementData self).

(** [Vector()] *)
Definition new : Vector := mkVector 0 (Py.repeat None 10) 0.

(** [Vector(initialCapacity)] *)
Definition new_capacity (initialCapacity : Z) : Vector :=
  mkVector 0 (Py.repeat None initialCapacity) 0.

(** [Vector(collection)]: the collection is consumed by [list(...)]. *)
Definition new_from (c : list value) : Vector :=
  mkVector 0 c (len c).

(** [Vector(initialCapacity, capacityIncrement)] *)
Definition new_capacity_increment (initialCapacity increment : Z) : Vector :=
  mkVector increment (Py.repeat None initialCapacity) 0.

(** [ensureCapacity]: the copy loop fills the local [new_data]. *)
Definition ensureCapacity (min_capacity : Z) : M Vector unit :=
  cap <- gets capacity ;;
  if min_capacity >? cap then
    k <- gets capacityIncrement ;;
    let new_capacity := if k >? 0 then cap + k else cap * 2 in
    let new_capacity :=
      if new_capacity <? min_capacity then min_capacity else new_capacity in
    let new_data := Py.repeat None new_capacity in
    n <- gets elementCount ;;
    new_data <- for_each (range 0 n)
                  (fun i nd => x <- read_data i ;; lift (setitem nd i x))
                  new_data ;;
    modify (set_elementData new_data)
  else ret tt.

(** [addElement] *)
Definition addElement (obj : value) : M Vector unit :=
  n <- gets elementCount ;;
  cap <- gets capacity ;;
  (if n =? cap then
     k <- gets capacityIncrement ;;
     ensureCapacity (cap + (if k >? 0 then k else cap))
   else ret tt) ;;;
  n <- gets elementCount ;;
  write_data n obj ;;;
  modify (set_elementCount (n + 1)).

(** [add(element)] *)
Definition add (element : value) : M Vector bool :=
  n <- gets elementCount ;;
  ensureCapacity (n + 1) ;;;
  n <- gets elementCount ;;
  write_data n element ;;;
  modify (set_elementCount (n + 1)) ;;;
  ret true.

(** [add(index, element)] *)
Definition add_at (index : Z) (element : value) : M Vector unit :=
  n <- gets elementCount ;;
  if (index >? n) || (index <? 0) then raise IndexError
  else
    ensureCapacity (n + 1) ;;;
    n <- gets elementCount ;;
    for_each (range_down n index)
      (fun i _ => x <- read_data (i - 1) ;; write_data i x) tt ;;;
    write_data index element ;;;
    modify (set_elementCount (n + 1)).

(** What a caller passes where a collection is expected: an iterable that
    is not a [Collection] of the library (a list, a tuple, a generator),
    given by the items it yields; an instance of a [Collection] class of
    the library, given likewise; or an object without [__iter__]. *)
Inductive collection_arg : Type :=
| Iterable (items : list value)
| Collection (items : list value)
| NotIterable.

(** The conversion at the head of [addAll]: a non-[Collection] iterable is
    copied by [list(...)], a [Collection] is kept as it is, anything else
    is refused. *)
Definition converted (collection : collection_arg)
  : M Vector collection_arg :=
  match collection with
  | NotIterable => raise TypeError
  | c => ret c
  end.

(** [len(collection)] after the conversion: no [Collection] class of the
    library defines [__len__], so [len] raises [TypeError] on one. *)
Definition len_of (collection : collection_arg) : M Vector Z :=
  match collection with
  | Iterable items => ret (len items)
  | _ => raise TypeError
  end.

(** The items a [for] loop over the argument visits. *)
Definition items_of (collection : collection_arg) : list value :=
  match collection with
  | Iterable items => items
  | Collection items => items
  | NotIterable => []
  end.

(** [addAll(collection)] *)
Definition addAll (collection : collection_arg) : M Vector bool :=
  collection <- converted collection ;;
  newElementCount <- len_of collection ;;
  if newElementCount =? 0 then ret false
  else
    n <- gets elementCount ;;
    ensureCapacity (n + newElementCount) ;;;
    for_each (items_of collection)
      (fun element _ =>
         n <- gets elementCount ;;
         write_data n element ;;;
         modify (set_elementCount (n + 1))) tt ;;;
    ret true.

(** [addAll(index, collection)] *)
Definition addAll_at (index : Z) (collection : collection_arg)
  : M Vector bool :=
  collection <- converted collection ;;
  n <- gets elementCount ;;
  if (index <? 0) || (index >? n) then raise IndexError
  else
    newElementCount <- len_of collection ;;
    if newElementCount =? 0 then ret false
    else
      ensureCapacity (n + newElementCount) ;;;
      n <- gets elementCount ;;
      for_each (range_down (n - 1) (index - 1))
        (fun i _ => x <- read_data i ;; write_data (i + newElementCount) x)
        tt ;;;
      for_each (items_of collection)
        (fun element index => write_data index element ;;; ret (index + 1))
        index ;;;
      n <- gets elementCount ;;
      modify (set_elementCount (n + newElementCount)) ;;;
      ret true.

(** [clear] *)
Definition clear : M Vector unit :=
  cap <- gets capacity ;;
  modify (set_elementData (Py.repeat None cap)) ;;;
  modify (set_elementCount 0).

(** [size] *)
Definition size (self : Vector) : Z := elementCount self.

(** [isEmpty] *)
Definition isEmpty (self : Vector) : bool := elementCount self =? 0.

(** [get(index)] *)
Definition get (index : Z) : M Vector value :=
  n <- gets elementCount ;;
  if (index <? 0) || (index >=? n) then raise IndexError
  else read_data index.

(** [elementAt(index)] *)
Definition elementAt (index : Z) : M Vector value := get index.

(** [toArray()] *)
Definition toArray (self : Vector) : list value :=
  slice_to (elementData self) (elementCount self).

(** [contains(o)] *)
Definition contains (o : value) (self : Vector) : bool :=
  Py.contains (toArray self) o.

(** The loop of [indexOf]: returns at the first position holding [o]. *)
Fixpoint indexOf_loop (o : value) (indices : list Z) : M Vector Z :=
  match indices with
  | [] => ret (-1)
  | i :: rest =>
      x <- read_data i ;;
      if decide (x = o) then ret i else indexOf_loop o rest
  end.

(** [indexOf(o)] *)
Definition indexOf (o : value) : M Vector Z :=
  n <- gets elementCount ;;
  indexOf_loop o (range 0 n).

(** [lastIndexOf(o)] *)
Definition lastIndexOf (o : value) : M Vector Z :=
  n <- gets elementCount ;;
  indexOf_loop o (range_down (n - 1) (-1)).

(** [__removeAt__(index)] *)
Definition removeAt (index : Z) : M Vector value :=
  n <- gets elementCount ;;
  if (index <? 0) || (index >=? n) then raise IndexError
  else
    removed_element <- read_data index ;;
    for_each (range index (n - 1))
      (fun i _ => x <- read_data (i + 1) ;; write_data i x) tt ;;;
    n <- gets elementCount ;;
    write_data (n - 1) None ;;;
    n <- gets elementCount ;;
    modify (set_elementCount (n - 1)) ;;;
    ret removed_element.

(** [removeElementAt(index)] *)
Definition removeElementAt (index : Z) : M Vector value := removeAt index.

(** [removeElement(element)]: an [IndexError] of the body is caught. *)
Definition removeElement (element : value) : M Vector bool :=
  fun self =>
    match (index <- indexOf element ;;
           if negb (index =? -1) then removeAt index ;;; ret true
           else ret false) self with
    | (self', Raise IndexError) => (self', Ok false)
    | r => r
    end.

(** [remove(arg)]: an integer argument is an index, anything else a value
    to look for. *)
Definition remove (arg : value) : M Vector (value + bool) :=
  match arg with
  | Some index => r <- removeAt index ;; ret (inl r)
  | None => r <- removeElement None ;; ret (inr r)
  end.

(** The loop [while self.removeElement(elem): removed = True] of
    [removeAll].  [fuel] bounds the number of times the condition is
    evaluated; [None] is returned when it is used up. *)
Fixpoint removeAll_while (fuel : nat) (elem : value) (removed : bool)
  : M Vector (option bool) :=
  match fuel with
  | O => ret None
  | S fuel' =>
      r <- removeElement elem ;;
      if r then removeAll_while fuel' elem true else ret (Some removed)
  end.

(** The loop [for elem in c] of [removeAll]. *)
Fixpoint removeAll_for (fuel : nat) (c : list value) (removed : bool)
  : M Vector (option bool) :=
  match c with
  | [] => ret (Some removed)
  | elem :: c' =>
      r <- removeAll_while fuel elem removed ;;
      match r with
      | Some removed' => removeAll_for fuel c' removed'
      | None => ret None
      end
  end.

(** [removeAll(c)]: each inner loop may evaluate its condition once more
    than there are elements at entry, which is as often as it can (every
    successful [removeElement] makes the vector one element smaller). *)
Definition removeAll (c : list value) : M Vector (option bool) :=
  n <- gets elementCount ;;
  removeAll_for (S (Z.to_nat n)) c false.

(** [trimToSize] *)
Definition trimToSize : M Vector unit :=
  cap <- gets capacity ;;
  n <- gets elementCount ;;
  if cap >? n then
    d <- gets elementData ;;
    modify (set_elementData (slice_to d n))
  else ret tt.

(** [setSize(newSize)] *)
Definition setSize (newSize : Z) : M Vector unit :=
  if newSize <? 0 then raise ValueError
  else
    cap <- gets capacity ;;
    n <- gets elementCount ;;
    (if newSize >? cap then ensureCapacity newSize
     else if newSize <? n then
       for_each (range newSize n) (fun i _ => write_data i None) tt
     else ret tt) ;;;
    modify (set_elementCount newSize).

(** [setElementAt(value, index)] *)
Definition setElementAt (x : value) (index : Z) : M Vector unit :=
  if index <? 0 then raise IndexError
  else
    cap <- gets capacity ;;
    (if index >=? cap then ensureCapacity (index + 1) else ret tt) ;;;
    n <- gets elementCount ;;
    (if index >=? n then modify (set_elementCount (index + 1))
     else ret tt) ;;;
    write_data index x.

(** [set(index, element)] *)
Definition set (index : Z) (element : value) : M Vector value :=
  n <- gets elementCount ;;
  if (index <? 0) || (index >=? n) then raise IndexError
  else
    old_value <- read_data index ;;
    write_data index element ;;;
    ret old_value.

(** [removeAllElements] *)
Definition removeAllElements : M Vector unit := clear.

(** [replaceAll(operator)] *)
Definition replaceAll (operator : value -> value) : M Vector unit :=
  n <- gets elementCount ;;
  for_each (range 0 n)
    (fun i _ => x <- read_data i ;; write_data i (operator x)) tt.

(** [retainAll(c)]: the range is computed once, from the count at entry. *)
Definition retainAll (c : list value) : M Vector bool :=
  n <- gets elementCount ;;
  for_each (range 0 n)
    (fun i removed =>
       x <- read_data i ;;
       if negb (Py.contains c x) then removeAt i ;;; ret true
       else ret removed)
    false.

(** [removeIf(predicate)] *)
Definition removeIf (predicate : value -> bool) : M Vector bool :=
  n <- gets elementCount ;;
  for_each (range_down (n - 1) (-1))
    (fun i removed =>
       x <- read_data i ;;
       if predicate x then removeAt i ;;; ret true
       else ret removed)
    false.

(** [sort(c)], with [c] the key function. *)
Definition sort (c : value -> Z) : M Vector unit :=
  n <- gets elementCount ;;
  d <- gets elementData ;;
  modify (set_elementData (set_slice_to d n (sorted c (slice_to d n)))).

(** [subList(fromIndex, toIndex)] *)
Definition subList (fromIndex toIndex : Z) : M Vector (list value) :=
  n <- gets elementCount ;;
  if (fromIndex <? 0) || (toIndex >? n) || (fromIndex >? toIndex)
  then raise IndexError
  else d <- gets elementData ;; ret (slice d fromIndex toIndex).

(** The comparing loop of [equals]: returns [False] at the first position
    where the two vectors differ. *)
Fixpoint equals_loop (o : Vector) (indices : list Z) : M Vector bool :=
  match indices with
  | [] => ret true
  | i :: rest =>
      x <- read_data i ;;
      y <- lift (getitem (elementData o) i) ;;
      if decide (x = y) then equals_loop o rest else ret false
  end.

(** [equals(o)] for a vector [o]. *)
Definition equals (o : Vector) : M Vector bool :=
  n <- gets size ;;
  if negb (n =? size o) then ret false
  else equals_loop o (range 0 n).

(** The class invariant of the backing store. *)
Definition wf (self : Vector) : Prop :=
  0 <= elementCount self <= capacity self.

(** Capacity chosen by [ensureCapacity] when it grows the buffer. *)
Definition grown_capacity (self : Vector) (min_capacity : Z) : Z :=
  let cap := capacity self in
  let k := capacityIncrement self in
  Z.max (if k >? 0 then cap + k else cap * 2) min_capacity.

(** Buffer installed by [ensureCapacity] when it grows. *)
Definition grown_data (self : Vector) (min_capacity : Z) : list value :=
  take (Z.to_nat (elementCount self)) (elementData self)
  ++ replicate (Z.to_nat (grown_capacity self min_capacity)
                - Z.to_nat (elementCount self)) None.

(** Every slot from position [b] on holds [None]. *)
Definition clean_from (b : Z) (self : Vector) : Prop :=
  forall j : nat,
    b <= Z.of_nat j < capacity self -> elementData self !! j = Some None.

(** The invariant together with cleared unused slots. *)
Definition tidy (self : Vector) : Prop :=
  wf self /\ clean_from (elementCount self) self.

(** [m] keeps vectors tidy, whether it returns or raises. *)
Definition keeps_tidy {A} (m : M Vector A) : Prop :=
  forall self, tidy self -> wp m (fun _ => tidy) (fun _ => tidy) self.

(** The arguments [Vector(...)] can be called with: none, one integer,
    one [Collection] of the library (given by its items), two integers, or
    anything else (a plain list, a float, a string, three arguments). *)
Inductive ctor : Type :=
| New
| NewCapacity (initialCapacity : Z)
| NewFrom (c : list value)
| NewCapacityIncrement (initialCapacity increment : Z)
| NewOther.

(** [Vector(...)]: [__init__] has four branches and no [else], and never
    raises.  With arguments that match no branch it sets no attribute:
    the instance it leaves, [None] here, has neither [elementData] nor
    [elementCount] nor [capacityIncrement]. *)
Definition construct (c : ctor) : option Vector :=
  match c with
  | New => Some new
  | NewCapacity n => Some (new_capacity n)
  | NewFrom l => Some (new_from l)
  | NewCapacityIncrement n k => Some (new_capacity_increment n k)
  | NewOther => None
  end.

(** The invariant of the backing store read on an instance: it speaks of
    [elementCount] and [elementData], so it does not hold of an instance
    that lacks them. *)
Definition invariant (instance : option Vector) : Prop :=
  match instance with
  | Some self => wf self
  | None => False
  end.

(** The mutating calls of a vector. *)
Inductive op : Type :=
| EnsureCapacity (min_capacity : Z)
| AddElement (obj : value)
| Add (element : value)
| AddAt (index : Z) (element : value)
| AddAll (collection : collection_arg)
| AddAllAt (index : Z) (collection : collection_arg)
| Clear
| RemoveElement (element : value)
| RemoveAll (c : list value)
| Remove (arg : value)
| RemoveElementAt (index : Z)
| RemoveAllElements
| TrimToSize
| SetSize (newSize : Z)
| SetElementAt (x : value) (index : Z)
| SetAt (index : Z) (element : value)
| ReplaceAll (operator : value -> value)
| RetainAll (c : list value)
| RemoveIf (predicate : value -> bool)
| SortBy (c : value -> Z).

(** State left by a call, whether it returned or raised. *)
Definition exec (o : op) (self : Vector) : Vector :=
  match o with
  | EnsureCapacity m => fst (ensureCapacity m self)
  | AddElement x => fst (addElement x self)
  | Add x => fst (add x self)
  | AddAt i x => fst (add_at i x self)
  | AddAll c => fst (addAll c self)
  | AddAllAt i c => fst (addAll_at i c self)
  | Clear => fst (clear self)
  | RemoveElement x => fst (removeElement x self)
  | RemoveAll c => fst (removeAll c self)
  | Remove a => fst (remove a self)
  | RemoveElementAt i => fst (removeElementAt i self)
  | RemoveAllElements => fst (removeAllElements self)
  | TrimToSize => fst (trimToSize self)
  | SetSize n => fst (setSize n self)
  | SetElementAt x i => fst (setElementAt x i self)
  | SetAt i x => fst (set i x self)
  | ReplaceAll f => fst (replaceAll f self)
  | RetainAll c => fst (retainAll c self)
  | RemoveIf p => fst (removeIf p self)
  | SortBy c => fst (sort c self)
  end.

(** The states after each call of a sequence, in order. *)
Fixpoint trace (ops : list op) (self : Vector) : list Vector :=
  match ops with
  | [] => []
  | o :: ops' => exec o self :: trace ops' (exec o self)
  end.

(** Capacity and count: all that the invariant looks at. *)
Definition dims (self : Vector) : Z * Z := (capacity self, elementCount self).

(** [s] has the capacity and count of [self]. *)
Definition same_dims (self : Vector) : Vector -> Prop :=
  fun s => dims s = dims self.

(** [m] keeps the invariant, whether it returns or raises. *)
Definition keeps_wf {A} (m : M Vector A) : Prop :=
  forall self, wf self -> wp m (fun _ => wf) (fun _ => wf) self.

(** [s] has the capacity and count of [self0] and only [None] from slot
    [b] on. *)
Definition below (self0 : Vector) (b : Z) (s : Vector) : Prop :=
  same_dims self0 s /\ clean_from b s.

(** The vector holding [1, 2, 3], built by three appends. *)
Definition v123 : Vector :=
  fst (add (Some 3) (fst (add (Some 2) (fst (add (Some 1) new))))).

(** The vector holding [2, 2, 1], built by three appends. *)
Definition v221 : Vector :=
  fst (add (Some 1) (fst (add (Some 2) (fst (add (Some 2) new))))).

End Vector.

(** ** Stack (stack.py): a [Vector] seen from its tail *)

Module Stack.
Import Vector.

(** [Stack()] *)
Definition new : Vector := Vector.new.

(** [empty] *)
Definition empty (self : Vector) : bool := elementCount self =? 0.

(** [peek] *)
Definition peek : M Vector value :=
  e <- gets empty ;;
  if e then raise IndexError
  else n <- gets elementCount ;; read_data (n - 1).

(** [pop] *)
Definition pop : M Vector value :=
  e <- gets empty ;;
  if e then raise IndexError
  else
    n <- gets elementCount ;;
    element <- read_data (n - 1) ;;
    n <- gets elementCount ;;
    removeElementAt (n - 1) ;;;
    ret element.

(** [push(item)] *)
Definition push (item : value) : M Vector value :=
  addElement item ;;; ret item.

(** [search(o)]: a [ValueError] of the body is caught. *)
Definition search (o : value) : M Vector Z :=
  fun self =>
    match (index <- lastIndexOf o ;;
           if index =? -1 then ret (-1)
           else n <- gets elementCount ;; ret (n - index)) self with
    | (self', Raise ValueError) => (self', Ok (-1))
    | r => r
    end.

End Stack.

(** ** ArrayDeque (arraydeque.py) *)

Module ArrayDeque.

(** The attributes of an [ArrayDeque]: [_capacity] exists only after
    construction from an integer. *)
Record ArrayDeque : Type := mkArrayDeque {
  _deque : list value;
  _capacity : option Z
}.

Definition set_deque (d : list value) (self : ArrayDeque) : ArrayDeque :=
  mkArrayDeque d (_capacity self).

(** The argument [initial] of the constructor. *)
Inductive initial_arg : Type :=
| InitNone
| InitItems (items : list value)
| InitInt (n : Z)
| InitOther.

(** [add(e)] *)
Definition add (e : value) : M ArrayDeque bool :=
  d <- gets _deque ;;
  modify (set_deque (d ++ [e])) ;;;
  ret true.

(** [ArrayDeque(initial)] *)
Definition new (initial : initial_arg) : outcome ArrayDeque :=
  let self := mkArrayDeque [] None in
  match initial with
  | InitNone => Ok (set_deque [] self)
  | InitItems items =>
      match for_each items (fun item _ => add item ;;; ret tt) tt self with
      | (self', Ok _) => Ok self'
      | (_, Raise e) => Raise e
      end
  | InitInt n => Ok (mkArrayDeque (Py.repeat None n) (Some n))
  | InitOther => Raise TypeError
  end.

(** [addFirst(e)] *)
Definition addFirst (e : value) : M ArrayDeque unit :=
  d <- gets _deque ;;
  modify (set_deque (e :: d)).

(** [addLast(e)] *)
Definition addLast (e : value) : M ArrayDeque unit :=
  d <- gets _deque ;;
  modify (set_deque (d ++ [e])).

(** [size] *)
Definition size (self : ArrayDeque) : Z := len (_deque self).

(** [isEmpty] *)
Definition isEmpty (self : ArrayDeque) : bool := len (_deque self) =? 0.

(** [getFirst] *)
Definition getFirst : M ArrayDeque value :=
  d <- gets _deque ;;
  match d with
  | [] => raise IndexError
  | _ => lift (getitem d 0)
  end.

(** [element] *)
Definition element : M ArrayDeque value := getFirst.

(** [getLast] *)
Definition getLast : M ArrayDeque value :=
  d <- gets _deque ;;
  match d with
  | [] => raise IndexError
  | _ => lift (getitem d (-1))
  end.

(** [peekFirst] *)
Definition peekFirst : M ArrayDeque value :=
  d <- gets _deque ;;
  match d with
  | [] => ret None
  | _ => lift (getitem d 0)
  end.

(** [peek] *)
Definition peek : M ArrayDeque value := peekFirst.

(** [peekLast] *)
Definition peekLast : M ArrayDeque value :=
  d <- gets _deque ;;
  match d with
  | [] => ret None
  | _ => lift (getitem d (-1))
  end.

(** [pollFirst]: [self._deque.pop(0)] on a non-empty list. *)
Definition pollFirst : M ArrayDeque value :=
  d <- gets _deque ;;
  match d with
  | [] => ret None
  | x :: d' => modify (set_deque d') ;;; ret x
  end.

(** [poll] *)
Definition poll : M ArrayDeque value := pollFirst.

(** [pollLast]: [self._deque.pop()] on a non-empty list. *)
Definition pollLast : M ArrayDeque value :=
  d <- gets _deque ;;
  match d with
  | [] => ret None
  | _ =>
      x <- lift (getitem d (-1)) ;;
      modify (set_deque (take (length d - 1) d)) ;;;
      ret x
  end.

(** [pop] *)
Definition pop : M ArrayDeque value := pollFirst.

(** [push(e)] *)
Definition push (e : value) : M ArrayDeque unit := addFirst e.

(** [removeFirst] *)
Definition removeFirst : M ArrayDeque value := pollFirst.

(** [removeLast] *)
Definition removeLast : M ArrayDeque value := pollLast.

(** [clear] *)
Definition clear : M ArrayDeque unit := modify (set_deque []).

(** [contains(o)] *)
Definition contains (o : value) (self : ArrayDeque) : bool :=
  Py.contains (_deque self) o.

(** [toArray] *)
Definition toArray (self : ArrayDeque) : list value := _deque self.

(** [addAll(collection)] *)
Definition addAll (collection : list value) : M ArrayDeque bool :=
  for_each collection (fun item _ => add item ;;; ret tt) tt ;;;
  ret true.

(** [offer(e)], [offerFirst(e)], [offerLast(e)]: they return what
    [addLast]/[addFirst] return, which is nothing. *)
Definition offer (e : value) : M ArrayDeque unit := addLast e.

Definition offerFirst (e : value) : M ArrayDeque unit := addFirst e.

Definition offerLast (e : value) : M ArrayDeque unit := addLast e.

(** [remove(o)]: with no argument or with [None] it takes the head;
    otherwise it removes the first item equal to [o], the [ValueError] of
    [list.remove] being caught. *)
Definition remove (o : value) : M ArrayDeque (value + bool) :=
  match o with
  | None => r <- pollFirst ;; ret (inl r)
  | Some _ =>
      fun self =>
        match list_remove (fun y => bool_decide (y = o)) (_deque self) with
        | Ok d => (set_deque d self, Ok (inr true))
        | Raise ValueError => (self, Ok (inr false))
        | Raise e => (self, Raise e)
        end
  end.

(** [removeFirstOccurrence(o)] *)
Definition removeFirstOccurrence (o : value) : M ArrayDeque (value + bool) :=
  remove o.

(** [removeLastOccurrence(o)] *)
Definition removeLastOccurrence (o : value) : M ArrayDeque bool :=
  d <- gets _deque ;;
  if Py.contains d o then
    match index_of o (reverse d) with
    | Some k =>
        let index := len d - 1 - Z.of_nat k in
        d' <- lift (delitem d index) ;;
        modify (set_deque d') ;;;
        ret true
    | None => raise ValueError
    end
  else ret false.

(** [removeIf(predicate)] *)
Definition removeIf (predicate : value -> bool) : M ArrayDeque bool :=
  d <- gets _deque ;;
  let original_size := len d in
  modify (set_deque (List.filter (fun item => negb (predicate item)) d)) ;;;
  d <- gets _deque ;;
  ret (negb (len d =? original_size)).

(** [retainAll(c)] *)
Definition retainAll (c : list value) : M ArrayDeque bool :=
  d <- gets _deque ;;
  let original_size := len d in
  modify (set_deque (List.filter (fun item => Py.contains c item) d)) ;;;
  d <- gets _deque ;;
  ret (negb (len d =? original_size)).

(** The results of [n] successive calls of an accessor. *)
Fixpoint repeat_call {A} (m : M ArrayDeque A) (n : nat) (self : ArrayDeque)
  : ArrayDeque * list (outcome A) :=
  match n with
  | O => (self, [])
  | S n' =>
      let '(self', r) := m self in
      let '(self'', rs) := repeat_call m n' self' in
      (self'', r :: rs)
  end.

End ArrayDeque.

(** ** heapq: the functions of Python's standard module [heapq] that
    priorityqueue.py calls, on a list used as an array *)

Module Heapq.

(** The comparison [a < b] on heap items. *)
Class Lt (A : Type) : Type := lt : A -> A -> bool.

(** The laws of a strict weak order, which the built-in [<] on integers
    and on tuples of integers satisfies. *)
Class LtLaws (A : Type) `{Lt A} : Prop := {
  lt_irrefl : forall a, lt a a = false;
  lt_asym : forall a b, lt a b = true -> lt b a = false;
  lt_negtrans : forall a b c, lt b a = false -> lt c b = false ->
                              lt c a = false
}.

Section Heapq.
Context {A : Type} `{Inhabited A} `{Lt A}.

(** The [while] loop of [_siftdown]: parents greater than [newitem] move
    down until [newitem] fits. *)
Equations? siftdown_loop (heap : list A) (startpos pos : nat) (newitem : A)
  : list A by wf pos Nat.lt :=
  siftdown_loop heap startpos pos newitem with decide (startpos < pos)%nat := {
    | left _ =>
        let parentpos := ((pos - 1) / 2)%nat in
        let parent := heap !!! parentpos in
        if lt newitem parent
        then siftdown_loop (<[pos := parent]> heap) startpos parentpos newitem
        else <[pos := newitem]> heap
    | right _ => <[pos := newitem]> heap }.
Proof. lia. Qed.

(** [_siftdown(heap, startpos, pos)] *)
Definition _siftdown (heap : list A) (startpos pos : nat) : list A :=
  let newitem := heap !!! pos in
  siftdown_loop heap startpos pos newitem.

(** The [while] loop of [_siftup]: the smaller child moves up until a leaf
    is reached; returns the heap and the leaf position. *)
Equations? siftup_loop (heap : list A) (endpos pos : nat)
  : list A * nat by wf (endpos - pos)%nat Nat.lt :=
  siftup_loop heap endpos pos with decide (2 * pos + 1 < endpos)%nat := {
    | left _ =>
        let childpos := (2 * pos + 1)%nat in
        let rightpos := (childpos + 1)%nat in
        let childpos :=
          if bool_decide (rightpos < endpos)%nat
             && negb (lt (heap !!! childpos) (heap !!! rightpos))
          then rightpos else childpos in
        siftup_loop (<[pos := heap !!! childpos]> heap) endpos childpos
    | right _ => (heap, pos) }.
Proof. destruct (_ && _); lia. Qed.

(** [_siftup(heap, pos)] *)
Definition _siftup (heap : list A) (pos : nat) : list A :=
  let endpos := length heap in
  let startpos := pos in
  let newitem := heap !!! pos in
  let '(heap, pos) := siftup_loop heap endpos pos in
  let heap := <[pos := newitem]> heap in
  _siftdown heap startpos pos.

(** [heappush(heap, item)] *)
Definition heappush (heap : list A) (item : A) : list A :=
  let heap := heap ++ [item] in
  _siftdown heap 0 (length heap - 1).

(** [heappop(heap)]: the popped item and the heap left; [IndexError] on an
    empty list. *)
Definition heappop (heap : list A) : outcome (A * list A) :=
  match last heap with
  | None => Raise IndexError
  | Some lastelt =>
      let heap := take (length heap - 1) heap in
      match heap with
      | [] => Ok (lastelt, heap)
      | _ =>
          let returnitem := heap !!! 0%nat in
          let heap := <[0%nat := lastelt]> heap in
          Ok (returnitem, _siftup heap 0)
      end
  end.

(** [heapify(x)] *)
Definition heapify (x : list A) : list A :=
  let n := length x in
  foldl _siftup x (reverse (seq 0 (n / 2))).

(** [a <= b], as the heap sees it: [not b < a]. *)
Definition le (a b : A) : Prop := lt b a = false.

(** Every position from [startpos] on is no greater than its children. *)
Definition heap_from (startpos : nat) (heap : list A) : Prop :=
  forall c : nat,
    (0 < c < length heap)%nat ->
    (startpos <= (c - 1) / 2)%nat ->
    le (heap !!! ((c - 1) / 2)%nat) (heap !!! c).

(** The binary min-heap property. *)
Definition is_heap (heap : list A) : Prop := heap_from 0 heap.

(** The heap property from [startpos] on, except at the edges that touch
    the hole [pos] (whose slot is about to be overwritten); when the hole
    has a parent in range, that parent is no greater than the hole's
    children. *)
Definition hole_inv (startpos pos : nat) (heap : list A) : Prop :=
  (forall c : nat,
     (0 < c < length heap)%nat ->
     (startpos <= (c - 1) / 2)%nat ->
     c <> pos -> ((c - 1) / 2)%nat <> pos ->
     le (heap !!! ((c - 1) / 2)%nat) (heap !!! c))
  /\ ((startpos < pos)%nat ->
      forall c : nat,
        (0 < c < length heap)%nat ->
        ((c - 1) / 2)%nat = pos ->
        le (heap !!! ((pos - 1) / 2)%nat) (heap !!! c)).

(** [x] is no greater than the children of [pos]. *)
Definition fits (x : A) (pos : nat) (heap : list A) : Prop :=
  forall c : nat,
    (0 < c < length heap)%nat ->
    ((c - 1) / 2)%nat = pos ->
    le x (heap !!! c).

(** [pos] lies in the subtree rooted at [startpos]. *)
Inductive descendant (startpos : nat) : nat -> Prop :=
| descendant_refl : descendant startpos startpos
| descendant_left pos :
    descendant startpos pos -> descendant startpos (2 * pos + 1)
| descendant_right pos :
    descendant startpos pos -> descendant startpos (2 * pos + 2).

End Heapq.

(** [<] on integers. *)
#[export] Instance int_lt : Lt Z := Z.ltb.

(** [<] on pairs: the first components decide unless they are equal. *)
#[export] Instance tuple_lt : Lt (Z * Z) :=
  fun a b => if fst a =? fst b then snd a <? snd b else fst a <? fst b.

End Heapq.

(** ** PriorityQueue (priorityqueue.py), on integer elements

    Without a comparator the heap holds the elements; with one it holds the
    pairs [(comparator(e), e)].  The comparator is fixed at construction,
    so the two shapes never mix. *)

Module PriorityQueue.
Import Heapq.

Inductive PriorityQueue : Type :=
| Natural (_heap : list Z)
| Keyed (comparator : Z -> Z) (_heap : list (Z * Z)).

(** An argument of [remove] or [contains]: an integer or a pair. *)
Inductive obj : Type :=
| Int (z : Z)
| Tuple (k e : Z).

(** [item == o] for a stored integer. *)
Definition int_eq (o : obj) (item : Z) : bool :=
  match o with
  | Int z => item =? z
  | Tuple _ _ => false
  end.

(** [item == o] for a stored pair. *)
Definition tuple_eq (o : obj) (item : Z * Z) : bool :=
  match o with
  | Int _ => false
  | Tuple k e => (fst item =? k) && (snd item =? e)
  end.

(** [self.comparator] *)
Definition comparator_of (self : PriorityQueue) : option (Z -> Z) :=
  match self with
  | Natural _ => None
  | Keyed c _ => Some c
  end.

(** [add(e)] *)
Definition add (e : Z) : M PriorityQueue bool :=
  fun self =>
    match self with
    | Natural h => (Natural (heappush h e), Ok true)
    | Keyed c h => (Keyed c (heappush h (c e, e)), Ok true)
    end.

(** [offer(e)] *)
Definition offer (e : Z) : M PriorityQueue bool := add e.

(** [PriorityQueue(initial, comparator)], [initial] being [None] or the
    items of a collection. *)
Definition new (initial : option (list Z)) (comparator : option (Z -> Z))
  : PriorityQueue :=
  let self := match comparator with
              | None => Natural []
              | Some c => Keyed c []
              end in
  match initial with
  | None => self
  | Some items =>
      fst (for_each items (fun item _ => add item ;;; ret tt) tt self)
  end.

(** [size] *)
Definition size (self : PriorityQueue) : Z :=
  match self with
  | Natural h => len h
  | Keyed _ h => len h
  end.

(** [isEmpty] *)
Definition isEmpty (self : PriorityQueue) : bool := size self =? 0.

(** [peek] *)
Definition peek : M PriorityQueue (option Z) :=
  e <- gets isEmpty ;;
  if e then ret None
  else fun self =>
         match self with
         | Natural h =>
             (self, match getitem h 0 with
                    | Ok x => Ok (Some x)
                    | Raise e => Raise e
                    end)
         | Keyed _ h =>
             (self, match getitem h 0 with
                    | Ok p => Ok (Some (snd p))
                    | Raise e => Raise e
                    end)
         end.

(** [poll] *)
Definition poll : M PriorityQueue (option Z) :=
  e <- gets isEmpty ;;
  if e then ret None
  else fun self =>
         match self with
         | Natural h =>
             match heappop h with
             | Ok (x, h') => (Natural h', Ok (Some x))
             | Raise e => (self, Raise e)
             end
         | Keyed c h =>
             match heappop h with
             | Ok (p, h') => (Keyed c h', Ok (Some (snd p)))
             | Raise e => (self, Raise e)
             end
         end.

(** [remove(o)]: the [ValueError] of [list.remove] is caught. *)
Definition remove (o : obj) : M PriorityQueue bool :=
  fun self =>
    match self with
    | Natural h =>
        match list_remove (int_eq o) h with
        | Ok h' => (Natural (heapify h'), Ok true)
        | Raise ValueError => (self, Ok false)
        | Raise e => (self, Raise e)
        end
    | Keyed c h =>
        match list_remove (tuple_eq o) h with
        | Ok h' => (Keyed c (heapify h'), Ok true)
        | Raise ValueError => (self, Ok false)
        | Raise e => (self, Raise e)
        end
    end.

(** [contains(o)] *)
Definition contains (o : obj) (self : PriorityQueue) : bool :=
  match self with
  | Natural h => existsb (int_eq o) h
  | Keyed _ h => existsb (tuple_eq o) h
  end.

(** [item in collection] for a stored integer and for a stored pair. *)
Definition int_in (collection : list obj) (item : Z) : bool :=
  existsb (fun o => int_eq o item) collection.

Definition tuple_in (collection : list obj) (item : Z * Z) : bool :=
  existsb (fun o => tuple_eq o item) collection.

(** [retainAll(collection)] *)
Definition retainAll (collection : list obj) : M PriorityQueue unit :=
  fun self =>
    match self with
    | Natural h =>
        (Natural (heapify (List.filter (int_in collection) h)), Ok tt)
    | Keyed c h =>
        (Keyed c (heapify (List.filter (tuple_in collection) h)), Ok tt)
    end.

(** [removeIf(predicate)]: the predicate is applied to the stored items. *)
Definition removeIf (predicate : obj -> bool) : M PriorityQueue unit :=
  fun self =>
    match self with
    | Natural h =>
        (Natural (heapify (List.filter
                             (fun item => negb (predicate (Int item))) h)),
         Ok tt)
    | Keyed c h =>
        (Keyed c (heapify (List.filter
                             (fun item => negb (predicate
                                                  (Tuple (fst item)
                                                     (snd item)))) h)),
         Ok tt)
    end.

(** [addAll(collection)] *)
Definition addAll (collection : list Z) : M PriorityQueue unit :=
  for_each collection (fun item _ => add item ;;; ret tt) tt.

(** [toArray]: the stored items in heap-array order. *)
Definition toArray (self : PriorityQueue) : list obj :=
  match self with
  | Natural h => Int <$> h
  | Keyed _ h => (fun p => Tuple (fst p) (snd p)) <$> h
  end.

(** [element] *)
Definition element : M PriorityQueue (option Z) :=
  e <- gets isEmpty ;;
  if e then raise IndexError else peek.

(** [clear] *)
Definition clear : M PriorityQueue unit :=
  fun self =>
    match self with
    | Natural _ => (Natural [], Ok tt)
    | Keyed c _ => (Keyed c [], Ok tt)
    end.

(** The elements a queue holds, in heap-array order. *)
Definition elements (self : PriorityQueue) : list Z :=
  match self with
  | Natural h => h
  | Keyed _ h => snd <$> h
  end.

(** The key the active ordering compares: the element itself, or the
    comparator's value. *)
Definition key (self : PriorityQueue) (e : Z) : Z :=
  match self with
  | Natural _ => e
  | Keyed c _ => c e
  end.

(** The heap array satisfies the binary min-heap property. *)
Definition heap_ordered (self : PriorityQueue) : Prop :=
  match self with
  | Natural h => is_heap h
  | Keyed _ h => is_heap h
  end.

(** What every reachable queue satisfies: heap order, and each stored key
    is the comparator's value of its element. *)
Definition inv (self : PriorityQueue) : Prop :=
  heap_ordered self
  /\ match self with
     | Natural _ => True
     | Keyed c h => Forall (fun p => fst p = c (snd p)) h
     end.

(** The calls of a push/poll sequence. *)
Inductive op : Type :=
| Add (e : Z)
| Offer (e : Z)
| Poll.

Definition exec (o : op) (self : PriorityQueue) : PriorityQueue :=
  match o with
  | Add e => fst (add e self)
  | Offer e => fst (offer e self)
  | Poll => fst (poll self)
  end.

Definition run (ops : list op) (self : PriorityQueue) : PriorityQueue :=
  foldl (fun q o => exec o q) self ops.

(** The results of [n] successive [poll()] calls. *)
Fixpoint drain (n : nat) (self : PriorityQueue) : list (outcome (option Z)) :=
  match n with
  | O => []
  | S n' => let '(self', r) := poll self in r :: drain n' self'
  end.

(** The key of the ordering a queue is constructed with: the comparator's
    value, or the element itself when no comparator is given. *)
Definition key_of (comparator : option (Z -> Z)) (e : Z) : Z :=
  match comparator with
  | Some c => c e
  | None => e
  end.

(** Draining a queue that holds [held]: as many [poll()] calls as there
    are elements return all of them, in non-decreasing order of [k]. *)
Definition drains (k : Z -> Z) (held : list Z) (self : PriorityQueue)
  : Prop :=
  exists es,
    drain (length held) self = (fun e => Ok (Some e)) <$> es
    /\ es ≡ₚ held
    /\ StronglySorted (fun a b => k a <= k b) es.

(** [follows k held ops self]: what the calls [ops], made in order on a
    queue that holds the elements [held], must do.  [held] is the
    bookkeeping of a bystander: an element is written down when it is
    pushed and struck out when [poll()] returns it.  Every [add] and
    [offer] returns [True]; every [poll()] returns [None] and changes
    nothing when nothing is held, and otherwise returns a held element
    whose key under [k] is minimal among the held ones; after the last call
    the queue holds exactly the elements written down, and draining it
    returns them sorted. *)
Fixpoint follows (k : Z -> Z) (held : list Z) (ops : list op)
  (self : PriorityQueue) : Prop :=
  match ops with
  | [] => elements self ≡ₚ held /\ size self = len held
          /\ drains k held self
  | Add e :: ops' =>
      snd (add e self) = Ok true
      /\ follows k (e :: held) ops' (fst (add e self))
  | Offer e :: ops' =>
      snd (offer e self) = Ok true
      /\ follows k (e :: held) ops' (fst (offer e self))
  | Poll :: ops' =>
      match held with
      | [] => poll self = (self, Ok None) /\ follows k [] ops' self
      | _ :: _ =>
          exists e held',
            snd (poll self) = Ok (Some e)
            /\ held ≡ₚ e :: held'
            /\ (forall x, x ∈ held -> k e <= k x)
            /\ follows k held' ops' (fst (poll self))
      end
  end.

End PriorityQueue.


(** ** Facts about the list primitives *)

Section PyFacts.
Context {A : Type}.
Implicit Types (l : list A) (i : Z) (x : A).

Lemma position_nonneg l i :
  0 <= i < len l -> position l i = Some (Z.to_nat i).
Proof.
  intros H. unfold position.
  destruct (Z.leb_spec 0 i), (Z.ltb_spec i (len l)); simpl; try lia; done.
Qed.

Lemma position_lt l i k : position l i = Some k -> (k < length l)%nat.
Proof.
  unfold position, len.
  destruct (Z.leb_spec 0 i), (Z.ltb_spec i (Z.of_nat (length l)));
    simpl; try (intros [= <-]; lia);
    destruct (Z.leb_spec (- Z.of_nat (length l)) i), (Z.ltb_spec i 0);
    simpl; try (intros [= <-]; lia); discriminate.
Qed.

Lemma position_out l i : i < - len l \/ len l <= i -> position l i = None.
Proof.
  intros H. unfold position.
  destruct (Z.leb_spec 0 i), (Z.ltb_spec i (len l)); simpl; try lia;
    destruct (Z.leb_spec (- len l) i), (Z.ltb_spec i 0); simpl; try lia; done.
Qed.

Lemma getitem_nonneg l i x :
  0 <= i -> l !! Z.to_nat i = Some x -> getitem l i = Ok x.
Proof.
  intros Hi Hx. unfold getitem.
  rewrite position_nonneg.
  - by rewrite Hx.
  - apply lookup_lt_Some in Hx. unfold len. lia.
Qed.

Lemma getitem_out l i : len l <= i -> getitem l i = Raise IndexError.
Proof. intros H. unfold getitem. rewrite position_out; [done | lia]. Qed.

Lemma setitem_nonneg l i x :
  0 <= i < len l -> setitem l i x = Ok (<[Z.to_nat i := x]> l).
Proof. intros H. unfold setitem. by rewrite position_nonneg. Qed.

Lemma setitem_out l i x : len l <= i -> setitem l i x = Raise IndexError.
Proof. intros H. unfold setitem. rewrite position_out; [done | lia]. Qed.

Lemma setitem_length l i x l' : setitem l i x = Ok l' -> length l' = length l.
Proof.
  unfold setitem. destruct (position l i); [|discriminate].
  intros [= <-]. apply length_insert.
Qed.

Lemma len_nonneg l : 0 <= len l.
Proof. unfold len. lia. Qed.

Lemma len_repeat x (n : Z) : len (Py.repeat x n) = Z.max 0 n.
Proof. unfold len, Py.repeat. rewrite length_replicate. lia. Qed.

Lemma slice_to_take l k :
  0 <= k -> slice_to l k = take (Z.to_nat k) l.
Proof.
  intros H. unfold slice_to. destruct (Z.ltb_spec k 0); [lia | done].
Qed.

End PyFacts.

Lemma range_nil (a b : Z) : b <= a -> range a b = [].
Proof. intros H. unfold range. apply seqZ_nil. lia. Qed.

Lemma range_cons (a b : Z) : a < b -> range a b = a :: range (a + 1) b.
Proof.
  intros H. unfold range. rewrite seqZ_cons by lia.
  f_equal. f_equal; lia.
Qed.

Lemma range_down_nil (a b : Z) : a <= b -> range_down a b = [].
Proof. intros H. unfold range_down. rewrite seqZ_nil by lia. done. Qed.

Lemma range_down_cons (a b : Z) :
  b < a -> range_down a b = a :: range_down (a - 1) b.
Proof.
  intros H. unfold range_down. rewrite seqZ_cons by lia.
  rewrite fmap_cons. f_equal; [lia|].
  replace (Z.pred (a - b)) with (a - 1 - b) by lia.
  change (Z.succ 0) with (1 + 0).
  rewrite <- (fmap_add_seqZ 1 0), <- list_fmap_compose.
  apply list_fmap_ext. intros _ k _. simpl. lia.
Qed.

(** ** Rules for weakest preconditions *)

Section Wp.
Context {S : Type}.

Lemma wp_bind {A B} (m : M S A) (k : A -> M S B) Q E s :
  wp m (fun a s' => wp (k a) Q E s') E s -> wp (bind m k) Q E s.
Proof. unfold wp, bind. by destruct (m s) as [s' [a|e]]. Qed.

Lemma wp_mono {A} (m : M S A) (Q Q' : A -> S -> Prop) (E E' : exn -> S -> Prop)
  s :
  wp m Q E s ->
  (forall a s', Q a s' -> Q' a s') ->
  (forall e s', E e s' -> E' e s') ->
  wp m Q' E' s.
Proof. unfold wp. destruct (m s) as [s' [a|e]]; auto. Qed.

Lemma wp_ret {A} (a : A) (Q : A -> S -> Prop) E s : Q a s -> wp (ret a) Q E s.
Proof. done. Qed.

Lemma wp_raise {A} e (Q : A -> S -> Prop) (E : exn -> S -> Prop) s :
  E e s -> wp (raise e) Q E s.
Proof. done. Qed.

Lemma wp_gets {A} (f : S -> A) (Q : A -> S -> Prop) E s :
  Q (f s) s -> wp (gets f) Q E s.
Proof. done. Qed.

Lemma wp_modify (f : S -> S) (Q : unit -> S -> Prop) E s :
  Q tt (f s) -> wp (modify f) Q E s.
Proof. done. Qed.

Lemma wp_lift {A} (o : outcome A) (Q : A -> S -> Prop) (E : exn -> S -> Prop)
  s :
  match o with Ok a => Q a s | Raise e => E e s end -> wp (lift o) Q E s.
Proof. done. Qed.

(** The loop rule: [I done acc] holds after the iterations over [done]. *)
Lemma wp_for_each {X L} (I : list X -> L -> S -> Prop)
  (body : X -> L -> M S L) (E : exn -> S -> Prop) (xs : list X) :
  (forall done x rest acc s,
     xs = done ++ x :: rest -> I done acc s ->
     wp (body x acc) (I (done ++ [x])) E s) ->
  forall acc s, I [] acc s -> wp (for_each xs body acc) (I xs) E s.
Proof.
  intros Hbody.
  assert (Hgen : forall rest done acc s,
             xs = done ++ rest -> I done acc s ->
             wp (for_each rest body acc) (I xs) E s).
  { induction rest as [|x rest IH]; intros done acc s Hxs HI.
    - rewrite app_nil_r in Hxs. subst done. done.
    - simpl. apply wp_bind.
      eapply wp_mono; [by eapply Hbody | | done].
      intros acc' s' HI'. apply (IH (done ++ [x])); [|done].
      by rewrite <- app_assoc. }
  intros acc s HI. by apply (Hgen xs []).
Qed.

End Wp.

(** Steps through binds and the primitive statements of a method body. *)
Ltac wp_go :=
  repeat match goal with
    | |- wp (bind _ _) _ _ _ => apply wp_bind
    | |- wp (gets _) _ _ _ => apply wp_gets
    | |- wp (modify _) _ _ _ => apply wp_modify
    | |- wp (ret _) _ _ _ => apply wp_ret
    | |- wp (raise _) _ _ _ => apply wp_raise
    | |- wp (lift _) _ _ _ => apply wp_lift
    | |- wp (Vector.converted _) _ _ _ => progress cbn [Vector.converted]
    | |- wp (Vector.len_of _) _ _ _ => progress cbn [Vector.len_of]
    end;
  cbn beta.

(** ** Vector: growth, insertion and the class invariant *)

Module VectorSpec.
Import Vector.

Lemma copy_loop (self : Vector) (k : nat) :
  forall (a : Z) (nd : list value),
    0 <= a ->
    a + Z.of_nat k <= capacity self ->
    a + Z.of_nat k <= len nd ->
    for_each (seqZ a (Z.of_nat k))
      (fun i nd => x <- read_data i ;; lift (setitem nd i x)) nd self
    = (self, Ok (take (Z.to_nat a) nd
                 ++ take k (drop (Z.to_nat a) (elementData self))
                 ++ drop (Z.to_nat a + k) nd)).
Proof.
  unfold capacity, len.
  induction k as [|k IH]; intros a nd Ha Hd Hnd.
  - simpl. rewrite Nat.add_0_r, take_drop. done.
  - rewrite seqZ_cons by lia. simpl for_each.
    destruct (lookup_lt_is_Some_2 (elementData self) (Z.to_nat a)) as [x Hx];
      [lia|].
    unfold bind at 1. unfold bind at 1. unfold read_data at 1.
    rewrite (getitem_nonneg _ _ x) by (done || lia).
    unfold lift at 1. rewrite setitem_nonneg by (unfold len; lia).
    replace (Z.pred (Z.of_nat (S k))) with (Z.of_nat k) by lia.
    rewrite IH by (rewrite ?length_insert; lia).
    f_equal. f_equal.
    replace (Z.to_nat (Z.succ a)) with (S (Z.to_nat a)) by lia.
    rewrite (take_S_r _ _ x) by (apply list_lookup_insert_eq; lia).
    rewrite take_insert_ge by lia.
    rewrite drop_insert_lt by lia.
    rewrite <- app_assoc. f_equal. simpl.
    rewrite (drop_S _ x _ Hx). simpl. f_equal. f_equal. f_equal. lia.
Qed.

Lemma ensureCapacity_keep (self : Vector) (min_capacity : Z) :
  min_capacity <= capacity self ->
  ensureCapacity min_capacity self = (self, Ok tt).
Proof.
  intros H. unfold ensureCapacity, bind, gets.
  destruct (Z.gtb_spec min_capacity (capacity self)); [lia | done].
Qed.

Lemma ensureCapacity_grow (self : Vector) (min_capacity : Z) :
  wf self ->
  capacity self < min_capacity ->
  ensureCapacity min_capacity self
  = (set_elementData (grown_data self min_capacity) self, Ok tt).
Proof.
  intros [Hn Hc] H. unfold ensureCapacity, bind at 1, gets at 1.
  destruct (Z.gtb_spec min_capacity (capacity self)); [|lia].
  unfold bind at 1, gets at 1. unfold bind at 1, gets at 1.
  unfold bind at 1.
  set (nc := if (if capacityIncrement self >? 0
                 then capacity self + capacityIncrement self
                 else capacity self * 2) <? min_capacity
             then min_capacity
             else if capacityIncrement self >? 0
                  then capacity self + capacityIncrement self
                  else capacity self * 2).
  assert (Hnc : nc = grown_capacity self min_capacity).
  { unfold nc, grown_capacity. cbv zeta.
    destruct (_ <? min_capacity) eqn:Hlt; lia. }
  assert (Hge : min_capacity <= nc).
  { rewrite Hnc. unfold grown_capacity. lia. }
  unfold range. rewrite Z.sub_0_r.
  rewrite <- (Z2Nat.id (elementCount self)) at 1 by lia.
  rewrite copy_loop by (rewrite ?len_repeat; lia).
  unfold modify. f_equal. f_equal. unfold grown_data.
  change (Z.to_nat 0) with 0%nat. rewrite take_0, drop_0. simpl.
  f_equal. unfold Py.repeat. rewrite drop_replicate, Hnc. done.
Qed.

Lemma grown_data_len (self : Vector) (min_capacity : Z) :
  wf self ->
  capacity self < min_capacity ->
  len (grown_data self min_capacity) = grown_capacity self min_capacity.
Proof.
  intros [Hn Hc] H. unfold grown_data, len, capacity, len in *.
  rewrite length_app, length_take, length_replicate.
  assert (min_capacity <= grown_capacity self min_capacity)
    by (unfold grown_capacity; lia).
  lia.
Qed.

Lemma grown_data_lookup (self : Vector) (min_capacity : Z) (j : nat) :
  wf self ->
  Z.of_nat j < elementCount self ->
  grown_data self min_capacity !! j = elementData self !! j.
Proof.
  intros [Hn Hc] Hj. unfold grown_data, capacity, len in *.
  rewrite lookup_app_l by (rewrite length_take; lia).
  apply lookup_take_lt. lia.
Qed.

(** What [ensureCapacity] guarantees on a well-formed vector: it never
    raises, keeps count, increment and the stored prefix, and installs the
    capacity the growth policy prescribes. *)
Lemma ensureCapacity_spec (self : Vector) (min_capacity : Z) :
  wf self ->
  exists d,
    ensureCapacity min_capacity self = (set_elementData d self, Ok tt)
    /\ len d = (if min_capacity >? capacity self
                then grown_capacity self min_capacity else capacity self)
    /\ (forall j : nat, Z.of_nat j < elementCount self ->
                        d !! j = elementData self !! j).
Proof.
  intros Hwf. destruct (Z.gtb_spec min_capacity (capacity self)).
  - exists (grown_data self min_capacity).
    rewrite ensureCapacity_grow by (done || lia).
    split; [done|]. split; [by apply grown_data_len; [|lia]|].
    intros j Hj. by apply grown_data_lookup.
  - exists (elementData self).
    rewrite ensureCapacity_keep by done. by destruct self.
Qed.

Lemma wp_ensureCapacity (min_capacity : Z) Q E (self : Vector) :
  wf self ->
  (forall d,
     len d = (if min_capacity >? capacity self
              then grown_capacity self min_capacity else capacity self) ->
     (forall j : nat, Z.of_nat j < elementCount self ->
                      d !! j = elementData self !! j) ->
     Q tt (set_elementData d self)) ->
  wp (ensureCapacity min_capacity) Q E self.
Proof.
  intros Hwf HQ. destruct (ensureCapacity_spec self min_capacity Hwf)
    as (d & Heq & Hlen & Hpre).
  unfold wp. rewrite Heq. by apply HQ.
Qed.

Lemma grown_capacity_ge (self : Vector) (min_capacity : Z) :
  min_capacity <= grown_capacity self min_capacity.
Proof. unfold grown_capacity. lia. Qed.

Lemma grown_capacity_gt (self : Vector) (min_capacity : Z) :
  capacity self < min_capacity ->
  capacity self < grown_capacity self min_capacity.
Proof. unfold grown_capacity. lia. Qed.


Lemma wp_read_data (i : Z) Q E (self : Vector) (x : value) :
  0 <= i ->
  elementData self !! Z.to_nat i = Some x ->
  Q x self ->
  wp (read_data i) Q E self.
Proof.
  intros Hi Hx HQ. unfold wp, read_data. by rewrite (getitem_nonneg _ _ x).
Qed.

Lemma wp_write_data (i : Z) (x : value) Q E (self : Vector) :
  0 <= i < capacity self ->
  Q tt (set_elementData (<[Z.to_nat i := x]> (elementData self)) self) ->
  wp (write_data i x) Q E self.
Proof.
  intros Hi HQ. unfold wp, write_data. by rewrite setitem_nonneg.
Qed.

Lemma get_eq (self : Vector) (j : Z) (x : value) :
  0 <= j < elementCount self ->
  elementData self !! Z.to_nat j = Some x ->
  get j self = (self, Ok x).
Proof.
  intros Hj Hx. unfold get, bind, gets.
  destruct (Z.ltb_spec j 0), (Z.geb_spec j (elementCount self)); try lia.
  simpl. unfold read_data. by rewrite (getitem_nonneg _ _ x) by (done || lia).
Qed.

Lemma get_out (self : Vector) (j : Z) :
  j < 0 \/ elementCount self <= j ->
  get j self = (self, Raise IndexError).
Proof.
  intros Hj. unfold get, bind, gets.
  destruct (Z.ltb_spec j 0), (Z.geb_spec j (elementCount self));
    try lia; done.
Qed.

Lemma get_defined (self : Vector) (j : Z) :
  wf self -> 0 <= j < elementCount self ->
  exists x, elementData self !! Z.to_nat j = Some x
            /\ get j self = (self, Ok x).
Proof.
  intros [Hn Hc] Hj. unfold capacity, len in Hc.
  destruct (lookup_lt_is_Some_2 (elementData self) (Z.to_nat j)) as [x Hx];
    [lia|].
  exists x. split; [done|]. by apply get_eq.
Qed.

(** The shifting loop of [add(index, element)]: slots [index+1 .. index+k]
    receive the former contents of [index .. index+k-1]. *)
Lemma shift_right_loop (k : nat) :
  forall (self : Vector) (index : Z),
    0 <= index ->
    index + Z.of_nat k < capacity self ->
    exists d,
      for_each (range_down (index + Z.of_nat k) index)
        (fun i _ => x <- read_data (i - 1) ;; write_data i x) tt self
      = (set_elementData d self, Ok tt)
      /\ length d = length (elementData self)
      /\ forall j : nat,
           d !! j = if decide (index < Z.of_nat j <= index + Z.of_nat k)
                    then elementData self !! (j - 1)%nat
                    else elementData self !! j.
Proof.
  induction k as [|k IH]; intros self index Hi Hc.
  - rewrite range_down_nil by lia. exists (elementData self).
    split; [by destruct self|]. split; [done|].
    intros j. destruct (decide _); [lia | done].
  - rewrite range_down_cons by lia. simpl for_each.
    unfold capacity, len in Hc.
    set (n := index + Z.of_nat (S k)) in *.
    destruct (lookup_lt_is_Some_2 (elementData self) (Z.to_nat (n - 1)))
      as [y Hy]; [lia|].
    set (self1 := set_elementData (<[Z.to_nat n := y]> (elementData self))
                    self).
    destruct (IH self1 index Hi) as (d & Heq & Hlen & Hd).
    { unfold self1, capacity, len. simpl. rewrite length_insert. lia. }
    exists d. split; [|split].
    + unfold bind at 1. unfold bind at 1. unfold read_data at 1.
      rewrite (getitem_nonneg _ _ y) by (done || lia).
      unfold write_data at 1.
      rewrite setitem_nonneg by (unfold len; lia).
      replace (n - 1) with (index + Z.of_nat k) by lia.
      fold self1. rewrite Heq. by destruct self.
    + rewrite Hlen. unfold self1. simpl. apply length_insert.
    + intros j. rewrite Hd. unfold self1. simpl.
      destruct (decide (index < Z.of_nat j <= index + Z.of_nat k)),
        (decide (index < Z.of_nat j <= n)); try lia.
      * rewrite list_lookup_insert_ne by lia. done.
      * destruct (decide (Z.of_nat j = n)) as [Hjn|Hjn].
        -- replace (Z.to_nat n) with j by lia.
           rewrite list_lookup_insert_eq by lia.
           rewrite <- Hy. f_equal. lia.
        -- lia.
      * rewrite list_lookup_insert_ne by lia. done.
Qed.


(** Closed form of [add(index, element)] on a well-formed vector. *)
Lemma add_at_eq (self : Vector) (i : Z) (e : value) :
  wf self ->
  0 <= i <= elementCount self ->
  exists d,
    add_at i e self
    = (mkVector (capacityIncrement self) d (elementCount self + 1), Ok tt)
    /\ elementCount self + 1 <= len d
    /\ forall j : nat,
         d !! j =
           if decide (Z.of_nat j = i) then Some e
           else if decide (i < Z.of_nat j <= elementCount self)
                then elementData self !! (j - 1)%nat
                else if decide (Z.of_nat j < i) then elementData self !! j
                     else d !! j.
Proof.
  intros Hwf Hi. pose proof Hwf as [Hn Hc].
  destruct (ensureCapacity_spec self (elementCount self + 1) Hwf)
    as (d0 & Heq0 & Hlen0 & Hpre0).
  assert (Hcap0 : elementCount self + 1 <= len d0).
  { rewrite Hlen0. destruct (Z.gtb_spec (elementCount self + 1) (capacity self)).
    - apply grown_capacity_ge.
    - lia. }
  set (self0 := set_elementData d0 self) in *.
  destruct (shift_right_loop (Z.to_nat (elementCount self - i)) self0 i)
    as (d1 & Heq1 & Hlen1 & Hd1); [lia | unfold self0, capacity; simpl; lia |].
  rewrite Z2Nat.id in Heq1, Hd1 by lia.
  replace (i + (elementCount self - i)) with (elementCount self) in Heq1, Hd1
    by lia.
  exists (<[Z.to_nat i := e]> d1). split; [|split].
  - unfold add_at, bind at 1, gets at 1.
    destruct (Z.gtb_spec i (elementCount self)), (Z.ltb_spec i 0); try lia.
    simpl. unfold bind at 1. rewrite Heq0. fold self0.
    unfold bind at 1, gets at 1. unfold bind at 1.
    change (elementCount self0) with (elementCount self).
    rewrite Heq1. unfold bind at 1, write_data at 1.
    rewrite setitem_nonneg
      by (unfold self0, len in *; simpl in *; rewrite ?Hlen1; lia).
    done.
  - unfold len in *. rewrite length_insert, Hlen1. unfold self0. simpl. lia.
  - intros j. destruct (decide (Z.of_nat j = i)) as [Hji|Hji].
    + replace (Z.to_nat i) with j by lia.
      apply list_lookup_insert_eq. unfold self0, len in *. simpl in *. lia.
    + rewrite list_lookup_insert_ne by lia.
      destruct (decide (i < Z.of_nat j <= elementCount self)) as [Hin|Hin].
      * rewrite Hd1. destruct (decide _); [|lia].
        unfold self0. simpl. apply Hpre0. lia.
      * destruct (decide (Z.of_nat j < i)); [|done].
        rewrite Hd1. destruct (decide _); [lia|].
        unfold self0. simpl. apply Hpre0. lia.
Qed.


(** Closed form of [add(element)] on a well-formed vector. *)
Lemma add_eq (self : Vector) (e : value) :
  wf self ->
  exists d0,
    ensureCapacity (elementCount self + 1) self
    = (set_elementData d0 self, Ok tt)
    /\ elementCount self + 1 <= len d0
    /\ (forall j : nat, Z.of_nat j < elementCount self ->
                        d0 !! j = elementData self !! j)
    /\ add e self
       = (mkVector (capacityIncrement self)
            (<[Z.to_nat (elementCount self) := e]> d0)
            (elementCount self + 1), Ok true).
Proof.
  intros Hwf. pose proof Hwf as [Hn Hc].
  destruct (ensureCapacity_spec self (elementCount self + 1) Hwf)
    as (d0 & Heq0 & Hlen0 & Hpre0).
  assert (Hcap0 : elementCount self + 1 <= len d0).
  { rewrite Hlen0.
    destruct (Z.gtb_spec (elementCount self + 1) (capacity self)).
    - apply grown_capacity_ge.
    - lia. }
  exists d0. repeat split; try done.
  unfold add, bind at 1, gets at 1. unfold bind at 1. rewrite Heq0.
  unfold bind at 1, gets at 1. unfold bind at 1, write_data at 1.
  simpl. rewrite setitem_nonneg by lia. done.
Qed.


(** C6. Inserting with [add(i, e)] at [0 <= i <= n] succeeds, puts [e] at
    [i], moves the elements of [i, n) one position up and leaves those
    before [i] in place; [i = n] is the same as appending; an index outside
    [0, n] raises [IndexError] and changes nothing. *)
Theorem add_at_index_shift (self : Vector) (i : Z) (e : value) :
  wf self ->
  (0 <= i <= elementCount self ->
   exists self',
     add_at i e self = (self', Ok tt)
     /\ wf self'
     /\ elementCount self' = elementCount self + 1
     /\ get i self' = (self', Ok e)
     /\ (forall j, i <= j < elementCount self ->
           exists x, get j self = (self, Ok x)
                     /\ get (j + 1) self' = (self', Ok x))
     /\ (forall j, 0 <= j < i ->
           exists x, get j self = (self, Ok x)
                     /\ get j self' = (self', Ok x))
     /\ (i = elementCount self -> fst (add e self) = self'))
  /\ (i < 0 \/ elementCount self < i ->
      add_at i e self = (self, Raise IndexError)).
Proof.
  intros Hwf. split.
  - intros Hi. destruct (add_at_eq self i e Hwf Hi) as (d & Heq & Hlen & Hd).
    eexists. split; [exact Heq|].
    split; [unfold wf, capacity; simpl; destruct Hwf; lia|].
    split; [done|]. split; [|split; [|split]].
    + apply get_eq; [simpl; lia|]. simpl.
      rewrite Hd. destruct (decide _); [done | lia].
    + intros j Hj. destruct (get_defined self j Hwf) as (x & Hx & Hget); [lia|].
      exists x. split; [done|]. apply get_eq; [simpl; lia|]. simpl.
      rewrite Hd. destruct (decide _); [lia|]. destruct (decide _); [|lia].
      rewrite <- Hx. f_equal. lia.
    + intros j Hj. destruct (get_defined self j Hwf) as (x & Hx & Hget); [lia|].
      exists x. split; [done|]. apply get_eq; [simpl; lia|]. simpl.
      rewrite Hd. destruct (decide _); [lia|]. destruct (decide _); [lia|].
      destruct (decide _); [done | lia].
    + intros ->. destruct (add_eq self e Hwf) as (d0 & Heq0 & Hlen0 & Hd0 & Hadd).
      rewrite Hadd. simpl. f_equal.
      revert Heq. unfold add_at, bind at 1, gets at 1.
      destruct (Z.gtb_spec (elementCount self) (elementCount self)),
        (Z.ltb_spec (elementCount self) 0); try (destruct Hwf; lia).
      simpl. unfold bind at 1. rewrite Heq0.
      unfold bind at 1, gets at 1. unfold bind at 1. simpl.
      rewrite range_down_nil by lia. simpl.
      unfold bind at 1, write_data at 1. simpl.
      rewrite setitem_nonneg by lia.
      simpl. by intros [= <-].
  - intros Hi. unfold add_at, bind, gets.
    destruct (Z.gtb_spec i (elementCount self)), (Z.ltb_spec i 0);
      try lia; done.
Qed.

Lemma take_lookup_ext (n : nat) (l1 l2 : list value) :
  (n <= length l1)%nat -> (n <= length l2)%nat ->
  (forall j : nat, (j < n)%nat -> l1 !! j = l2 !! j) ->
  take n l1 = take n l2.
Proof.
  intros H1 H2 Hext. apply list_eq. intros j.
  destruct (decide (j < n)%nat).
  - rewrite !lookup_take_lt by done. by apply Hext.
  - rewrite !lookup_take_ge by lia. done.
Qed.

Lemma toArray_ext (self self' : Vector) :
  wf self -> wf self' ->
  elementCount self' = elementCount self ->
  (forall j : nat, Z.of_nat j < elementCount self ->
                   elementData self' !! j = elementData self !! j) ->
  toArray self' = toArray self.
Proof.
  intros [Hn Hc] [Hn' Hc'] Hcount Hext. unfold toArray.
  rewrite !slice_to_take by lia. rewrite Hcount.
  unfold capacity, len in *.
  apply take_lookup_ext; [lia | lia |]. intros j Hj. apply Hext. lia.
Qed.

(** C7. [ensureCapacity(m)] never raises on a well-formed vector; it
    changes nothing when [m] is within the capacity [c], and otherwise
    installs capacity [max(c + k, m)] for an increment [k > 0] and
    [max(2c, m)] for [k = 0], keeping count and stored elements; a vector of
    capacity 2 and increment 0 has, after three appends (by [add] or by
    [addElement]), capacity at least 4, size 3 and the three elements at
    positions 0, 1, 2. *)
Theorem ensureCapacity_growth_policy (self : Vector) (m : Z) :
  wf self ->
  (exists self',
     ensureCapacity m self = (self', Ok tt)
     /\ wf self'
     /\ (m <= capacity self -> self' = self)
     /\ (capacity self < m -> 0 < capacityIncrement self ->
         capacity self' = Z.max (capacity self + capacityIncrement self) m)
     /\ (capacity self < m -> capacityIncrement self = 0 ->
         capacity self' = Z.max (capacity self * 2) m)
     /\ elementCount self' = elementCount self
     /\ capacityIncrement self' = capacityIncrement self
     /\ toArray self' = toArray self
     /\ (forall j, 0 <= j < elementCount self ->
           exists x, get j self = (self, Ok x)
                     /\ get j self' = (self', Ok x)))
  /\ (forall a b c : value,
        let v0 := new_capacity_increment 2 0 in
        let v3 := fst (add c (fst (add b (fst (add a v0))))) in
        4 <= capacity v3 /\ size v3 = 3
        /\ get 0 v3 = (v3, Ok a) /\ get 1 v3 = (v3, Ok b)
        /\ get 2 v3 = (v3, Ok c))
  /\ (forall a b c : value,
        let v0 := new_capacity_increment 2 0 in
        let v3 :=
          fst (addElement c (fst (addElement b (fst (addElement a v0))))) in
        4 <= capacity v3 /\ size v3 = 3
        /\ get 0 v3 = (v3, Ok a) /\ get 1 v3 = (v3, Ok b)
        /\ get 2 v3 = (v3, Ok c)).
Proof.
  intros Hwf. split; [|split].
  - destruct (ensureCapacity_spec self m Hwf) as (d & Heq & Hlen & Hpre).
    pose proof Hwf as [Hn Hc].
    assert (Hwf' : wf (set_elementData d self)).
    { unfold wf, capacity. simpl. rewrite Hlen.
      destruct (Z.gtb_spec m (capacity self)); [|lia].
      pose proof (grown_capacity_ge self m). lia. }
    exists (set_elementData d self). split; [done|]. split; [done|].
    split; [|split; [|split; [|split; [|split; [|split]]]]]; try done.
    + intros Hm. rewrite ensureCapacity_keep in Heq by done.
      by injection Heq as <-.
    + intros Hm Hk. unfold capacity at 1. simpl. rewrite Hlen.
      destruct (Z.gtb_spec m (capacity self)); [|lia].
      unfold grown_capacity.
      destruct (Z.gtb_spec (capacityIncrement self) 0); [done | lia].
    + intros Hm Hk. unfold capacity at 1. simpl. rewrite Hlen.
      destruct (Z.gtb_spec m (capacity self)); [|lia].
      unfold grown_capacity. rewrite Hk. done.
    + by apply toArray_ext.
    + intros j Hj. destruct (get_defined self j Hwf Hj) as (x & Hx & Hget).
      exists x. split; [done|]. apply get_eq; [done|]. simpl.
      rewrite Hpre by lia. done.
  - intros a b c. vm_compute. repeat split; congruence.
  - intros a b c. vm_compute. repeat split; congruence.
Qed.

(** C10. [setElementAt(x, i)] with [i >= size()] and [i >= 0] does not
    raise: the capacity becomes at least [i + 1], the size [i + 1],
    [get(i)] returns [x] and the elements at positions below the old size
    are unchanged. *)
Theorem setElementAt_extends (self : Vector) (x : value) (i : Z) :
  wf self ->
  0 <= i ->
  size self <= i ->
  exists self',
    setElementAt x i self = (self', Ok tt)
    /\ wf self'
    /\ i + 1 <= capacity self'
    /\ size self' = i + 1
    /\ get i self' = (self', Ok x)
    /\ (forall j, 0 <= j < size self ->
          exists y, get j self = (self, Ok y)
                    /\ get j self' = (self', Ok y)).
Proof.
  unfold size. intros Hwf Hi Hsz. pose proof Hwf as [Hn Hc].
  destruct (ensureCapacity_spec self (i + 1) Hwf) as (d & Heq & Hlen & Hpre).
  set (d0 := if i >=? capacity self then d else elementData self).
  assert (Hlen0 : i + 1 <= len d0).
  { unfold d0. destruct (Z.geb_spec i (capacity self)).
    - rewrite Hlen. destruct (Z.gtb_spec (i + 1) (capacity self)); [|lia].
      apply grown_capacity_ge.
    - unfold capacity in *. lia. }
  assert (Hpre0 : forall j : nat, Z.of_nat j < elementCount self ->
                                  d0 !! j = elementData self !! j).
  { unfold d0. destruct (i >=? capacity self); [done | auto]. }
  exists (mkVector (capacityIncrement self) (<[Z.to_nat i := x]> d0) (i + 1)).
  assert (Hrun : setElementAt x i self
                 = (mkVector (capacityIncrement self)
                      (<[Z.to_nat i := x]> d0) (i + 1), Ok tt)).
  { unfold setElementAt. destruct (Z.ltb_spec i 0); [lia|].
    unfold bind at 1, gets at 1. unfold bind at 1. unfold d0.
    destruct (Z.geb_spec i (capacity self)).
    - rewrite Heq. unfold bind at 1, gets at 1. simpl.
      destruct (Z.geb_spec i (elementCount self)); [|lia].
      unfold bind at 1, modify at 1. unfold write_data. simpl.
      rewrite setitem_nonneg; [done|].
      fold d0 in Hlen0. unfold d0 in Hlen0.
      destruct (Z.geb_spec i (capacity self)); lia.
    - unfold ret at 1. unfold bind at 1, gets at 1.
      destruct (Z.geb_spec i (elementCount self)); [|lia].
      unfold bind at 1, modify at 1. unfold write_data. simpl.
      rewrite setitem_nonneg; [done|]. unfold capacity in *. lia. }
  split; [done|].
  assert (Hlen1 : len (<[Z.to_nat i := x]> d0) = len d0)
    by (unfold len; by rewrite length_insert).
  split; [unfold wf, capacity; simpl; lia|].
  split; [unfold capacity; simpl; lia|].
  split; [done|]. split.
  - apply get_eq; [simpl; lia|]. simpl.
    apply list_lookup_insert_eq. unfold len in *. lia.
  - intros j Hj. destruct (get_defined self j Hwf Hj) as (y & Hy & Hget).
    exists y. split; [done|]. apply get_eq; [simpl; lia|]. simpl.
    rewrite list_lookup_insert_ne by lia. rewrite Hpre0 by lia. done.
Qed.

(** *** Every call keeps [0 <= elementCount <= len(elementData)] *)

Lemma wf_dims (self self' : Vector) : dims self' = dims self -> wf self -> wf self'.
Proof. unfold dims, wf. intros [= -> ->]. done. Qed.

Lemma getitem_error {A} (l : list A) (i : Z) (e : exn) :
  getitem l i = Raise e -> e = IndexError.
Proof.
  unfold getitem. destruct (position l i); [destruct (l !! _)|]; congruence.
Qed.

Lemma setitem_error {A} (l : list A) (i : Z) (x : A) (e : exn) :
  setitem l i x = Raise e -> e = IndexError /\ (i < - len l \/ len l <= i).
Proof.
  unfold setitem, position.
  destruct (Z.leb_spec 0 i), (Z.ltb_spec i (len l)); simpl; try discriminate;
    destruct (Z.leb_spec (- len l) i), (Z.ltb_spec i 0); simpl;
    try discriminate; intros [= <-]; split; (done || lia).
Qed.

Lemma setitem_ok_bound {A} (l : list A) (i : Z) (x : A) (l' : list A) :
  setitem l i x = Ok l' -> - len l <= i < len l /\ len l' = len l.
Proof.
  intros Hs. split.
  - revert Hs. unfold setitem, position.
    destruct (Z.leb_spec 0 i), (Z.ltb_spec i (len l)); simpl; try lia;
      destruct (Z.leb_spec (- len l) i), (Z.ltb_spec i 0); simpl;
      try lia; discriminate.
  - unfold len. by rewrite (setitem_length _ _ _ _ Hs).
Qed.

(** A read leaves the state alone. *)
Lemma wp_read_any (i : Z) (Q : value -> Vector -> Prop) E (self : Vector) :
  (forall x, Q x self) -> E IndexError self -> wp (read_data i) Q E self.
Proof.
  intros HQ HE. unfold wp, read_data.
  destruct (getitem _ _) eqn:Hg; [done|].
  by rewrite (getitem_error _ _ _ Hg).
Qed.

(** A write keeps capacity and count, and succeeds only at a valid index. *)
Lemma wp_write_any (i : Z) (x : value) (Q : unit -> Vector -> Prop) E
  (self : Vector) :
  (forall d, len d = capacity self -> - capacity self <= i < capacity self ->
             Q tt (set_elementData d self)) ->
  E IndexError self ->
  wp (write_data i x) Q E self.
Proof.
  intros HQ HE. unfold wp, write_data.
  destruct (setitem _ _ _) eqn:Hs.
  - apply setitem_ok_bound in Hs as [Hb Hl]. by apply HQ.
  - apply setitem_error in Hs as [-> _]. done.
Qed.

(** Loops that only read and write slots keep capacity and count. *)
Lemma for_each_read_write {X L} (xs : list X) (body : X -> L -> M Vector L)
  (self0 : Vector) :
  (forall x acc s, same_dims self0 s ->
                   wp (body x acc) (fun _ => same_dims self0)
                     (fun _ => same_dims self0) s) ->
  forall acc s, same_dims self0 s ->
    wp (for_each xs body acc) (fun _ => same_dims self0)
      (fun _ => same_dims self0) s.
Proof.
  intros Hbody acc s Hs.
  apply (wp_for_each (fun _ _ => same_dims self0)); [|done].
  intros done x rest acc' s' _ Hs'. by apply Hbody.
Qed.

Lemma same_dims_set_data (self0 s : Vector) (d : list value) :
  same_dims self0 s -> len d = capacity s ->
  same_dims self0 (set_elementData d s).
Proof. unfold same_dims, dims, capacity. simpl. intros [= <- <-] ->. done. Qed.

Lemma keeps_wf_fst {A} (m : M Vector A) (self : Vector) :
  keeps_wf m -> wf self -> wf (fst (m self)).
Proof.
  intros Hm Hwf. specialize (Hm self Hwf). unfold wp in Hm.
  by destruct (m self) as [s' [a|e]].
Qed.

Lemma ensureCapacity_keeps_wf (m : Z) : keeps_wf (ensureCapacity m).
Proof.
  intros self Hwf. apply wp_ensureCapacity; [done|].
  intros d Hlen _. destruct Hwf as [Hn Hc].
  unfold wf, capacity. simpl. rewrite Hlen.
  destruct (Z.gtb_spec m (capacity self)); [|lia].
  pose proof (grown_capacity_ge self m). lia.
Qed.

(** After [ensureCapacity(m)] the capacity is at least [m] and no smaller
    than before; the count is unchanged. *)
Lemma wp_ensureCapacity_ge (m : Z) (Q : unit -> Vector -> Prop) E
  (self : Vector) :
  wf self ->
  (forall s, wf s -> elementCount s = elementCount self ->
             m <= capacity s -> capacity self <= capacity s -> Q tt s) ->
  wp (ensureCapacity m) Q E self.
Proof.
  intros Hwf HQ. apply wp_ensureCapacity; [done|].
  intros d Hlen _. destruct Hwf as [Hn Hc].
  assert (m <= len d /\ capacity self <= len d) as [H1 H2].
  { rewrite Hlen. destruct (Z.gtb_spec m (capacity self)); [|lia].
    pose proof (grown_capacity_ge self m). lia. }
  apply HQ; unfold wf, capacity, len in *; simpl; lia.
Qed.

Lemma addElement_keeps_wf (x : value) : keeps_wf (addElement x).
Proof.
  intros self Hwf. unfold addElement. wp_go.
  assert (Htail : forall s, wf s ->
            wp (n <- gets elementCount ;; write_data n x ;;;
                modify (set_elementCount (n + 1)))
              (fun _ => wf) (fun _ => wf) s).
  { intros s [Hn Hc]. wp_go. apply wp_write_any; [|done].
    intros d Hlen Hb. wp_go. unfold wf, capacity, len in *. simpl. lia. }
  destruct (elementCount self =? capacity self).
  - wp_go. apply wp_ensureCapacity_ge; [done|].
    intros s Hs _ _ _. by apply Htail.
  - apply wp_ret. by apply Htail.
Qed.

Lemma same_dims_refl (self : Vector) : same_dims self self.
Proof. done. Qed.

Lemma same_dims_wf (self s : Vector) : same_dims self s -> wf self -> wf s.
Proof. intros Hd. by apply wf_dims. Qed.

Lemma same_dims_count (self s : Vector) :
  same_dims self s -> elementCount s = elementCount self.
Proof. unfold same_dims, dims. by intros [= _ ->]. Qed.

Lemma same_dims_capacity (self s : Vector) :
  same_dims self s -> capacity s = capacity self.
Proof. unfold same_dims, dims. by intros [= -> _]. Qed.

Lemma wp_read_dims (self0 : Vector) (i : Z) (s : Vector) :
  same_dims self0 s ->
  wp (read_data i) (fun _ => same_dims self0) (fun _ => same_dims self0) s.
Proof. intros Hs. by apply wp_read_any. Qed.

Lemma wp_write_dims (self0 : Vector) (i : Z) (x : value) (s : Vector) :
  same_dims self0 s ->
  wp (write_data i x) (fun _ => same_dims self0) (fun _ => same_dims self0) s.
Proof.
  intros Hs. apply wp_write_any; [|done].
  intros d Hlen _. by apply same_dims_set_data.
Qed.

(** Solves the goal for a loop body made of slot reads and writes. *)
Ltac rw_body :=
  repeat match goal with
    | |- wp (bind _ _) _ _ _ => apply wp_bind
    | |- wp (read_data _) _ _ _ => apply wp_read_any; [intros ?|done]
    | |- wp (write_data _ _) _ _ _ =>
        apply wp_write_any; [intros ? ? ?|done]
    | |- wp (ret _) _ _ _ => apply wp_ret
    | |- same_dims _ (set_elementData _ _) =>
        apply same_dims_set_data; [|done]
    end;
  try done.

(** Uses a loop that keeps the dimensions inside a longer body. *)
Lemma wp_loop_then {X L} (xs : list X) (body : X -> L -> M Vector L)
  (acc : L) (self0 s : Vector) (Q : L -> Vector -> Prop)
  (E : exn -> Vector -> Prop) :
  (forall x acc s, same_dims self0 s ->
                   wp (body x acc) (fun _ => same_dims self0)
                     (fun _ => same_dims self0) s) ->
  same_dims self0 s ->
  (forall a s', same_dims self0 s' -> Q a s') ->
  (forall e s', same_dims self0 s' -> E e s') ->
  wp (for_each xs body acc) Q E s.
Proof.
  intros Hbody Hs HQ HE.
  eapply wp_mono; [by apply (for_each_read_write xs body self0) | |]; eauto.
Qed.

Lemma add_keeps_wf (x : value) : keeps_wf (add x).
Proof.
  intros self Hwf. unfold add. wp_go.
  apply wp_ensureCapacity_ge; [done|]. intros s [Hn Hc] _ _ _. wp_go.
  apply wp_write_any; [|done]. intros d Hlen Hb. wp_go.
  unfold wf, capacity, len in *. simpl. lia.
Qed.

Lemma add_at_keeps_wf (i : Z) (x : value) : keeps_wf (add_at i x).
Proof.
  intros self Hwf. unfold add_at. wp_go.
  destruct (_ || _); [by apply wp_raise|]. wp_go.
  apply wp_ensureCapacity_ge; [done|]. intros s Hs Hcount Hcap _. wp_go.
  apply (wp_loop_then _ _ _ s); [intros; rw_body | done | |].
  - intros _ s1 Hs1. wp_go. apply wp_write_any.
    + intros d Hlen Hb. wp_go.
      pose proof (same_dims_count _ _ Hs1). pose proof (same_dims_capacity _ _ Hs1).
      destruct Hs. unfold wf, capacity, len in *. simpl. lia.
    + by apply (same_dims_wf s).
  - intros _ s1 Hs1. by apply (same_dims_wf s).
Qed.

Lemma addAll_keeps_wf (c : collection_arg) : keeps_wf (addAll c).
Proof.
  intros self Hwf. unfold addAll.
  destruct c as [items|items|]; wp_go; try done. cbn [items_of].
  destruct (_ =? 0); [by apply wp_ret|]. wp_go.
  apply wp_ensureCapacity_ge; [done|]. intros s Hs _ _ _. wp_go.
  eapply (wp_mono _ (fun _ => wf) _ (fun _ => wf)).
  - apply (wp_for_each (fun _ _ => wf)); [|exact Hs].
    intros _ x _ _ s1 _ Hs1. wp_go.
    apply wp_write_any; [|done]. intros d Hlen Hb. wp_go.
    destruct Hs1. unfold wf, capacity, len in *. simpl. lia.
  - intros _ s1 Hs1. by apply wp_ret.
  - done.
Qed.

Lemma addAll_at_keeps_wf (i : Z) (c : collection_arg) :
  keeps_wf (addAll_at i c).
Proof.
  intros self Hwf. unfold addAll_at.
  destruct c as [c|c|]; wp_go; try done;
    (destruct (_ || _); [by apply wp_raise|]); wp_go; try done.
  cbn [items_of].
  destruct (_ =? 0); [by apply wp_ret|]. wp_go.
  apply wp_ensureCapacity_ge; [done|]. intros s Hs Hcount Hcap _. wp_go.
  apply (wp_loop_then _ _ _ s); [intros; rw_body | done | |];
    [|intros _ s1 Hs1; by apply (same_dims_wf s)].
  intros _ s1 Hs1. wp_go.
  apply (wp_loop_then _ _ _ s); [intros; rw_body | done | |];
    [|intros _ s2 Hs2; by apply (same_dims_wf s)].
  intros _ s2 Hs2. wp_go.
  pose proof (same_dims_count _ _ Hs2). pose proof (same_dims_capacity _ _ Hs2).
  pose proof (len_nonneg c).
  destruct Hs. unfold wf, capacity, len in *. simpl. lia.
Qed.

Lemma clear_keeps_wf : keeps_wf clear.
Proof.
  intros self Hwf. unfold clear. wp_go.
  unfold wf, capacity. simpl. rewrite len_repeat.
  pose proof (len_nonneg (elementData self)). lia.
Qed.

Lemma removeAt_keeps_wf (i : Z) : keeps_wf (removeAt i).
Proof.
  intros self Hwf. unfold removeAt. wp_go.
  destruct (Z.ltb_spec i 0); [by apply wp_raise|].
  destruct (Z.geb_spec i (elementCount self)); [by apply wp_raise|].
  simpl. wp_go. apply wp_read_any; [|done]. intros removed. wp_go.
  apply (wp_loop_then _ _ _ self); [intros; rw_body | done | |];
    [|intros _ s1 Hs1; by apply (same_dims_wf self)].
  intros _ s1 Hs1. wp_go.
  apply wp_write_any; [|by apply (same_dims_wf self)].
  intros d Hlen Hb. wp_go.
  pose proof (same_dims_count _ _ Hs1). pose proof (same_dims_capacity _ _ Hs1).
  destruct Hwf. unfold wf, capacity, len in *. simpl. lia.
Qed.

Lemma indexOf_loop_keeps (o : value) (indices : list Z) (self : Vector)
  (P : Vector -> Prop) :
  P self -> wp (indexOf_loop o indices) (fun _ => P) (fun _ => P) self.
Proof.
  intros HP. induction indices as [|i rest IH]; simpl; [done|].
  apply wp_bind. apply wp_read_any; [|done]. intros x.
  destruct (decide _); [done | apply IH].
Qed.

Lemma removeElement_keeps_wf (x : value) : keeps_wf (removeElement x).
Proof.
  intros self Hwf. unfold wp, removeElement.
  assert (Hin : wp (index <- indexOf x ;;
                    if negb (index =? -1) then removeAt index ;;; ret true
                    else ret false) (fun _ => wf) (fun _ => wf) self).
  { unfold indexOf. wp_go.
    eapply wp_mono; [by apply (indexOf_loop_keeps _ _ _ wf) | | done].
    intros index s Hs. destruct (negb _); [|done]. wp_go.
    eapply wp_mono; [by apply removeAt_keeps_wf | | done]. done. }
  unfold wp in Hin. destruct (bind (indexOf x) _ self) as [s' [a|[]]]; done.
Qed.

Lemma remove_keeps_wf (arg : value) : keeps_wf (remove arg).
Proof.
  intros self Hwf. unfold remove. destruct arg as [index|]; wp_go.
  - eapply wp_mono; [by apply removeAt_keeps_wf | | done]. done.
  - eapply wp_mono; [by apply removeElement_keeps_wf | | done]. done.
Qed.

Lemma trimToSize_keeps_wf : keeps_wf trimToSize.
Proof.
  intros self [Hn Hc]. unfold trimToSize. wp_go.
  destruct (Z.gtb_spec (capacity self) (elementCount self)); [|by apply wp_ret].
  wp_go. unfold wf, capacity, len in *. simpl.
  rewrite slice_to_take by done. rewrite length_take. lia.
Qed.

Lemma setSize_keeps_wf (n : Z) : keeps_wf (setSize n).
Proof.
  intros self Hwf. unfold setSize.
  destruct (Z.ltb_spec n 0); [by apply wp_raise|]. wp_go.
  destruct (Z.gtb_spec n (capacity self)).
  - apply wp_ensureCapacity_ge; [done|]. intros s [Hn Hc] _ Hcap _. wp_go.
    unfold wf, capacity, len in *. simpl. lia.
  - destruct (n <? elementCount self).
    + apply (wp_loop_then _ _ _ self); [intros; rw_body | done | |];
        [|intros _ s1 Hs1; by apply (same_dims_wf self)].
      intros _ s1 Hs1. wp_go.
      pose proof (same_dims_capacity _ _ Hs1).
      unfold wf, capacity, len in *. simpl. lia.
    + wp_go. unfold wf, capacity, len in *. simpl. lia.
Qed.

Lemma setElementAt_keeps_wf (x : value) (i : Z) : keeps_wf (setElementAt x i).
Proof.
  intros self Hwf. unfold setElementAt.
  destruct (Z.ltb_spec i 0); [by apply wp_raise|]. wp_go.
  assert (Htail : forall s, wf s -> i + 1 <= capacity s ->
            wp (n <- gets elementCount ;;
                (if i >=? n then modify (set_elementCount (i + 1))
                 else ret tt) ;;;
                write_data i x) (fun _ => wf) (fun _ => wf) s).
  { intros s [Hn Hc] Hcap. wp_go.
    destruct (Z.geb_spec i (elementCount s)); wp_go.
    - apply wp_write_any.
      + intros d Hlen _. unfold wf, capacity, len in *. simpl in *. lia.
      + unfold wf, capacity, len in *. simpl. lia.
    - apply wp_write_any; [|done].
      intros d Hlen _. unfold wf, capacity, len in *. simpl in *. lia. }
  destruct (Z.geb_spec i (capacity self)).
  - apply wp_ensureCapacity_ge; [done|]. intros s Hs _ Hcap _.
    by apply Htail.
  - apply wp_ret. apply Htail; [done | lia].
Qed.

Lemma set_keeps_wf (i : Z) (x : value) : keeps_wf (set i x).
Proof.
  intros self Hwf. unfold set. wp_go.
  destruct (_ || _); [by apply wp_raise|]. wp_go.
  apply wp_read_any; [|done]. intros old. wp_go.
  apply wp_write_any; [|done]. intros d Hlen _. wp_go.
  destruct Hwf. unfold wf, capacity, len in *. simpl. lia.
Qed.

Lemma replaceAll_keeps_wf (f : value -> value) : keeps_wf (replaceAll f).
Proof.
  intros self Hwf. unfold replaceAll. wp_go.
  apply (wp_loop_then _ _ _ self); [intros; rw_body | done | |];
    intros _ s1 Hs1; by apply (same_dims_wf self).
Qed.

Lemma retainAll_keeps_wf (c : list value) : keeps_wf (retainAll c).
Proof.
  intros self Hwf. unfold retainAll. wp_go.
  apply (wp_for_each (fun _ _ => wf)); [|done].
  intros _ i _ removed s _ Hs. wp_go.
  apply wp_read_any; [|done]. intros x.
  destruct (negb _); [|done]. wp_go.
  eapply wp_mono; [by apply removeAt_keeps_wf | | done]. done.
Qed.

Lemma removeIf_keeps_wf (p : value -> bool) : keeps_wf (removeIf p).
Proof.
  intros self Hwf. unfold removeIf. wp_go.
  apply (wp_for_each (fun _ _ => wf)); [|done].
  intros _ i _ removed s _ Hs. wp_go.
  apply wp_read_any; [|done]. intros x.
  destruct (p x); [|done]. wp_go.
  eapply wp_mono; [by apply removeAt_keeps_wf | | done]. done.
Qed.

Lemma insert_by_key_length {A} (key : A -> Z) (x : A) (l : list A) :
  length (insert_by_key key x l) = S (length l).
Proof.
  induction l as [|y l IH]; simpl; [done|].
  destruct (_ <? _); simpl; by rewrite ?IH.
Qed.

Lemma sorted_length {A} (key : A -> Z) (l : list A) :
  length (sorted key l) = length l.
Proof.
  induction l as [|x l IH]; [done|].
  unfold sorted in *. simpl. by rewrite insert_by_key_length, IH.
Qed.

Lemma sort_keeps_wf (c : value -> Z) : keeps_wf (sort c).
Proof.
  intros self [Hn Hc]. unfold sort. wp_go.
  unfold wf, capacity, len, set_slice_to in *. simpl.
  rewrite length_app, sorted_length, length_drop. lia.
Qed.

Lemma construct_wf (c : ctor) (v : Vector) : construct c = Some v -> wf v.
Proof.
  destruct c; intros [= <-]; unfold wf, capacity; simpl; rewrite ?len_repeat;
    try lia. pose proof (len_nonneg c). lia.
Qed.

Lemma removeAll_while_keeps_wf (fuel : nat) (x : value) (removed : bool) :
  keeps_wf (removeAll_while fuel x removed).
Proof.
  revert removed.
  induction fuel as [|fuel IH]; intros removed self Hwf; simpl;
    [by apply wp_ret|].
  apply wp_bind. eapply wp_mono; [by apply removeElement_keeps_wf | | done].
  intros r s Hs. cbn beta. destruct r; [by apply IH | by apply wp_ret].
Qed.

Lemma removeAll_for_keeps_wf (fuel : nat) (c : list value) (removed : bool) :
  keeps_wf (removeAll_for fuel c removed).
Proof.
  revert removed.
  induction c as [|x c IH]; intros removed self Hwf; simpl;
    [by apply wp_ret|].
  apply wp_bind.
  eapply wp_mono; [by apply removeAll_while_keeps_wf | | done].
  intros r s Hs. cbn beta. destruct r; [by apply IH | by apply wp_ret].
Qed.

Lemma removeAll_keeps_wf (c : list value) : keeps_wf (removeAll c).
Proof.
  intros self Hwf. unfold removeAll. wp_go.
  by apply removeAll_for_keeps_wf.
Qed.

Lemma exec_wf (o : op) (self : Vector) : wf self -> wf (exec o self).
Proof.
  intros Hwf. destruct o; unfold exec; apply keeps_wf_fst; try done.
  - apply ensureCapacity_keeps_wf.
  - apply addElement_keeps_wf.
  - apply add_keeps_wf.
  - apply add_at_keeps_wf.
  - apply addAll_keeps_wf.
  - apply addAll_at_keeps_wf.
  - apply clear_keeps_wf.
  - apply removeElement_keeps_wf.
  - apply removeAll_keeps_wf.
  - apply remove_keeps_wf.
  - apply removeAt_keeps_wf.
  - apply clear_keeps_wf.
  - apply trimToSize_keeps_wf.
  - apply setSize_keeps_wf.
  - apply setElementAt_keeps_wf.
  - apply set_keeps_wf.
  - apply replaceAll_keeps_wf.
  - apply retainAll_keeps_wf.
  - apply removeIf_keeps_wf.
  - apply sort_keeps_wf.
Qed.

(** The invariant holds after every call of a sequence made on a vector
    that satisfies it. *)
Lemma trace_wf (ops : list op) (self : Vector) :
  wf self -> Forall wf (trace ops self).
Proof.
  revert self.
  induction ops as [|o ops IH]; intros self Hwf; simpl; [done|].
  constructor; [by apply exec_wf|]. apply IH. by apply exec_wf.
Qed.

(** *** [retainAll] *)

(** C2. [retainAll] does not behave as stated: on [1, 2, 3] with
    [c = [1, 3]] it raises [IndexError] after removing [2] instead of
    returning [True]; on [2, 2, 1] with [c = [1]] it raises as well and
    leaves the non-member [2] in the vector. *)
Theorem retainAll_raises_and_skips :
  wf v123 /\ toArray v123 = [Some 1; Some 2; Some 3]
  /\ snd (retainAll [Some 1; Some 3] v123) = Raise IndexError
  /\ toArray (fst (retainAll [Some 1; Some 3] v123)) = [Some 1; Some 3]
  /\ wf v221 /\ toArray v221 = [Some 2; Some 2; Some 1]
  /\ snd (retainAll [Some 1] v221) = Raise IndexError
  /\ toArray (fst (retainAll [Some 1] v221)) = [Some 2; Some 1].
Proof. unfold wf. vm_compute. repeat split; congruence. Qed.

(** C3. [retainAll] is not atomic: on [1, 2, 3] with [c = [1, 3]] the call
    raises [IndexError] although the contents and the size have already
    changed. *)
Theorem retainAll_raises_with_mutation :
  snd (retainAll [Some 1; Some 3] v123) = Raise IndexError
  /\ toArray (fst (retainAll [Some 1; Some 3] v123)) <> toArray v123
  /\ size (fst (retainAll [Some 1; Some 3] v123)) = 2
  /\ size v123 = 3.
Proof. vm_compute. repeat split; congruence. Qed.

End VectorSpec.

(** ** heapq: the sift loops keep the heap property and the items *)

Module HeapqSpec.
Import Heapq.

(** Linear arithmetic with the divisions by two of parent positions. *)
Ltac div_lia := zify; Z.to_euclidean_division_equations; lia.

Lemma descendant_ge (s pos : nat) : descendant s pos -> (s <= pos)%nat.
Proof. induction 1; lia. Qed.

Lemma descendant_parent (s pos : nat) :
  descendant s pos -> (s < pos)%nat -> descendant s ((pos - 1) / 2).
Proof.
  destruct 1 as [|p Hp|p Hp]; intros Hlt; [lia | |].
  - replace ((2 * p + 1 - 1) / 2)%nat with p by div_lia. done.
  - replace ((2 * p + 2 - 1) / 2)%nat with p by div_lia. done.
Qed.

Lemma descendant_root (pos : nat) : descendant 0 pos.
Proof.
  induction pos as [pos IH] using lt_wf_ind.
  destruct (decide (pos = 0)%nat) as [->|Hpos]; [constructor|].
  assert (Hp : ((pos - 1) / 2 < pos)%nat) by div_lia.
  specialize (IH _ Hp).
  destruct (decide (pos = 2 * ((pos - 1) / 2) + 1)%nat) as [Heq|Hne].
  - rewrite Heq. by constructor.
  - replace pos with (2 * ((pos - 1) / 2) + 2)%nat by div_lia.
    by constructor.
Qed.

Lemma descendant_child (s pos c : nat) :
  descendant s pos -> (0 < c)%nat -> ((c - 1) / 2 = pos)%nat ->
  descendant s c.
Proof.
  intros Hd Hc Hp.
  destruct (decide (c = 2 * pos + 1)%nat) as [->|Hne]; [by constructor|].
  replace c with (2 * pos + 2)%nat by div_lia. by constructor.
Qed.

Section Facts.
Context {A : Type} `{Inhabited A} `{Lt A} `{!LtLaws A}.
Implicit Types (heap : list A) (x : A).

Lemma le_refl x : le x x.
Proof. apply lt_irrefl. Qed.

Lemma le_trans x y z : le x y -> le y z -> le x z.
Proof. unfold le. intros Hxy Hyz. by apply (lt_negtrans _ y). Qed.

Lemma lt_le x y : lt x y = true -> le x y.
Proof. apply lt_asym. Qed.

Lemma siftdown_loop_unfold heap (startpos pos : nat) x :
  siftdown_loop heap startpos pos x =
    if decide (startpos < pos)%nat then
      if lt x (heap !!! ((pos - 1) / 2)%nat)
      then siftdown_loop (<[pos := heap !!! ((pos - 1) / 2)%nat]> heap)
             startpos ((pos - 1) / 2) x
      else <[pos := x]> heap
    else <[pos := x]> heap.
Proof.
  rewrite siftdown_loop_equation_1.
  destruct (decide (startpos < pos)%nat); reflexivity.
Qed.

Lemma siftup_loop_unfold heap (endpos pos : nat) :
  siftup_loop heap endpos pos =
    if decide (2 * pos + 1 < endpos)%nat then
      let childpos :=
        if bool_decide (2 * pos + 1 + 1 < endpos)%nat
           && negb (lt (heap !!! (2 * pos + 1)%nat)
                       (heap !!! (2 * pos + 1 + 1)%nat))
        then (2 * pos + 1 + 1)%nat else (2 * pos + 1)%nat in
      siftup_loop (<[pos := heap !!! childpos]> heap) endpos childpos
    else (heap, pos).
Proof.
  rewrite siftup_loop_equation_1.
  destruct (decide (2 * pos + 1 < endpos)%nat); reflexivity.
Qed.

Lemma siftdown_loop_length heap (startpos pos : nat) x :
  length (siftdown_loop heap startpos pos x) = length heap.
Proof.
  revert heap. induction pos as [pos IH] using lt_wf_ind. intros heap.
  rewrite siftdown_loop_unfold.
  destruct (decide _); [|apply length_insert].
  destruct (lt _ _); [|apply length_insert].
  rewrite IH by div_lia. apply length_insert.
Qed.

Lemma siftup_loop_length heap (endpos pos : nat) :
  length (siftup_loop heap endpos pos).1 = length heap.
Proof.
  remember (endpos - pos)%nat as k eqn:Hk.
  revert heap pos Hk. induction k as [k IH] using lt_wf_ind.
  intros heap pos ->. rewrite siftup_loop_unfold.
  destruct (decide _); [|done]. cbv zeta.
  erewrite IH; [apply length_insert | | reflexivity].
  destruct (_ && _); lia.
Qed.

(** Overwriting two slots in either order holds the same items. *)
Lemma insert_cons_swap (l : list A) (j : nat) (a b : A) :
  (j < length l)%nat -> a :: <[j := b]> l ≡ₚ b :: <[j := a]> l.
Proof.
  revert j. induction l as [|y l IH]; intros j Hj; simpl in Hj; [lia|].
  destruct j as [|j]; simpl.
  - apply Permutation_swap.
  - rewrite (Permutation_swap y a), (Permutation_swap y b).
    apply Permutation_skip, IH. lia.
Qed.

Lemma insert_swap (l : list A) (i j : nat) (a b : A) :
  i <> j -> (i < length l)%nat -> (j < length l)%nat ->
  <[i := a]> (<[j := b]> l) ≡ₚ <[i := b]> (<[j := a]> l).
Proof.
  revert i j. induction l as [|y l IH]; intros i j Hne Hi Hj;
    simpl in Hi, Hj; [lia|].
  destruct i as [|i], j as [|j]; simpl; try lia.
  - apply insert_cons_swap. lia.
  - symmetry. apply insert_cons_swap. lia.
  - apply Permutation_skip, IH; lia.
Qed.

(** Moving the item of [j] into the hole [i] and leaving the hole at [j]
    holds the same items once the hole is filled. *)
Lemma insert_move (l : list A) (i j : nat) x :
  i <> j -> (i < length l)%nat -> (j < length l)%nat ->
  <[j := x]> (<[i := l !!! j]> l) ≡ₚ <[i := x]> l.
Proof.
  intros Hne Hi Hj.
  rewrite <- (list_insert_id l j (l !!! j)) at 3
    by (by apply list_lookup_lookup_total_lt).
  rewrite list_insert_insert_ne by done.
  apply insert_swap; done.
Qed.

Lemma siftdown_loop_perm heap (startpos pos : nat) x :
  (pos < length heap)%nat ->
  siftdown_loop heap startpos pos x ≡ₚ <[pos := x]> heap.
Proof.
  revert heap. induction pos as [pos IH] using lt_wf_ind. intros heap Hpos.
  rewrite siftdown_loop_unfold.
  destruct (decide _); [|done].
  destruct (lt _ _); [|done].
  rewrite IH by (rewrite ?length_insert; div_lia).
  apply insert_move; div_lia.
Qed.

Lemma siftup_loop_perm heap (pos : nat) x :
  (pos < length heap)%nat ->
  let '(heap', leaf) := siftup_loop heap (length heap) pos in
  <[leaf := x]> heap' ≡ₚ <[pos := x]> heap
  /\ (leaf < length heap)%nat
  /\ (length heap <= 2 * leaf + 1)%nat
  /\ descendant pos leaf.
Proof.
  remember (length heap - pos)%nat as k eqn:Hk.
  revert heap pos Hk. induction k as [k IH] using lt_wf_ind.
  intros heap pos -> Hpos. rewrite siftup_loop_unfold.
  destruct (decide _) as [Hc|Hc];
    [|split; [done|]; split; [done|]; split; [lia | constructor]].
  cbv zeta.
  set (c := if _ && _ then _ else _).
  assert (Hcv : (c = 2 * pos + 1 \/ c = 2 * pos + 2)%nat /\ (c < length heap)%nat).
  { unfold c. destruct (bool_decide_reflect (2 * pos + 1 + 1 < length heap)%nat);
      simpl; [destruct (negb _)|]; lia. }
  destruct Hcv as [Hcv Hclt].
  specialize (IH (length heap - c)%nat ltac:(lia)
                (<[pos := heap !!! c]> heap) c).
  rewrite length_insert in IH. specialize (IH eq_refl Hclt).
  destruct (siftup_loop _ _ c) as [heap' leaf].
  destruct IH as (Hperm & Hleaf & Hnochild & Hdesc).
  split; [|split; [done|]; split; [done|]].
  - rewrite Hperm. apply insert_move; lia.
  - assert (Hdc : descendant pos c)
      by (destruct Hcv as [-> | ->]; constructor; constructor).
    clear -Hdc Hdesc. induction Hdesc; [done | by constructor..].
Qed.

Lemma total_insert_eq heap (i : nat) x :
  (i < length heap)%nat -> <[i := x]> heap !!! i = x.
Proof. apply list_lookup_total_insert_eq. Qed.

Lemma total_insert_ne heap (i j : nat) x :
  i <> j -> <[i := x]> heap !!! j = heap !!! j.
Proof. apply list_lookup_total_insert_ne. Qed.

(** [_siftdown]'s loop: with the hole at [pos] and [x] fitting above the
    hole's children, the result is a heap from [startpos] on. *)
Lemma siftdown_loop_heap (startpos : nat) x :
  forall (pos : nat) heap,
    hole_inv startpos pos heap ->
    fits x pos heap ->
    descendant startpos pos ->
    (pos < length heap)%nat ->
    heap_from startpos (siftdown_loop heap startpos pos x).
Proof.
  induction pos as [pos IH] using lt_wf_ind.
  intros heap [E1 E3] E2 Hdesc Hpos.
  pose proof (descendant_ge _ _ Hdesc) as Hge.
  rewrite siftdown_loop_unfold.
  destruct (decide (startpos < pos)%nat) as [Hlt|Hnlt].
  - set (pp := ((pos - 1) / 2)%nat) in *.
    assert (Hpp : (pp < pos)%nat) by (unfold pp; div_lia).
    pose proof (descendant_parent _ _ Hdesc Hlt) as Hdpp. fold pp in Hdpp.
    pose proof (descendant_ge _ _ Hdpp) as Hgepp.
    specialize (E3 Hlt).
    destruct (lt x (heap !!! pp)) eqn:Hcmp.
    + apply IH; [done | | | done | rewrite length_insert; lia].
      * split.
        -- intros c Hc Hs Hcpp Hppp. rewrite length_insert in Hc.
           assert (c <> pos) by (intros ->; by apply Hppp).
           rewrite (total_insert_ne _ _ c) by done.
           destruct (decide ((c - 1) / 2 = pos)%nat) as [Hcp|Hcp].
           ++ rewrite Hcp, total_insert_eq by done. by apply E3.
           ++ rewrite total_insert_ne by done. by apply E1.
        -- intros Hspp c Hc Hcpp. rewrite length_insert in Hc.
           set (gp := ((pp - 1) / 2)%nat).
           assert (Hgp : (gp < pp)%nat) by (unfold gp; div_lia).
           pose proof (descendant_ge _ _ (descendant_parent _ _ Hdpp Hspp))
             as Hgegp. fold gp in Hgegp.
           rewrite (total_insert_ne _ _ gp) by lia.
           assert (Hgpp : le (heap !!! gp) (heap !!! pp)).
           { apply E1; [lia | done | lia | fold gp; lia]. }
           destruct (decide (c = pos)) as [->|Hcne].
           ++ by rewrite total_insert_eq.
           ++ rewrite total_insert_ne by done.
              apply (le_trans _ (heap !!! pp)); [done|].
              rewrite <- Hcpp. apply E1; [done | lia | done | lia].
      * intros c Hc Hcpp. rewrite length_insert in Hc.
        destruct (decide (c = pos)) as [->|Hcne].
        -- rewrite total_insert_eq by done. by apply lt_le.
        -- rewrite total_insert_ne by done.
           apply (le_trans _ (heap !!! pp)); [by apply lt_le|].
           rewrite <- Hcpp. apply E1; [done | lia | done | lia].
    + intros c Hc Hs. rewrite length_insert in Hc.
      destruct (decide (c = pos)) as [->|Hcne].
      * rewrite total_insert_eq by done. fold pp.
        rewrite total_insert_ne by lia. exact Hcmp.
      * rewrite (total_insert_ne _ _ c) by done.
        destruct (decide ((c - 1) / 2 = pos)%nat) as [Hcp|Hcp].
        -- rewrite Hcp, total_insert_eq by done. by apply E2.
        -- rewrite total_insert_ne by done. by apply E1.
  - assert (pos = startpos) as -> by lia.
    intros c Hc Hs. rewrite length_insert in Hc.
    destruct (decide (c = startpos)) as [->|Hcne]; [div_lia|].
    rewrite (total_insert_ne _ _ c) by done.
    destruct (decide ((c - 1) / 2 = startpos)%nat) as [Hcp|Hcp].
    + rewrite Hcp, total_insert_eq by done. by apply E2.
    + rewrite total_insert_ne by done. by apply E1.
Qed.

(** [_siftup]'s loop: the hole travels to a leaf and keeps its invariant. *)
Lemma siftup_loop_hole (startpos : nat) :
  forall (k pos : nat) heap,
    k = (length heap - pos)%nat ->
    hole_inv startpos pos heap ->
    (startpos <= pos)%nat ->
    (pos < length heap)%nat ->
    hole_inv startpos (siftup_loop heap (length heap) pos).2
      (siftup_loop heap (length heap) pos).1.
Proof.
  induction k as [k IH] using lt_wf_ind.
  intros pos heap -> [E1 E3] Hge Hpos.
  rewrite siftup_loop_unfold.
  destruct (decide _) as [Hc|Hc]; [|done]. cbv zeta.
  set (L := (2 * pos + 1)%nat) in *.
  set (c := if _ && _ then _ else _).
  assert (Hcv : (c = L \/ c = L + 1)%nat /\ (c < length heap)%nat
                /\ forall sb, (0 < sb < length heap)%nat ->
                              ((sb - 1) / 2 = pos)%nat -> sb <> c ->
                              le (heap !!! c) (heap !!! sb)).
  { unfold c.
    destruct (bool_decide_reflect (L + 1 < length heap)%nat) as [HR|HR];
      cbn [andb].
    - destruct (lt (heap !!! L) (heap !!! (L + 1)%nat)) eqn:Hcmp; cbn [negb].
      + split; [by left|]. split; [done|]. intros sb Hsb Hp Hne.
        replace sb with (L + 1)%nat by (unfold L in *; div_lia).
        by apply lt_le.
      + split; [by right|]. split; [done|]. intros sb Hsb Hp Hne.
        replace sb with L by (unfold L in *; div_lia). exact Hcmp.
    - split; [by left|]. split; [done|]. intros sb Hsb Hp Hne.
      unfold L in *. div_lia. }
  destruct Hcv as (Hcv & Hclt & Hsib).
  assert (Hpc : ((c - 1) / 2 = pos)%nat) by (unfold L in *; div_lia).
  assert (Hcpos : (pos < c)%nat) by (unfold L in *; lia).
  pose proof (IH (length heap - c)%nat ltac:(lia) c
                (<[pos := heap !!! c]> heap)) as IH'.
  rewrite length_insert in IH'. apply IH'; [done | | lia | done].
  split.
  - intros d Hd Hs Hdc Hpd. rewrite length_insert in Hd.
    destruct (decide (d = pos)) as [->|Hdne].
    + rewrite total_insert_eq by done.
      rewrite total_insert_ne by div_lia.
      apply E3; [div_lia | lia | done].
    + rewrite (total_insert_ne _ _ d) by done.
      destruct (decide ((d - 1) / 2 = pos)%nat) as [Hdp|Hdp].
      * rewrite Hdp, total_insert_eq by done. by apply Hsib.
      * rewrite total_insert_ne by done. by apply E1.
  - intros _ d Hd Hpd. rewrite length_insert in Hd.
    rewrite Hpc, total_insert_eq by done.
    rewrite total_insert_ne by div_lia.
    rewrite <- Hpd. apply E1; [done | lia | div_lia | lia].
Qed.

Lemma hole_inv_insert (startpos pos : nat) heap x :
  hole_inv startpos pos heap -> hole_inv startpos pos (<[pos := x]> heap).
Proof.
  intros [E1 E3]. split.
  - intros c Hc Hs Hcp Hpp. rewrite length_insert in Hc.
    rewrite !total_insert_ne by done. by apply E1.
  - intros Hlt c Hc Hcp. rewrite length_insert in Hc.
    rewrite !total_insert_ne by div_lia. by apply E3.
Qed.

Lemma heap_from_hole (startpos : nat) heap :
  heap_from (S startpos) heap -> hole_inv startpos startpos heap.
Proof.
  intros Hh. split; [|lia].
  intros c Hc Hs Hcp Hpp. apply Hh; [done | lia].
Qed.

Lemma heap_from_weaken (s s' : nat) heap :
  (s <= s')%nat -> heap_from s heap -> heap_from s' heap.
Proof. intros Hs Hh c Hc Hp. apply Hh; [done | lia]. Qed.

(** [_siftup(heap, pos)] makes [pos] the root of a heap when everything
    below it already is one, and keeps the items. *)
Lemma _siftup_heap (pos : nat) heap :
  heap_from (S pos) heap ->
  (pos < length heap)%nat ->
  heap_from pos (_siftup heap pos)
  /\ _siftup heap pos ≡ₚ heap
  /\ length (_siftup heap pos) = length heap.
Proof.
  intros Hh Hpos. unfold _siftup, _siftdown.
  pose proof (siftup_loop_hole pos _ pos heap eq_refl
                (heap_from_hole _ _ Hh) (le_n _) Hpos) as Hhole.
  pose proof (siftup_loop_perm heap pos (heap !!! pos) Hpos) as Hperm.
  pose proof (siftup_loop_length heap (length heap) pos) as Hlen.
  destruct (siftup_loop heap (length heap) pos) as [heap' leaf].
  simpl in Hhole, Hlen. destruct Hperm as (Hperm & Hleaf & Hnochild & Hdesc).
  rewrite total_insert_eq by lia.
  split; [|split].
  - apply siftdown_loop_heap;
      [by apply hole_inv_insert | | done | rewrite length_insert; lia].
    intros c Hc Hcp. rewrite length_insert in Hc. div_lia.
  - rewrite siftdown_loop_perm by (rewrite length_insert; lia).
    rewrite list_insert_insert_eq, Hperm.
    rewrite list_insert_id; [done|]. by apply list_lookup_lookup_total_lt.
  - rewrite siftdown_loop_length, length_insert. done.
Qed.

(** [heappush] keeps the heap property and adds exactly the pushed item. *)
Lemma heappush_heap heap x :
  is_heap heap ->
  is_heap (heappush heap x)
  /\ heappush heap x ≡ₚ x :: heap
  /\ length (heappush heap x) = S (length heap).
Proof.
  intros Hh. unfold heappush, _siftdown.
  rewrite length_app. simpl.
  replace (length heap + 1 - 1)%nat with (length heap) by lia.
  assert (Hx : (heap ++ [x]) !!! length heap = x).
  { rewrite lookup_total_app_r by lia.
    by replace (length heap - length heap)%nat with 0%nat by lia. }
  rewrite Hx. split; [|split].
  - apply siftdown_loop_heap;
      [| | apply descendant_root | rewrite length_app; simpl; lia].
    + split.
      * intros c Hc _ Hcp Hpp. rewrite length_app in Hc. simpl in Hc.
        rewrite !lookup_total_app_l by div_lia.
        apply Hh; lia.
      * intros _ c Hc Hcp. rewrite length_app in Hc. simpl in Hc. div_lia.
    + intros c Hc Hcp. rewrite length_app in Hc. simpl in Hc. div_lia.
  - rewrite siftdown_loop_perm by (rewrite length_app; simpl; lia).
    rewrite list_insert_id.
    + by rewrite Permutation_app_comm.
    + rewrite <- Hx at 2. apply list_lookup_lookup_total_lt.
      rewrite length_app. simpl. lia.
  - rewrite siftdown_loop_length, length_app. simpl. lia.
Qed.

(** The root of a heap is no greater than any of its items. *)
Lemma is_heap_root_le heap (i : nat) :
  is_heap heap -> (i < length heap)%nat -> le (heap !!! 0%nat) (heap !!! i).
Proof.
  intros Hh. induction i as [i IH] using lt_wf_ind. intros Hi.
  destruct (decide (i = 0)%nat) as [->|Hne]; [apply le_refl|].
  apply (le_trans _ (heap !!! ((i - 1) / 2)%nat)).
  - apply IH; div_lia.
  - apply Hh; lia.
Qed.

Lemma is_heap_root_min heap y :
  is_heap heap -> y ∈ heap -> le (heap !!! 0%nat) y.
Proof.
  intros Hh Hy. apply list_elem_of_lookup in Hy as [i Hi].
  rewrite <- (list_lookup_total_correct _ _ _ Hi).
  apply is_heap_root_le; [done|]. by eapply lookup_lt_Some.
Qed.

Lemma is_heap_nil : is_heap (@nil A).
Proof. intros c Hc. simpl in Hc. lia. Qed.

(** [heappop] on a non-empty heap returns the root, which is no greater
    than any item, and leaves a heap holding the remaining items. *)
Lemma heappop_heap heap :
  is_heap heap ->
  heap <> [] ->
  exists x heap',
    heappop heap = Ok (x, heap')
    /\ x = heap !!! 0%nat
    /\ (forall y, y ∈ heap -> le x y)
    /\ is_heap heap'
    /\ heap ≡ₚ x :: heap'
    /\ S (length heap') = length heap.
Proof.
  intros Hh Hne.
  destruct (exists_last Hne) as (init & lastelt & ->).
  unfold heappop. rewrite last_snoc.
  rewrite length_app. simpl.
  replace (length init + 1 - 1)%nat with (length init) by lia.
  rewrite take_app_length.
  destruct init as [|root rest].
  - exists lastelt, []. simpl. repeat split; try done.
    + intros y Hy. apply list_elem_of_singleton in Hy as ->. apply le_refl.
    + apply is_heap_nil.
  - set (init := root :: rest) in *.
    assert (Hfrom : heap_from 1 (<[0%nat := lastelt]> init)).
    { intros c Hc Hp. rewrite length_insert in Hc.
      rewrite !total_insert_ne by div_lia.
      pose proof (Hh c) as Hc'. unfold le in *.
      rewrite length_app in Hc'. cbn [length] in Hc'.
      rewrite !lookup_total_app_l in Hc' by div_lia.
      apply Hc'; lia. }
    destruct (_siftup_heap 0 (<[0%nat := lastelt]> init) Hfrom)
      as (Hheap' & Hperm & Hlen); [simpl; lia|].
    exists (init !!! 0%nat), (_siftup (<[0%nat := lastelt]> init) 0).
    split; [done|]. split; [done|]. split; [|split; [done|split]].
    + intros y Hy. change (init !!! 0%nat) with ((init ++ [lastelt]) !!! 0%nat).
      by apply is_heap_root_min.
    + rewrite Hperm. unfold init. simpl.
      apply Permutation_skip. symmetry. apply Permutation_cons_append.
    + rewrite Hlen, length_insert, ?length_app. simpl. lia.
Qed.

Lemma heappop_nil : heappop (@nil A) = Raise IndexError.
Proof. done. Qed.

(** [heapify] turns any list into a heap holding the same items. *)
Lemma heapify_heap heap :
  is_heap (heapify heap)
  /\ heapify heap ≡ₚ heap
  /\ length (heapify heap) = length heap.
Proof.
  unfold heapify.
  assert (Hgen : forall (k : nat) h,
             (k <= length h / 2)%nat ->
             heap_from k h ->
             heap_from 0 (foldl _siftup h (reverse (seq 0 k)))
             /\ foldl _siftup h (reverse (seq 0 k)) ≡ₚ h
             /\ length (foldl _siftup h (reverse (seq 0 k))) = length h).
  { induction k as [|k IH]; intros h Hk Hh; [done|].
    rewrite seq_S, reverse_app. simpl.
    destruct (_siftup_heap k h Hh) as (Hh' & Hperm & Hlen); [div_lia|].
    destruct (IH (_siftup h k)) as (IH1 & IH2 & IH3);
      [rewrite Hlen; lia | done |].
    split; [done|]. split; [by rewrite IH2 | by rewrite IH3]. }
  apply Hgen; [done|].
  intros c Hc Hp. div_lia.
Qed.

End Facts.

(** The built-in order on integers and on pairs of integers. *)
#[export] Instance int_lt_laws : LtLaws Z.
Proof.
  split; unfold lt, int_lt; intros; lia.
Qed.

#[export] Instance tuple_lt_laws : LtLaws (Z * Z).
Proof.
  split; unfold lt, tuple_lt.
  - intros [k e]. simpl. rewrite Z.eqb_refl. lia.
  - intros [k1 e1] [k2 e2]. simpl.
    destruct (Z.eqb_spec k1 k2), (Z.eqb_spec k2 k1); lia.
  - intros [k1 e1] [k2 e2] [k3 e3]. simpl.
    destruct (Z.eqb_spec k2 k1), (Z.eqb_spec k3 k2), (Z.eqb_spec k3 k1); lia.
Qed.

Lemma int_le (a b : Z) : le a b <-> a <= b.
Proof. unfold le, lt, int_lt. lia. Qed.

Lemma tuple_le_fst (a b : Z * Z) : le a b -> fst a <= fst b.
Proof.
  unfold le, lt, tuple_lt. destruct (Z.eqb_spec (fst b) (fst a)); lia.
Qed.

End HeapqSpec.

(** ** PriorityQueue: polling returns minima *)

Module PriorityQueueSpec.
Import Heapq HeapqSpec PriorityQueue.

Lemma key_same (q q' : PriorityQueue) (e : Z) :
  comparator_of q' = comparator_of q -> key q' e = key q e.
Proof. destruct q, q'; simpl; congruence. Qed.

Lemma add_spec (e : Z) (q : PriorityQueue) :
  inv q ->
  exists q',
    add e q = (q', Ok true)
    /\ inv q'
    /\ elements q' ≡ₚ e :: elements q
    /\ comparator_of q' = comparator_of q.
Proof.
  destruct q as [h|c h]; intros [Hh Hk]; simpl in *.
  - destruct (heappush_heap h e Hh) as (Hh' & Hperm & _).
    eexists. split; [done|]. repeat split; done.
  - destruct (heappush_heap h (c e, e) Hh) as (Hh' & Hperm & _).
    eexists. split; [done|]. split; [split; [done|]|split; [|done]].
    + rewrite Hperm. by constructor.
    + simpl. by rewrite Hperm.
Qed.

Lemma new_inv (initial : option (list Z)) (comparator : option (Z -> Z)) :
  inv (new initial comparator).
Proof.
  unfold new.
  set (q0 := match comparator with
             | Some c => Keyed c []
             | None => Natural []
             end).
  assert (Hq0 : inv q0).
  { unfold q0. destruct comparator; (split; [apply is_heap_nil | done]). }
  destruct initial as [items|]; [|done].
  revert Hq0. generalize q0. clear q0.
  induction items as [|e items IH]; intros q Hq; [done|].
  simpl. destruct (add_spec e q Hq) as (q' & Hadd & Hq' & _).
  unfold bind at 1. unfold bind at 1. rewrite Hadd. unfold ret at 1.
  by apply IH.
Qed.

Lemma isEmpty_elements (q : PriorityQueue) :
  isEmpty q = true <-> elements q = [].
Proof.
  unfold isEmpty, size, len. destruct q as [h|c h]; simpl;
    destruct h; simpl; split; (done || lia).
Qed.

Lemma poll_empty (q : PriorityQueue) :
  elements q = [] -> poll q = (q, Ok None).
Proof.
  intros He. apply isEmpty_elements in He.
  unfold poll, bind, gets. by rewrite He.
Qed.

Lemma poll_spec (q : PriorityQueue) :
  inv q ->
  elements q <> [] ->
  exists e q',
    poll q = (q', Ok (Some e))
    /\ inv q'
    /\ e ∈ elements q
    /\ (forall x, x ∈ elements q -> key q e <= key q x)
    /\ elements q ≡ₚ e :: elements q'
    /\ comparator_of q' = comparator_of q.
Proof.
  intros [Hh Hk] Hne.
  assert (Hemp : isEmpty q = false).
  { destruct (isEmpty q) eqn:He; [|done].
    by apply isEmpty_elements in He. }
  unfold poll, bind, gets. rewrite Hemp.
  destruct q as [h|c h]; simpl in *.
  - destruct (heappop_heap h Hh Hne) as (x & h' & Hpop & Hx & Hmin & Hh' & Hperm & _).
    rewrite Hpop. exists x, (Natural h'). split; [done|].
    split; [done|]. split; [|split; [|done]].
    + rewrite Hperm. by left.
    + intros y Hy. apply int_le. by apply Hmin.
  - assert (Hne' : h <> []) by (by destruct h).
    destruct (heappop_heap h Hh Hne') as (p & h' & Hpop & Hp & Hmin & Hh' & Hperm & _).
    rewrite Hpop. exists (snd p), (Keyed c h'). split; [done|].
    assert (Hk' : Forall (fun p => fst p = c (snd p)) (p :: h'))
      by (by rewrite <- Hperm).
    apply Forall_cons in Hk' as [Hkp Hk'].
    split; [done|]. split; [|split; [|split; [|done]]].
    + rewrite Hperm. simpl. by left.
    + intros y Hy. apply list_elem_of_fmap in Hy as (py & -> & Hpy).
      rewrite <- Hkp. rewrite Forall_forall in Hk.
      rewrite <- (Hk py Hpy). apply tuple_le_fst. by apply Hmin.
    + simpl. by rewrite Hperm.
Qed.

Lemma poll_inv (q : PriorityQueue) : inv q -> inv (fst (poll q)).
Proof.
  intros Hq. destruct (decide (elements q = [])) as [He|He].
  - by rewrite poll_empty.
  - destruct (poll_spec q Hq He) as (e & q' & -> & Hq' & _). done.
Qed.

Lemma exec_inv (o : op) (q : PriorityQueue) : inv q -> inv (exec o q).
Proof.
  intros Hq. destruct o as [e|e|]; simpl.
  - destruct (add_spec e q Hq) as (q' & -> & Hq' & _). done.
  - unfold offer. destruct (add_spec e q Hq) as (q' & -> & Hq' & _). done.
  - by apply poll_inv.
Qed.

Lemma run_inv (ops : list op) (q : PriorityQueue) : inv q -> inv (run ops q).
Proof.
  revert q. induction ops as [|o ops IH]; intros q Hq; [done|].
  simpl. apply IH. by apply exec_inv.
Qed.

Lemma StronglySorted_impl {B} (R R' : B -> B -> Prop) (l : list B) :
  (forall a b, R a b -> R' a b) -> StronglySorted R l -> StronglySorted R' l.
Proof.
  intros HR. induction 1 as [|a l Hs IH Hall]; constructor; [done|].
  eapply Forall_impl; [exact Hall | apply HR].
Qed.

(** Draining a queue yields its elements in non-decreasing key order. *)
Lemma drain_sorted (n : nat) :
  forall q : PriorityQueue,
    inv q ->
    length (elements q) = n ->
    exists es,
      drain n q = (fun e => Ok (Some e)) <$> es
      /\ es ≡ₚ elements q
      /\ StronglySorted (fun a b => key q a <= key q b) es.
Proof.
  induction n as [|n IH]; intros q Hq Hlen.
  - exists []. destruct (elements q); [|done]. repeat split; constructor.
  - assert (Hne : elements q <> []) by (by destruct (elements q)).
    destruct (poll_spec q Hq Hne) as (e & q' & Hpoll & Hq' & He & Hmin & Hperm & Hcmp).
    destruct (IH q' Hq') as (es & Hdrain & Hes & Hsorted).
    { apply Permutation_length in Hperm. simpl in Hperm. lia. }
    exists (e :: es). simpl. rewrite Hpoll, Hdrain. split; [done|].
    split; [by rewrite Hperm, Hes|].
    constructor.
    + eapply StronglySorted_impl; [|exact Hsorted].
      intros a b. simpl. by rewrite !(key_same q q') by done.
    + apply Forall_forall. intros x Hx. apply Hmin.
      rewrite Hperm. right. by rewrite <- Hes.
Qed.

(** A constructed queue holds the seed, in heap order, under the
    comparator it was given. *)
Lemma new_spec (initial : option (list Z)) (comparator : option (Z -> Z)) :
  inv (new initial comparator)
  /\ elements (new initial comparator) ≡ₚ default [] initial
  /\ comparator_of (new initial comparator) = comparator.
Proof.
  unfold new.
  set (q0 := match comparator with
             | Some c => Keyed c []
             | None => Natural []
             end).
  assert (Hq0 : inv q0 /\ elements q0 ≡ₚ [] /\ comparator_of q0 = comparator).
  { unfold q0. destruct comparator; (split; [split; [apply is_heap_nil | done]|done]). }
  destruct initial as [items|]; [|done]. simpl default.
  assert (Hgen : forall (items acc : list Z) (q : PriorityQueue),
             inv q -> elements q ≡ₚ acc -> comparator_of q = comparator ->
             let q' := fst (for_each items (fun item _ => add item ;;; ret tt)
                              tt q) in
             inv q' /\ elements q' ≡ₚ items ++ acc
             /\ comparator_of q' = comparator).
  { clear. induction items as [|e items IH]; intros acc q Hq Hel Hc; [done|].
    destruct (add_spec e q Hq) as (q' & Hadd & Hq' & Hel' & Hc').
    assert (Heq : for_each (e :: items) (fun item _ => add item ;;; ret tt)
                    tt q
                  = for_each items (fun item _ => add item ;;; ret tt) tt q').
    { simpl. unfold bind at 1. unfold bind at 1. by rewrite Hadd. }
    cbv zeta. rewrite Heq.
    destruct (IH (e :: acc) q' Hq') as (H1 & H2 & H3);
      [by rewrite Hel', Hel | congruence |].
    split; [done|]. split; [|done].
    rewrite H2. simpl. by rewrite <- Permutation_middle. }
  destruct Hq0 as (H1 & H2 & H3).
  destruct (Hgen items [] q0 H1 H2 H3) as (H4 & H5 & H6).
  split; [done|]. split; [|done]. by rewrite H5, app_nil_r.
Qed.

Lemma size_len_elements (q : PriorityQueue) : size q = len (elements q).
Proof. destruct q; unfold size, len; simpl; by rewrite ?length_fmap. Qed.

(** A queue in heap order that holds [held] under the key [k] does what
    [follows] asks, whatever calls come. *)
Lemma follows_from_inv (k : Z -> Z) (ops : list op) :
  forall (held : list Z) (q : PriorityQueue),
    inv q ->
    elements q ≡ₚ held ->
    (forall e, key q e = k e) ->
    follows k held ops q.
Proof.
  induction ops as [|o ops IH]; intros held q Hq Hel Hk.
  - simpl. split; [done|]. split.
    + rewrite size_len_elements. unfold len. by rewrite Hel.
    + destruct (drain_sorted (length held) q Hq) as (es & Hd & Hes & Hs);
        [by rewrite Hel|].
      exists es. split; [done|]. split; [by rewrite Hes|].
      eapply StronglySorted_impl; [|exact Hs].
      intros a b. simpl. by rewrite !Hk.
  - destruct o as [e|e|].
    + simpl. destruct (add_spec e q Hq) as (q' & Hadd & Hq' & Hel' & Hc').
      rewrite Hadd. split; [done|]. apply IH; [done| |].
      * simpl. by rewrite Hel', Hel.
      * intros x. simpl. by rewrite (key_same q q').
    + simpl. unfold offer.
      destruct (add_spec e q Hq) as (q' & Hadd & Hq' & Hel' & Hc').
      rewrite Hadd. split; [done|]. apply IH; [done| |].
      * simpl. by rewrite Hel', Hel.
      * intros x. simpl. by rewrite (key_same q q').
    + simpl. destruct held as [|h held].
      * apply Permutation_nil_r in Hel.
        split; [by apply poll_empty|]. apply IH; [done | by rewrite Hel | done].
      * assert (Hne : elements q <> []).
        { intros He. rewrite He in Hel. by apply Permutation_nil_cons in Hel. }
        destruct (poll_spec q Hq Hne)
          as (e & q' & Hpoll & Hq' & He & Hmin & Hperm & Hc').
        exists e, (elements q'). rewrite Hpoll. split; [done|].
        split; [by rewrite <- Hel, Hperm|]. split.
        -- intros x Hx. rewrite <- !Hk. apply Hmin. by rewrite Hel.
        -- apply IH; [done | done |].
           intros x. simpl. by rewrite (key_same q q').
Qed.

(** C5. Take a queue constructed with or without a comparator and with or
    without a seed, any sequence of [add], [offer] and [poll()] calls on
    it, and a bystander who writes down the seed and every pushed element
    and strikes out every element a [poll()] returns.  Then every push
    returns [True]; every [poll()] returns [None] when nothing is written
    down and otherwise a written-down element whose key (the comparator's
    value, or the element itself without a comparator) is minimal among
    them; and after the last call the queue holds exactly what is written
    down, and as many [poll()] calls as that has entries return all of
    them in non-decreasing key order. *)
Theorem poll_returns_minimum (initial : option (list Z))
  (comparator : option (Z -> Z)) (ops : list op) :
  follows (key_of comparator) (default [] initial) ops
    (new initial comparator).
Proof.
  destruct (new_spec initial comparator) as (Hinv & Hel & Hc).
  apply follows_from_inv; [done | done |].
  intros e. destruct (new initial comparator), comparator; simpl in *;
    congruence.
Qed.

(** C1. With a comparator, [remove(o)] does not find a held element: in
    the queue built with the identity comparator and holding 5, [peek()]
    returns 5 yet [remove(5)] returns [False], leaves the queue as it was
    and [contains(5)] is [False]. *)
Theorem remove_misses_keyed_element :
  let q := fst (add 5 (new None (Some (fun x => x)))) in
  elements q = [5]
  /\ peek q = (q, Ok (Some 5))
  /\ remove (Int 5) q = (q, Ok false)
  /\ contains (Int 5) q = false.
Proof. vm_compute. repeat split. Qed.

End PriorityQueueSpec.

(** ** Construction from a capacity, and access to empty containers *)

Module Boundary.
Import Heapq HeapqSpec.

(** C4. [Vector(n)] is empty for every [n]: size 0, [isEmpty()] true,
    nothing in [toArray()] and every [get] raises.  [ArrayDeque(n)] is not:
    it holds [n] items [None], so for [n = 3] its size is 3, it is not
    empty and [pollFirst()] takes one of the three [None]s out. *)
Theorem capacity_constructor_contents (n : Z) :
  (Vector.size (Vector.new_capacity n) = 0
   /\ Vector.isEmpty (Vector.new_capacity n) = true
   /\ Vector.toArray (Vector.new_capacity n) = []
   /\ forall i, Vector.get i (Vector.new_capacity n)
                = (Vector.new_capacity n, Raise IndexError))
  /\ (exists q,
        ArrayDeque.new (ArrayDeque.InitInt n) = Ok q
        /\ ArrayDeque.size q = Z.max 0 n
        /\ ArrayDeque.isEmpty q = (n <=? 0)
        /\ ArrayDeque.toArray q = replicate (Z.to_nat n) None)
  /\ (exists q q',
        ArrayDeque.new (ArrayDeque.InitInt 3) = Ok q
        /\ ArrayDeque.size q = 3
        /\ ArrayDeque.isEmpty q = false
        /\ ArrayDeque.pollFirst q = (q', Ok None)
        /\ ArrayDeque.size q' = 2).
Proof.
  split; [|split].
  - repeat split.
    intros i. apply VectorSpec.get_out. simpl. lia.
  - eexists. split; [reflexivity|].
    unfold ArrayDeque.size, ArrayDeque.isEmpty, ArrayDeque.toArray.
    cbn [ArrayDeque._deque]. rewrite len_repeat.
    split; [done|]. split; [|done].
    destruct (Z.leb_spec n 0), (Z.eqb_spec (Z.max 0 n) 0); lia.
  - do 2 eexists. vm_compute. repeat split.
Qed.

(** C9. On empty containers the throwing accessors raise [IndexError]
    (the library's empty-collection error) and change nothing, while the
    non-throwing ones return [None] and change nothing. *)
Theorem empty_container_accessors (s : Vector.Vector)
  (d : ArrayDeque.ArrayDeque) (q : PriorityQueue.PriorityQueue) :
  Vector.elementCount s = 0 ->
  ArrayDeque._deque d = [] ->
  PriorityQueue.size q = 0 ->
  (Stack.peek s = (s, Raise IndexError)
   /\ Stack.pop s = (s, Raise IndexError))
  /\ (ArrayDeque.element d = (d, Raise IndexError)
      /\ ArrayDeque.getFirst d = (d, Raise IndexError)
      /\ ArrayDeque.getLast d = (d, Raise IndexError)
      /\ ArrayDeque.peekFirst d = (d, Ok None)
      /\ ArrayDeque.peekLast d = (d, Ok None)
      /\ ArrayDeque.peek d = (d, Ok None)
      /\ ArrayDeque.poll d = (d, Ok None)
      /\ ArrayDeque.pollFirst d = (d, Ok None)
      /\ ArrayDeque.pollLast d = (d, Ok None))
  /\ (PriorityQueue.element q = (q, Raise IndexError)
      /\ PriorityQueue.peek q = (q, Ok None)
      /\ PriorityQueue.poll q = (q, Ok None)).
Proof.
  intros Hs Hd Hq. split; [|split].
  - unfold Stack.peek, Stack.pop, Stack.empty, bind, gets. by rewrite Hs.
  - unfold ArrayDeque.element, ArrayDeque.peek, ArrayDeque.poll,
      ArrayDeque.getFirst, ArrayDeque.getLast, ArrayDeque.peekFirst,
      ArrayDeque.peekLast, ArrayDeque.pollFirst, ArrayDeque.pollLast,
      bind, gets.
    by rewrite Hd.
  - unfold PriorityQueue.element, PriorityQueue.peek, PriorityQueue.poll,
      PriorityQueue.isEmpty, bind, gets.
    by rewrite Hq.
Qed.

End Boundary.

(** ** The theorems with preconditions, applied to concrete containers *)

Module Witness.
Import Vector VectorSpec.

Lemma add_at_index_shift_witness :
  wf v123
  /\ exists self',
       add_at 1 (Some 9) v123 = (self', Ok tt)
       /\ elementCount self' = 4
       /\ get 1 self' = (self', Ok (Some 9)).
Proof.
  assert (Hwf : wf v123) by (unfold wf; vm_compute; split; discriminate).
  split; [exact Hwf|].
  destruct (add_at_index_shift v123 1 (Some 9) Hwf) as [Hin _].
  destruct Hin as (self' & Hrun & _ & Hcount & Hget & _);
    [vm_compute; split; discriminate|].
  exists self'. split; [exact Hrun|]. split; [exact Hcount | exact Hget].
Defined.

Lemma ensureCapacity_growth_policy_witness :
  wf v123
  /\ exists self',
       ensureCapacity 12 v123 = (self', Ok tt)
       /\ elementCount self' = 3
       /\ toArray self' = toArray v123.
Proof.
  assert (Hwf : wf v123) by (unfold wf; vm_compute; split; discriminate).
  split; [exact Hwf|].
  destruct (ensureCapacity_growth_policy v123 12 Hwf) as [Hrun _].
  destruct Hrun as (self' & Hrun & _ & _ & _ & _ & Hcount & _ & Harr & _).
  exists self'. split; [exact Hrun|]. split; [exact Hcount | exact Harr].
Defined.

Lemma setElementAt_extends_witness :
  wf v123 /\ 0 <= 12 /\ size v123 <= 12
  /\ exists self',
       setElementAt (Some 7) 12 v123 = (self', Ok tt)
       /\ size self' = 12 + 1
       /\ get 12 self' = (self', Ok (Some 7)).
Proof.
  assert (Hwf : wf v123) by (unfold wf; vm_compute; split; discriminate).
  assert (H0 : 0 <= 12) by discriminate.
  assert (Hsz : size v123 <= 12) by (vm_compute; discriminate).
  split; [exact Hwf|]. split; [exact H0|]. split; [exact Hsz|].
  destruct (setElementAt_extends v123 (Some 7) 12 Hwf H0 Hsz)
    as (self' & Hrun & _ & _ & Hsize & Hget & _).
  exists self'. split; [exact Hrun|]. split; [exact Hsize | exact Hget].
Defined.

Lemma empty_container_accessors_witness :
  elementCount Stack.new = 0
  /\ ArrayDeque._deque (ArrayDeque.mkArrayDeque [] None) = []
  /\ PriorityQueue.size (PriorityQueue.Natural []) = 0
  /\ Stack.pop Stack.new = (Stack.new, Raise IndexError)
  /\ ArrayDeque.pollLast (ArrayDeque.mkArrayDeque [] None)
     = (ArrayDeque.mkArrayDeque [] None, Ok None)
  /\ PriorityQueue.element (PriorityQueue.Natural [])
     = (PriorityQueue.Natural [], Raise IndexError).
Proof.
  split; [reflexivity|]. split; [reflexivity|]. split; [reflexivity|].
  destruct (Boundary.empty_container_accessors Stack.new
              (ArrayDeque.mkArrayDeque [] None) (PriorityQueue.Natural [])
              eq_refl eq_refl eq_refl)
    as ((_ & Hpop) & Hd & (Hel & _)).
  split; [exact Hpop|]. split; [|exact Hel].
  destruct Hd as (_ & _ & _ & _ & _ & _ & _ & _ & Hpl). exact Hpl.
Defined.

End Witness.

(** ** Vector: removal, appending and the contents seen through [toArray] *)

Module VectorMore.
Import Vector VectorSpec.

Lemma toArray_lookup (self : Vector) (j : nat) :
  wf self ->
  toArray self !! j =
    if decide (Z.of_nat j < elementCount self) then elementData self !! j
    else None.
Proof.
  intros [Hn Hc]. unfold toArray. rewrite slice_to_take by done.
  destruct (decide _).
  - apply lookup_take_lt. lia.
  - apply lookup_take_ge. lia.
Qed.

Lemma toArray_length (self : Vector) :
  wf self -> length (toArray self) = Z.to_nat (elementCount self).
Proof.
  intros [Hn Hc]. unfold toArray, capacity, len in *.
  rewrite slice_to_take by done. rewrite length_take. lia.
Qed.

(** The shifting loop of [__removeAt__]: slots [index .. index+k-1] receive
    the former contents of [index+1 .. index+k]. *)
Lemma shift_left_loop (k : nat) :
  forall (self : Vector) (index : Z),
    0 <= index ->
    index + Z.of_nat k < capacity self ->
    exists d,
      for_each (range index (index + Z.of_nat k))
        (fun i _ => x <- read_data (i + 1) ;; write_data i x) tt self
      = (set_elementData d self, Ok tt)
      /\ length d = length (elementData self)
      /\ forall j : nat,
           d !! j = if decide (index <= Z.of_nat j < index + Z.of_nat k)
                    then elementData self !! (j + 1)%nat
                    else elementData self !! j.
Proof.
  induction k as [|k IH]; intros self index Hi Hc.
  - rewrite range_nil by lia. exists (elementData self).
    split; [by destruct self|]. split; [done|].
    intros j. destruct (decide _); [lia | done].
  - rewrite range_cons by lia. simpl for_each.
    unfold capacity, len in Hc.
    destruct (lookup_lt_is_Some_2 (elementData self) (Z.to_nat (index + 1)))
      as [y Hy]; [lia|].
    set (self1 := set_elementData (<[Z.to_nat index := y]> (elementData self))
                    self).
    destruct (IH self1 (index + 1)) as (d & Heq & Hlen & Hd); [lia | |].
    { unfold self1, capacity, len. simpl. rewrite length_insert. lia. }
    exists d. split; [|split].
    + unfold bind at 1. unfold bind at 1. unfold read_data at 1.
      rewrite (getitem_nonneg _ _ y) by (done || lia).
      unfold write_data at 1.
      rewrite setitem_nonneg by (unfold len; lia).
      fold self1.
      replace (index + Z.of_nat (S k)) with (index + 1 + Z.of_nat k) by lia.
      rewrite Heq. by destruct self.
    + rewrite Hlen. unfold self1. simpl. apply length_insert.
    + intros j. rewrite Hd. unfold self1. simpl.
      destruct (decide (index + 1 <= Z.of_nat j < index + 1 + Z.of_nat k)),
        (decide (index <= Z.of_nat j < index + Z.of_nat (S k))); try lia.
      * rewrite list_lookup_insert_ne by lia. done.
      * destruct (decide (Z.of_nat j = index)) as [Hji|Hji]; [|lia].
        replace (Z.to_nat index) with j by lia.
        rewrite list_lookup_insert_eq by lia.
        rewrite <- Hy. f_equal. lia.
      * rewrite list_lookup_insert_ne by lia. done.
Qed.

(** Closed form of [__removeAt__] on a well-formed vector. *)
Lemma removeAt_eq (self : Vector) (i : Z) :
  wf self ->
  0 <= i < elementCount self ->
  exists d x,
    removeAt i self
    = (mkVector (capacityIncrement self) d (elementCount self - 1), Ok x)
    /\ elementData self !! Z.to_nat i = Some x
    /\ length d = length (elementData self)
    /\ forall j : nat,
         d !! j =
           if decide (Z.of_nat j < i) then elementData self !! j
           else if decide (Z.of_nat j < elementCount self - 1)
                then elementData self !! (j + 1)%nat
                else if decide (Z.of_nat j = elementCount self - 1)
                     then Some None
                     else elementData self !! j.
Proof.
  intros Hwf Hi. pose proof Hwf as [Hn Hc]. unfold capacity, len in Hc.
  destruct (lookup_lt_is_Some_2 (elementData self) (Z.to_nat i)) as [x Hx];
    [lia|].
  destruct (shift_left_loop (Z.to_nat (elementCount self - 1 - i)) self i)
    as (d1 & Heq1 & Hlen1 & Hd1); [lia | unfold capacity, len; lia |].
  rewrite Z2Nat.id in Heq1, Hd1 by lia.
  replace (i + (elementCount self - 1 - i)) with (elementCount self - 1)
    in Heq1, Hd1 by lia.
  exists (<[Z.to_nat (elementCount self - 1) := None]> d1), x.
  split; [|split; [done|split]].
  - unfold removeAt, bind at 1, gets at 1.
    destruct (Z.ltb_spec i 0), (Z.geb_spec i (elementCount self)); try lia.
    simpl. unfold bind at 1, read_data at 1.
    rewrite (getitem_nonneg _ _ x) by (done || lia).
    unfold bind at 1. rewrite Heq1.
    unfold bind at 1, gets at 1. unfold bind at 1, write_data at 1. simpl.
    rewrite setitem_nonneg by (unfold len; lia). done.
  - by rewrite length_insert.
  - intros j. unfold value in *.
    destruct (decide (Z.of_nat j = elementCount self - 1)) as [Hj|Hj].
    + replace (Z.to_nat (elementCount self - 1)) with j by lia.
      rewrite list_lookup_insert_eq by lia.
      destruct (decide _); [lia|]. destruct (decide _); [lia | done].
    + rewrite list_lookup_insert_ne by lia. rewrite Hd1.
      destruct (decide (Z.of_nat j < i)), (decide (i <= Z.of_nat j < _)),
        (decide (Z.of_nat j < elementCount self - 1)); try lia; done.
Qed.

(** X1. [__removeAt__(i)] (reached by [remove(int)] and [removeElementAt])
    at a valid index returns the element [get(i)] would return, shrinks the
    size by one, keeps the capacity, deletes exactly position [i] from the
    contents and clears the vacated last slot; at an invalid index it
    raises [IndexError] and changes nothing. *)
Theorem removeAt_deletes (self : Vector) (i : Z) :
  wf self ->
  (0 <= i < size self ->
   exists self' x,
     removeAt i self = (self', Ok x)
     /\ get i self = (self, Ok x)
     /\ wf self'
     /\ size self' = size self - 1
     /\ capacity self' = capacity self
     /\ toArray self' = delete (Z.to_nat i) (toArray self)
     /\ elementData self' !! Z.to_nat (size self - 1) = Some None)
  /\ (i < 0 \/ size self <= i -> removeAt i self = (self, Raise IndexError)).
Proof.
  unfold size. intros Hwf. pose proof Hwf as [Hn Hc]. split.
  - intros Hi.
    destruct (removeAt_eq self i Hwf Hi) as (d & x & Heq & Hx & Hlen & Hd).
    assert (Hwf' : wf (mkVector (capacityIncrement self) d
                         (elementCount self - 1))).
    { unfold wf, capacity, len in *. simpl. lia. }
    eexists _, x. split; [exact Heq|]. split; [by apply get_eq|].
    split; [done|]. split; [done|].
    split; [unfold capacity, len; simpl; by rewrite Hlen|]. split.
    + apply list_eq. intros j. rewrite toArray_lookup by done. simpl.
      destruct (decide (j < Z.to_nat i)%nat).
      * rewrite list_lookup_delete_lt by done. rewrite toArray_lookup by done.
        destruct (decide _); [|lia]. destruct (decide _); [|lia].
        rewrite Hd. destruct (decide _); [done | lia].
      * rewrite list_lookup_delete_ge by lia. rewrite toArray_lookup by done.
        destruct (decide (Z.of_nat j < elementCount self - 1)).
        -- destruct (decide _); [|lia]. rewrite Hd.
           destruct (decide _); [lia|]. destruct (decide _); [|lia].
           f_equal. lia.
        -- destruct (decide _); [lia | done].
    + simpl. rewrite Hd. destruct (decide _); [lia|].
      destruct (decide _); [lia|]. destruct (decide _); [done | lia].
  - intros Hi. unfold removeAt, bind, gets.
    destruct (Z.ltb_spec i 0), (Z.geb_spec i (elementCount self));
      try lia; done.
Qed.

(** Writing [x] into the first free slot and counting it appends [x]. *)
Lemma toArray_write_next (self : Vector) (d : list value) (x : value) :
  wf self ->
  elementCount self < len d ->
  (forall j : nat, Z.of_nat j < elementCount self ->
                   d !! j = elementData self !! j) ->
  toArray (mkVector (capacityIncrement self)
             (<[Z.to_nat (elementCount self) := x]> d)
             (elementCount self + 1))
  = toArray self ++ [x].
Proof.
  intros Hwf Hlen Hpre. pose proof Hwf as [Hn Hc]. unfold len in Hlen.
  assert (Hwf' : wf (mkVector (capacityIncrement self)
                       (<[Z.to_nat (elementCount self) := x]> d)
                       (elementCount self + 1))).
  { unfold wf, capacity, len. simpl. rewrite length_insert. lia. }
  apply list_eq. intros j. rewrite toArray_lookup by done. simpl.
  destruct (decide (Z.of_nat j < elementCount self)) as [Hj|Hj].
  - destruct (decide _); [|lia]. rewrite list_lookup_insert_ne by lia.
    rewrite lookup_app_l by (rewrite toArray_length by done; lia).
    rewrite toArray_lookup by done. destruct (decide _); [|lia]. by apply Hpre.
  - rewrite lookup_app_r by (rewrite toArray_length by done; lia).
    rewrite toArray_length by done.
    destruct (decide (Z.of_nat j = elementCount self)) as [Hje|Hje].
    + destruct (decide _); [|lia].
      replace (Z.to_nat (elementCount self)) with j by lia.
      rewrite list_lookup_insert_eq by lia.
      by replace (j - j)%nat with 0%nat by lia.
    + destruct (decide _); [lia|].
      destruct (j - Z.to_nat (elementCount self))%nat eqn:Hk; [lia | done].
Qed.

(** X3. [add(e)] on a well-formed vector never raises, returns [True] and
    appends [e] to the contents. *)
Theorem add_appends (self : Vector) (e : value) :
  wf self ->
  exists self',
    add e self = (self', Ok true)
    /\ wf self'
    /\ size self' = size self + 1
    /\ toArray self' = toArray self ++ [e].
Proof.
  intros Hwf. pose proof Hwf as [Hn Hc].
  destruct (add_eq self e Hwf) as (d0 & _ & Hlen0 & Hpre0 & Hadd).
  eexists. split; [exact Hadd|]. split; [|split; [done|]].
  - unfold wf, capacity, len in *. simpl. rewrite length_insert. lia.
  - apply toArray_write_next; [done | lia | done].
Qed.

(** X4. [addElement(obj)] appends like [add] when the vector has room or
    can grow, but on a vector of capacity zero whose increment is not
    positive it raises [IndexError] and changes nothing: the requested
    capacity [0 + 0] asks for no growth.  A [Stack] trimmed while empty
    therefore rejects [push]. *)
Theorem addElement_zero_capacity (self : Vector) (obj : value) :
  wf self ->
  (0 < capacity self \/ 0 < capacityIncrement self ->
   exists self',
     addElement obj self = (self', Ok tt)
     /\ wf self'
     /\ toArray self' = toArray self ++ [obj])
  /\ (capacity self = 0 -> capacityIncrement self <= 0 ->
      addElement obj self = (self, Raise IndexError))
  /\ Stack.push obj (fst (trimToSize Stack.new))
     = (fst (trimToSize Stack.new), Raise IndexError).
Proof.
  intros Hwf. pose proof Hwf as [Hn Hc]. split; [|split].
  - intros Hroom. unfold addElement, bind at 1, gets at 1.
    unfold bind at 1, gets at 1. unfold bind at 1.
    destruct (Z.eqb_spec (elementCount self) (capacity self)) as [Hfull|Hfree].
    + set (m := capacity self
                + (if capacityIncrement self >? 0 then capacityIncrement self
                   else capacity self)).
      assert (Hm : capacity self < m).
      { unfold m. destruct (Z.gtb_spec (capacityIncrement self) 0); lia. }
      unfold bind at 1, gets at 1. fold m.
      rewrite ensureCapacity_grow by done.
      unfold bind at 1, gets at 1. unfold bind at 1, write_data at 1.
      cbn [set_elementData elementCount elementData capacityIncrement].
      pose proof (grown_data_len self m Hwf Hm) as Hlen.
      pose proof (grown_capacity_ge self m) as Hge.
      rewrite setitem_nonneg by lia.
      exists (mkVector (capacityIncrement self)
                (<[Z.to_nat (elementCount self) := obj]> (grown_data self m))
                (elementCount self + 1)).
      split; [reflexivity|]. split.
      * unfold wf, capacity, len in *. simpl. rewrite length_insert. lia.
      * apply toArray_write_next; [done | lia |].
        intros j Hj. by apply grown_data_lookup.
    + unfold ret at 1. unfold bind at 1, gets at 1.
      unfold bind at 1, write_data at 1.
      rewrite setitem_nonneg by (unfold capacity in *; lia).
      exists (mkVector (capacityIncrement self)
                (<[Z.to_nat (elementCount self) := obj]> (elementData self))
                (elementCount self + 1)).
      split; [reflexivity|]. split.
      * unfold wf, capacity, len in *. simpl. rewrite length_insert. lia.
      * apply toArray_write_next; [done | unfold capacity in *; lia | done].
  - intros Hcap Hk. unfold addElement, bind at 1, gets at 1.
    unfold bind at 1, gets at 1. unfold bind at 1.
    assert (elementCount self = 0) as Hcount by lia.
    rewrite Hcount, Hcap. simpl.
    unfold bind at 1, gets at 1.
    destruct (Z.gtb_spec (capacityIncrement self) 0); [lia|].
    rewrite ensureCapacity_keep by lia.
    unfold bind at 1, gets at 1. unfold bind at 1, write_data at 1.
    rewrite Hcount. rewrite setitem_out by (unfold capacity in Hcap; lia).
    done.
  - reflexivity.
Qed.

(** The loop of [addAll(collection)]. *)
Lemma addAll_loop (c : list value) :
  forall self : Vector,
    wf self ->
    elementCount self + len c <= capacity self ->
    exists self',
      for_each c
        (fun element _ =>
           n <- gets elementCount ;;
           write_data n element ;;;
           modify (set_elementCount (n + 1))) tt self
      = (self', Ok tt)
      /\ wf self'
      /\ capacity self' = capacity self
      /\ elementCount self' = elementCount self + len c
      /\ toArray self' = toArray self ++ c.
Proof.
  induction c as [|x c IH]; intros self Hwf Hroom.
  - exists self. simpl. rewrite app_nil_r. unfold len. simpl.
    split; [done|]. split; [done|]. split; [done|]. split; [lia | done].
  - pose proof Hwf as [Hn Hc]. unfold len in Hroom. simpl in Hroom.
    set (self1 := mkVector (capacityIncrement self)
                    (<[Z.to_nat (elementCount self) := x]> (elementData self))
                    (elementCount self + 1)).
    assert (Hwf1 : wf self1).
    { unfold self1, wf, capacity, len in *. simpl. rewrite length_insert. lia. }
    destruct (IH self1 Hwf1) as (self' & Heq & Hwf' & Hcap' & Hcount' & Harr').
    { unfold self1, capacity, len in *. simpl. rewrite length_insert. lia. }
    exists self'. split; [|split; [done|split; [|split]]].
    + simpl. unfold bind at 1. unfold bind at 1, gets at 1.
      unfold bind at 1, write_data at 1.
      rewrite setitem_nonneg by (unfold capacity, len in *; lia).
      unfold modify at 1. exact Heq.
    + rewrite Hcap'. unfold self1, capacity, len. simpl.
      by rewrite length_insert.
    + rewrite Hcount'. unfold self1, len. simpl. lia.
    + rewrite Harr'. unfold self1.
      rewrite toArray_write_next by (done || unfold capacity in *; lia).
      by rewrite <- app_assoc.
Qed.

(** [addAll] of an iterable that is not a [Collection]: the conversion
    and [len] succeed. *)
Lemma addAll_Iterable (c : list value) (self : Vector) :
  addAll (Iterable c) self
  = (if len c =? 0 then ret false
     else
       n <- gets elementCount ;;
       ensureCapacity (n + len c) ;;;
       for_each c
         (fun element _ =>
            n <- gets elementCount ;;
            write_data n element ;;;
            modify (set_elementCount (n + 1))) tt ;;;
       ret true) self.
Proof. reflexivity. Qed.

(** X5. [addAll(collection)] with an iterable that is not a [Collection]
    of the library (a list, a tuple, a generator) returns [False] and
    changes nothing when the iterable yields nothing; otherwise it never
    raises on a well-formed vector, returns [True] and appends the items in
    iteration order.  With a [Collection] of the library (none of them
    defines [__len__]) or with an object that cannot be iterated it raises
    [TypeError] and changes nothing. *)
Theorem addAll_appends (self : Vector) (c : list value) :
  wf self ->
  (c = [] -> addAll (Iterable c) self = (self, Ok false))
  /\ (c <> [] ->
      exists self',
        addAll (Iterable c) self = (self', Ok true)
        /\ wf self'
        /\ size self' = size self + len c
        /\ toArray self' = toArray self ++ c)
  /\ addAll (Collection c) self = (self, Raise TypeError)
  /\ addAll NotIterable self = (self, Raise TypeError).
Proof.
  intros Hwf. split; [by intros ->|]. split; [|done]. intros Hne.
  destruct (ensureCapacity_spec self (elementCount self + len c) Hwf)
    as (d0 & Heq0 & Hlen0 & Hpre0).
  set (self0 := set_elementData d0 self) in *.
  assert (Hlen0' : elementCount self + len c <= len d0 /\ capacity self <= len d0).
  { rewrite Hlen0. destruct (Z.gtb_spec (elementCount self + len c) (capacity self)).
    - pose proof (grown_capacity_ge self (elementCount self + len c)).
      pose proof (grown_capacity_gt self (elementCount self + len c)). lia.
    - lia. }
  assert (Hwf0 : wf self0).
  { destruct Hwf. unfold self0, wf, capacity in *. simpl. lia. }
  destruct (addAll_loop c self0 Hwf0) as (self' & Heq & Hwf' & _ & Hcount' & Harr');
    [unfold self0, capacity; simpl; lia|].
  exists self'. split; [|split; [done|split]].
  - rewrite addAll_Iterable. destruct (Z.eqb_spec (len c) 0) as [Hz|_].
    { destruct c; [done | unfold len in Hz; simpl in Hz; lia]. }
    unfold bind at 1, gets at 1. unfold bind at 1. rewrite Heq0.
    fold self0. unfold bind at 1. rewrite Heq. done.
  - unfold size. rewrite Hcount'. done.
  - rewrite Harr'. f_equal. apply toArray_ext; done.
Qed.

(** The contents after [add(index, element)]. *)
Lemma add_at_toArray (self : Vector) (i : Z) (e : value) :
  wf self ->
  0 <= i <= elementCount self ->
  exists self',
    add_at i e self = (self', Ok tt)
    /\ wf self'
    /\ elementCount self' = elementCount self + 1
    /\ toArray self'
       = take (Z.to_nat i) (toArray self) ++ e :: drop (Z.to_nat i) (toArray self).
Proof.
  intros Hwf Hi. pose proof Hwf as [Hn Hc].
  destruct (add_at_eq self i e Hwf Hi) as (d & Heq & Hlen & Hd).
  assert (Hwf' : wf (mkVector (capacityIncrement self) d
                       (elementCount self + 1))).
  { unfold wf, capacity. simpl. lia. }
  eexists. split; [exact Heq|]. split; [done|]. split; [done|].
  pose proof (toArray_length self Hwf) as HlenA.
  apply list_eq. intros j. rewrite toArray_lookup by done. simpl.
  destruct (decide (j < Z.to_nat i)%nat) as [Hj|Hj].
  - rewrite lookup_app_l by (rewrite length_take; lia).
    rewrite lookup_take_lt by done. rewrite toArray_lookup by done.
    destruct (decide _); [|lia]. destruct (decide _); [|lia].
    rewrite Hd. destruct (decide _); [lia|]. destruct (decide _); [lia|].
    destruct (decide _); [done | lia].
  - rewrite lookup_app_r by (rewrite length_take; lia).
    rewrite length_take, HlenA.
    replace (Z.to_nat i `min` Z.to_nat (elementCount self))%nat
      with (Z.to_nat i) by lia.
    destruct (decide (j = Z.to_nat i)) as [->|Hji].
    + replace (Z.to_nat i - Z.to_nat i)%nat with 0%nat by lia. simpl.
      destruct (decide _); [|lia]. rewrite Hd.
      destruct (decide _); [done | lia].
    + destruct (j - Z.to_nat i)%nat as [|k] eqn:Hk; [lia|]. simpl.
      rewrite lookup_drop. rewrite toArray_lookup by done.
      replace (Z.to_nat i + k)%nat with (j - 1)%nat by lia.
      destruct (decide (Z.of_nat j < elementCount self + 1)).
      * destruct (decide _); [|lia]. rewrite Hd.
        destruct (decide _); [lia|]. destruct (decide _); [done | lia].
      * destruct (decide _); [lia | done].
Qed.

(** X2. Removing the element at a valid index and inserting it back at the
    same index restores the contents and the size. *)
Theorem remove_then_insert_restores (self : Vector) (i : Z) :
  wf self ->
  0 <= i < size self ->
  exists x s1 s2,
    removeAt i self = (s1, Ok x)
    /\ add_at i x s1 = (s2, Ok tt)
    /\ size s2 = size self
    /\ toArray s2 = toArray self.
Proof.
  unfold size. intros Hwf Hi.
  destruct (removeAt_deletes self i Hwf) as [Hrem _].
  destruct (Hrem Hi) as (s1 & x & Hr & Hget & Hwf1 & Hsz1 & _ & Harr1 & _).
  unfold size in *.
  destruct (add_at_toArray s1 i x Hwf1) as (s2 & Ha & _ & Hsz2 & Harr2); [lia|].
  exists x, s1, s2. split; [done|]. split; [done|]. split; [lia|].
  rewrite Harr2, Harr1.
  assert (Hx : toArray self !! Z.to_nat i = Some x).
  { rewrite toArray_lookup by done. destruct (decide _); [|lia].
    destruct (get_defined self i Hwf Hi) as (y & Hy & Hgy).
    rewrite Hgy in Hget. by injection Hget as <-. }
  rewrite delete_take_drop.
  rewrite take_app_le by (rewrite length_take; apply lookup_lt_Some in Hx; lia).
  rewrite take_take, Nat.min_id.
  rewrite drop_app_length' by (rewrite length_take; apply lookup_lt_Some in Hx; lia).
  by apply take_drop_middle.
Qed.

(** X6. [set(index, element)] at a valid index returns the previous
    element, replaces exactly that position and keeps the size; at an
    invalid index it raises [IndexError] and changes nothing. *)
Theorem set_replaces (self : Vector) (i : Z) (e : value) :
  wf self ->
  (0 <= i < size self ->
   exists self' old,
     set i e self = (self', Ok old)
     /\ get i self = (self, Ok old)
     /\ size self' = size self
     /\ toArray self' = <[Z.to_nat i := e]> (toArray self))
  /\ (i < 0 \/ size self <= i -> set i e self = (self, Raise IndexError)).
Proof.
  unfold size. intros Hwf. pose proof Hwf as [Hn Hc]. split.
  - intros Hi. destruct (get_defined self i Hwf Hi) as (old & Hold & Hget).
    exists (set_elementData (<[Z.to_nat i := e]> (elementData self)) self), old.
    split; [|split; [done|split; [done|]]].
    + unfold set, bind at 1, gets at 1.
      destruct (Z.ltb_spec i 0), (Z.geb_spec i (elementCount self)); try lia.
      simpl. unfold bind at 1, read_data at 1.
      rewrite (getitem_nonneg _ _ old) by (done || lia).
      unfold bind at 1, write_data at 1.
      rewrite setitem_nonneg by (unfold capacity in *; lia). done.
    + unfold toArray. simpl. rewrite !slice_to_take by done.
      rewrite take_insert_lt by lia. done.
  - intros Hi. unfold set, bind, gets.
    destruct (Z.ltb_spec i 0), (Z.geb_spec i (elementCount self));
      try lia; done.
Qed.

(** X7. [trimToSize()] never raises, makes the capacity equal to the size
    and keeps the size and the contents. *)
Theorem trimToSize_exact (self : Vector) :
  wf self ->
  exists self',
    trimToSize self = (self', Ok tt)
    /\ wf self'
    /\ capacity self' = size self
    /\ size self' = size self
    /\ toArray self' = toArray self.
Proof.
  unfold size. intros Hwf. pose proof Hwf as [Hn Hc].
  unfold trimToSize, bind, gets.
  destruct (Z.gtb_spec (capacity self) (elementCount self)).
  - eexists. split; [reflexivity|]. unfold modify. simpl.
    assert (Hlen : len (slice_to (elementData self) (elementCount self))
                   = elementCount self).
    { rewrite slice_to_take by done. unfold capacity, len in *.
      rewrite length_take. lia. }
    split; [unfold wf, capacity; simpl; lia|].
    split; [unfold capacity; simpl; lia|]. split; [done|].
    unfold toArray. simpl. rewrite !slice_to_take by done.
    by rewrite take_take, Nat.min_id.
  - exists self. split; [done|]. split; [done|]. split; [lia | done].
Qed.

(** The loop of [removeIf], which walks the indices downwards. *)
Lemma removeIf_loop (p : value -> bool) (k : nat) :
  forall (self : Vector) (removed : bool),
    wf self ->
    Z.of_nat k <= elementCount self ->
    exists self',
      for_each (range_down (Z.of_nat k - 1) (-1))
        (fun i removed =>
           x <- read_data i ;;
           if p x then removeAt i ;;; ret true else ret removed)
        removed self
      = (self', Ok (removed || existsb p (take k (toArray self))))
      /\ wf self'
      /\ toArray self'
         = List.filter (fun x => negb (p x)) (take k (toArray self))
           ++ drop k (toArray self).
Proof.
  induction k as [|k IH]; intros self removed Hwf Hk.
  - rewrite range_down_nil by lia. exists self. simpl.
    rewrite orb_false_r, drop_0. done.
  - rewrite range_down_cons by lia. simpl for_each.
    replace (Z.of_nat (S k) - 1) with (Z.of_nat k) by lia.
    destruct (get_defined self (Z.of_nat k) Hwf) as (x & Hx & _); [lia|].
    rewrite Nat2Z.id in Hx.
    assert (HxA : toArray self !! k = Some x).
    { rewrite toArray_lookup by done. destruct (decide _); [done | lia]. }
    assert (Htake : take (S k) (toArray self) = take k (toArray self) ++ [x])
      by (by apply take_S_r).
    unfold bind at 1. unfold bind at 1, read_data at 1.
    rewrite (getitem_nonneg _ _ x) by (rewrite ?Nat2Z.id; done || lia).
    rewrite Htake, List.filter_app, existsb_app. simpl.
    destruct (p x) eqn:Hpx; simpl.
    + destruct (removeAt_deletes self (Z.of_nat k) Hwf) as [Hrem _].
      destruct Hrem as (s1 & y & Hr & _ & Hwf1 & Hsz1 & _ & Harr1 & _);
        [unfold size; lia|].
      unfold size in Hsz1. rewrite Nat2Z.id in Harr1.
      unfold bind at 1. rewrite Hr. unfold ret at 1.
      destruct (IH s1 true Hwf1) as (self' & Heq & Hwf' & Harr'); [lia|].
      replace (Z.of_nat k - 1 - -1) with (Z.of_nat k - 1 - -1) by done.
      exists self'. split; [|split; [done|]].
      * rewrite Heq. f_equal. f_equal. simpl. by rewrite !orb_true_r.
      * rewrite Harr', Harr1, delete_take_drop, app_nil_r.
        rewrite take_app_le by (rewrite length_take;
                                apply lookup_lt_Some in HxA; lia).
        rewrite take_take, Nat.min_id.
        rewrite drop_app_length'
          by (rewrite length_take; apply lookup_lt_Some in HxA; lia).
        done.
    + unfold ret at 1.
      destruct (IH self removed Hwf) as (self' & Heq & Hwf' & Harr'); [lia|].
      exists self'. split; [|split; [done|]].
      * etrans; [exact Heq|]. f_equal. f_equal. by rewrite !orb_false_r.
      * rewrite Harr', <- app_assoc. simpl. f_equal.
        by apply drop_S.
Qed.

(** X8. [removeIf(predicate)] never raises on a well-formed vector: it
    removes exactly the elements satisfying the predicate, keeps the others
    in order, and returns whether there was one to remove. *)
Theorem removeIf_filters (self : Vector) (p : value -> bool) :
  wf self ->
  exists self',
    removeIf p self = (self', Ok (existsb p (toArray self)))
    /\ wf self'
    /\ toArray self' = List.filter (fun x => negb (p x)) (toArray self).
Proof.
  intros Hwf. pose proof Hwf as [Hn Hc].
  destruct (removeIf_loop p (Z.to_nat (elementCount self)) self false Hwf)
    as (self' & Heq & Hwf' & Harr'); [lia|].
  rewrite Z2Nat.id in Heq by lia.
  pose proof (toArray_length self Hwf) as Hlen.
  rewrite <- Hlen, firstn_all in Heq, Harr'.
  rewrite drop_all, app_nil_r in Harr'.
  exists self'. split; [|done].
  unfold removeIf, bind at 1, gets at 1. exact Heq.
Qed.

(** The loop of [retainAll] over a stretch of members does nothing. *)
Lemma retainAll_loop_members (c : list value) (self : Vector) (k : nat) :
  forall (a : Z) (removed : bool),
    wf self ->
    0 <= a ->
    a + Z.of_nat k <= elementCount self ->
    (forall j : nat, a <= Z.of_nat j < a + Z.of_nat k ->
                     forall x, elementData self !! j = Some x -> x ∈ c) ->
    for_each (range a (a + Z.of_nat k))
      (fun i removed =>
         x <- read_data i ;;
         if negb (Py.contains c x) then removeAt i ;;; ret true
         else ret removed)
      removed self
    = (self, Ok removed).
Proof.
  induction k as [|k IH]; intros a removed Hwf Ha Hk Hmem.
  - by rewrite range_nil by lia.
  - rewrite range_cons by lia. simpl for_each.
    destruct (get_defined self a Hwf) as (x & Hx & _); [lia|].
    unfold bind at 1. unfold bind at 1, read_data at 1.
    rewrite (getitem_nonneg _ _ x) by (done || lia).
    assert (Hin : Py.contains c x = true).
    { unfold Py.contains. apply bool_decide_eq_true.
      apply (Hmem (Z.to_nat a)); [lia | done]. }
    rewrite Hin. simpl. unfold ret at 1.
    replace (a + Z.of_nat (S k)) with (a + 1 + Z.of_nat k) by lia.
    apply IH; [done | lia | lia |].
    intros j Hj. apply Hmem. lia.
Qed.

(** X9. When every element is a member of [c], [retainAll(c)] returns
    [False] and changes nothing; when the only non-member is the last
    element, it removes that element and returns [True]. *)
Theorem retainAll_without_failure (self : Vector) (c : list value) :
  wf self ->
  (Forall (fun x => x ∈ c) (toArray self) ->
   retainAll c self = (self, Ok false))
  /\ (forall init last,
        toArray self = init ++ [last] ->
        Forall (fun x => x ∈ c) init ->
        last ∉ c ->
        exists self',
          retainAll c self = (self', Ok true)
          /\ wf self'
          /\ toArray self' = init).
Proof.
  intros Hwf. pose proof Hwf as [Hn Hc].
  pose proof (toArray_length self Hwf) as Hlen. split.
  - intros Hall. unfold retainAll, bind at 1, gets at 1.
    rewrite <- (Z2Nat.id (elementCount self)) at 1 by lia.
    apply (retainAll_loop_members c self _ 0); [done | lia | lia |].
    intros j Hj x Hx. rewrite Forall_forall in Hall. apply Hall.
    apply list_elem_of_lookup. exists j.
    rewrite toArray_lookup by done. destruct (decide _); [done | lia].
  - intros init last HA Hinit Hlast.
    assert (Hn1 : elementCount self = Z.of_nat (length init) + 1).
    { rewrite HA, length_app in Hlen. simpl in Hlen. lia. }
    assert (Hlast' : elementData self !! length init = Some last).
    { pose proof (toArray_lookup self (length init) Hwf) as Hl.
      destruct (decide _); [|lia]. rewrite <- Hl, HA.
      rewrite lookup_app_r by lia.
      by replace (length init - length init)%nat with 0%nat by lia. }
    destruct (removeAt_deletes self (Z.of_nat (length init)) Hwf) as [Hrem _].
    destruct Hrem as (s1 & y & Hr & _ & Hwf1 & _ & _ & Harr1 & _);
      [unfold size; lia|].
    exists s1. split; [|split; [done|]].
    + unfold retainAll, bind at 1, gets at 1.
      unfold range. rewrite Z.sub_0_r, Hn1.
      rewrite seqZ_app by lia. rewrite (seqZ_cons _ 1) by lia.
      rewrite (seqZ_nil _ (Z.pred 1)) by lia.
      assert (Happ : forall {L} (xs ys : list Z) (body : Z -> L -> M Vector L)
                       acc s s' acc',
                 for_each xs body acc s = (s', Ok acc') ->
                 for_each (xs ++ ys) body acc s = for_each ys body acc' s').
      { intros L xs. induction xs as [|z xs IHxs]; intros ys body acc s s' acc' Hxs.
        - simpl in Hxs. by injection Hxs as <- <-.
        - simpl in *. unfold bind in *.
          destruct (body z acc s) as [s0 [a0|e0]]; [|done].
          by apply IHxs. }
      erewrite Happ; cycle 1.
      { pose proof (retainAll_loop_members c self (length init) 0 false Hwf) as Hl.
        rewrite Z.add_0_l in Hl. unfold range in Hl. rewrite Z.sub_0_r in Hl.
        apply Hl; [lia | lia |].
        intros j Hj x Hx. rewrite Forall_forall in Hinit. apply Hinit.
        apply list_elem_of_lookup. exists j.
        assert (HxA : toArray self !! j = Some x).
        { rewrite toArray_lookup by done. destruct (decide _); [done | lia]. }
        rewrite HA, lookup_app_l in HxA by lia. done. }
      simpl. unfold bind at 1. unfold bind at 1, read_data at 1.
      rewrite Z.add_0_l.
      rewrite (getitem_nonneg _ _ last) by (rewrite ?Nat2Z.id; done || lia).
      assert (Hnin : Py.contains c last = false)
        by (unfold Py.contains; by apply bool_decide_eq_false).
      rewrite Hnin. simpl. unfold bind at 1. rewrite Hr. done.
    + rewrite Harr1, HA, Nat2Z.id, delete_middle. apply app_nil_r.
Qed.

(** The searching loop over ascending indices. *)
Lemma indexOf_loop_up (o : value) (self : Vector) (k : nat) :
  forall a : Z,
    wf self ->
    0 <= a ->
    a + Z.of_nat k <= elementCount self ->
    exists r,
      indexOf_loop o (range a (a + Z.of_nat k)) self = (self, Ok r)
      /\ ((r = -1
           /\ forall j : nat, a <= Z.of_nat j < a + Z.of_nat k ->
                              elementData self !! j <> Some o)
          \/ (a <= r < a + Z.of_nat k
              /\ elementData self !! Z.to_nat r = Some o
              /\ forall j : nat, a <= Z.of_nat j < r ->
                                 elementData self !! j <> Some o)).
Proof.
  induction k as [|k IH]; intros a Hwf Ha Hk.
  - rewrite range_nil by lia. exists (-1). split; [done|]. left.
    split; [done|]. intros j Hj. lia.
  - rewrite range_cons by lia. simpl indexOf_loop.
    destruct (get_defined self a Hwf) as (x & Hx & _); [lia|].
    unfold bind at 1, read_data at 1.
    rewrite (getitem_nonneg _ _ x) by (done || lia).
    destruct (decide (x = o)) as [->|Hxo].
    + exists a. split; [done|]. right. split; [lia|]. split; [done|].
      intros j Hj. lia.
    + replace (a + Z.of_nat (S k)) with (a + 1 + Z.of_nat k) by lia.
      destruct (IH (a + 1) Hwf) as (r & Heq & Hr); [lia | lia |].
      exists r. split; [done|].
      destruct Hr as [[-> Hnone]|(Hr1 & Hr2 & Hr3)].
      * left. split; [done|]. intros j Hj.
        destruct (decide (Z.of_nat j = a)) as [Hja|Hja].
        -- replace j with (Z.to_nat a) by lia. congruence.
        -- apply Hnone. lia.
      * right. split; [lia|]. split; [done|]. intros j Hj.
        destruct (decide (Z.of_nat j = a)) as [Hja|Hja].
        -- replace j with (Z.to_nat a) by lia. congruence.
        -- apply Hr3. lia.
Qed.

(** The searching loop over descending indices. *)
Lemma indexOf_loop_down (o : value) (self : Vector) (k : nat) :
  wf self ->
  Z.of_nat k <= elementCount self ->
  exists r,
    indexOf_loop o (range_down (Z.of_nat k - 1) (-1)) self = (self, Ok r)
    /\ ((r = -1
         /\ forall j : nat, (j < k)%nat -> elementData self !! j <> Some o)
        \/ (0 <= r < Z.of_nat k
            /\ elementData self !! Z.to_nat r = Some o
            /\ forall j : nat, r < Z.of_nat j < Z.of_nat k ->
                               elementData self !! j <> Some o)).
Proof.
  intros Hwf. induction k as [|k IH]; intros Hk.
  - rewrite range_down_nil by lia. exists (-1). split; [done|]. left.
    split; [done|]. intros j Hj. lia.
  - rewrite range_down_cons by lia. simpl indexOf_loop.
    replace (Z.of_nat (S k) - 1) with (Z.of_nat k) by lia.
    destruct (get_defined self (Z.of_nat k) Hwf) as (x & Hx & _); [lia|].
    rewrite Nat2Z.id in Hx.
    unfold bind at 1, read_data at 1.
    rewrite (getitem_nonneg _ _ x) by (rewrite ?Nat2Z.id; done || lia).
    destruct (decide (x = o)) as [->|Hxo].
    + exists (Z.of_nat k). split; [done|]. right. split; [lia|].
      rewrite Nat2Z.id. split; [done|]. intros j Hj. lia.
    + destruct IH as (r & Heq & Hr); [lia|].
      exists r. split; [done|].
      destruct Hr as [[-> Hnone]|(Hr1 & Hr2 & Hr3)].
      * left. split; [done|]. intros j Hj.
        destruct (decide (j = k)) as [->|Hjk]; [congruence|].
        apply Hnone. lia.
      * right. split; [lia|]. split; [done|]. intros j Hj.
        destruct (decide (j = k)) as [->|Hjk]; [congruence|].
        apply Hr3. lia.
Qed.

Lemma not_in_toArray (self : Vector) (o : value) :
  wf self ->
  (forall j : nat, Z.of_nat j < elementCount self ->
                   elementData self !! j <> Some o) ->
  o ∉ toArray self.
Proof.
  intros Hwf Hnone Hin. apply list_elem_of_lookup in Hin as [j Hj].
  rewrite toArray_lookup in Hj by done.
  destruct (decide _); [|done]. by apply (Hnone j).
Qed.

(** X10. [indexOf(o)] returns the position of the first element equal to
    [o], and [-1] exactly when there is none; [lastIndexOf(o)] returns the
    position of the last one.  Neither raises nor changes the vector. *)
Theorem indexOf_first_last (self : Vector) (o : value) :
  wf self ->
  (exists r,
     indexOf o self = (self, Ok r)
     /\ ((r = -1 /\ o ∉ toArray self)
         \/ (0 <= r < size self
             /\ toArray self !! Z.to_nat r = Some o
             /\ forall j : nat, Z.of_nat j < r ->
                                toArray self !! j <> Some o)))
  /\ (exists r,
        lastIndexOf o self = (self, Ok r)
        /\ ((r = -1 /\ o ∉ toArray self)
            \/ (0 <= r < size self
                /\ toArray self !! Z.to_nat r = Some o
                /\ forall j : nat, r < Z.of_nat j ->
                                   toArray self !! j <> Some o))).
Proof.
  unfold size. intros Hwf. pose proof Hwf as [Hn Hc]. split.
  - destruct (indexOf_loop_up o self (Z.to_nat (elementCount self)) 0 Hwf)
      as (r & Heq & Hr); [lia | lia |].
    rewrite Z.add_0_l, Z2Nat.id in Heq, Hr by lia.
    exists r. split; [exact Heq|].
    destruct Hr as [[-> Hnone]|(Hr1 & Hr2 & Hr3)].
    + left. split; [done|]. apply not_in_toArray; [done|].
      intros j Hj. apply Hnone. lia.
    + right. split; [lia|]. split.
      * rewrite toArray_lookup by done. destruct (decide _); [done | lia].
      * intros j Hj. rewrite toArray_lookup by done.
        destruct (decide _); [|done]. apply Hr3. lia.
  - destruct (indexOf_loop_down o self (Z.to_nat (elementCount self)) Hwf)
      as (r & Heq & Hr); [lia|].
    rewrite Z2Nat.id in Heq, Hr by lia.
    exists r. split; [exact Heq|].
    destruct Hr as [[-> Hnone]|(Hr1 & Hr2 & Hr3)].
    + left. split; [done|]. apply not_in_toArray; [done|].
      intros j Hj. apply Hnone. lia.
    + right. split; [lia|]. split.
      * rewrite toArray_lookup by done. destruct (decide _); [done | lia].
      * intros j Hj. rewrite toArray_lookup by done.
        destruct (decide _); [|done]. apply Hr3. lia.
Qed.

(** X11. [Stack.search(o)] returns [-1] exactly when [o] is not on the
    stack, and otherwise the 1-based distance from the top of the
    occurrence nearest the top. *)
Theorem search_distance_from_top (self : Vector) (o : value) :
  wf self ->
  exists r,
    Stack.search o self = (self, Ok r)
    /\ ((r = -1 /\ o ∉ toArray self)
        \/ (1 <= r <= size self
            /\ toArray self !! Z.to_nat (size self - r) = Some o
            /\ forall j : nat, size self - r < Z.of_nat j ->
                               toArray self !! j <> Some o)).
Proof.
  unfold size. intros Hwf.
  destruct (indexOf_first_last self o Hwf) as [_ (r & Heq & Hr)].
  unfold Stack.search, bind. rewrite Heq.
  destruct Hr as [[-> Hnone]|(Hr1 & Hr2 & Hr3)].
  - exists (-1). split; [done|]. by left.
  - exists (elementCount self - r). unfold size in *.
    destruct (Z.eqb_spec r (-1)); [lia|]. split; [done|]. right.
    split; [lia|].
    replace (elementCount self - (elementCount self - r)) with r by lia.
    split; [done|]. intros j Hj. apply Hr3. lia.
Qed.

(** X12. On a non-empty stack, [peek()] returns the last element without
    changing anything and [pop()] returns it and removes it. *)
Theorem pop_takes_last (self : Vector) (init : list value) (x : value) :
  wf self ->
  toArray self = init ++ [x] ->
  Stack.peek self = (self, Ok x)
  /\ exists self',
       Stack.pop self = (self', Ok x)
       /\ wf self'
       /\ toArray self' = init.
Proof.
  intros Hwf HA. pose proof Hwf as [Hn Hc].
  pose proof (toArray_length self Hwf) as Hlen.
  rewrite HA, length_app in Hlen. simpl in Hlen.
  assert (Hx : elementData self !! Z.to_nat (elementCount self - 1) = Some x).
  { pose proof (toArray_lookup self (Z.to_nat (elementCount self - 1)) Hwf) as Hl.
    destruct (decide _); [|lia]. rewrite <- Hl, HA.
    rewrite lookup_app_r by lia.
    by replace (Z.to_nat (elementCount self - 1) - length init)%nat
      with 0%nat by lia. }
  assert (Hne : Stack.empty self = false).
  { unfold Stack.empty. destruct (Z.eqb_spec (elementCount self) 0); [lia | done]. }
  split.
  - unfold Stack.peek, bind, gets. rewrite Hne. unfold read_data.
    by rewrite (getitem_nonneg _ _ x) by (done || lia).
  - destruct (removeAt_deletes self (elementCount self - 1) Hwf) as [Hrem _].
    destruct Hrem as (s1 & y & Hr & _ & Hwf1 & _ & _ & Harr1 & _);
      [unfold size; lia|].
    exists s1. split; [|split; [done|]].
    + unfold Stack.pop, bind at 1, gets at 1. rewrite Hne.
      unfold bind at 1, gets at 1. unfold bind at 1, read_data at 1.
      rewrite (getitem_nonneg _ _ x) by (done || lia).
      unfold bind at 1, gets at 1. unfold bind at 1, removeElementAt.
      rewrite Hr. done.
    + rewrite Harr1, HA.
      replace (Z.to_nat (elementCount self - 1)) with (length init) by lia.
      rewrite delete_middle. apply app_nil_r.
Qed.

(** X13. Last in, first out: on a stack that has room or can grow,
    [push(x)] returns [x] and puts it on top, where [peek()] and
    [search(x)] (distance 1) find it; [pop()] then returns [x] and leaves
    the contents as they were before the push. *)
Theorem push_then_pop (self : Vector) (x : value) :
  wf self ->
  0 < capacity self \/ 0 < capacityIncrement self ->
  exists s1 s2,
    Stack.push x self = (s1, Ok x)
    /\ toArray s1 = toArray self ++ [x]
    /\ Stack.peek s1 = (s1, Ok x)
    /\ Stack.search x s1 = (s1, Ok 1)
    /\ Stack.pop s1 = (s2, Ok x)
    /\ toArray s2 = toArray self.
Proof.
  intros Hwf Hroom.
  destruct (addElement_zero_capacity self x Hwf) as [Hadd _].
  destruct (Hadd Hroom) as (s1 & Heq1 & Hwf1 & Harr1).
  destruct (pop_takes_last s1 (toArray self) x Hwf1 Harr1)
    as (Hpeek & s2 & Hpop & _ & Harr2).
  exists s1, s2. split; [|split; [done|split; [done|split; [|done]]]].
  - unfold Stack.push, bind. by rewrite Heq1.
  - destruct (search_distance_from_top s1 x Hwf1) as (r & Hs & Hr).
    rewrite Hs. f_equal. f_equal.
    pose proof (toArray_length s1 Hwf1) as Hlen1.
    rewrite Harr1, length_app in Hlen1. simpl in Hlen1. unfold size in Hr.
    destruct Hr as [[_ Hnone]|(Hr1 & Hr2 & Hr3)].
    + exfalso. apply Hnone. rewrite Harr1. apply elem_of_app. right.
      by apply list_elem_of_singleton.
    + destruct (decide (r = 1)) as [->|Hne]; [done|]. exfalso.
      apply (Hr3 (length (toArray self))); [lia|].
      rewrite Harr1, lookup_app_r by lia.
      by replace (length (toArray self) - length (toArray self))%nat
        with 0%nat by lia.
Qed.

(** A loop over a concatenation runs the first part, then the second. *)
Lemma for_each_app {S X L} (xs ys : list X) (body : X -> L -> M S L)
  (acc : L) (s : S) :
  for_each (xs ++ ys) body acc s =
    match for_each xs body acc s with
    | (s', Ok acc') => for_each ys body acc' s'
    | (s', Raise e) => (s', Raise e)
    end.
Proof.
  revert acc s. induction xs as [|x xs IH]; intros acc s; [done|].
  simpl. unfold bind. destruct (body x acc s) as [s0 [a0|e0]]; [|done].
  apply IH.
Qed.

Lemma range_split (a m b : Z) :
  a <= m < b -> range a b = range a m ++ m :: range (m + 1) b.
Proof.
  intros H. unfold range.
  replace (b - a) with ((m - a) + (b - m)) by lia.
  rewrite seqZ_app by lia. f_equal.
  replace (a + (m - a)) with m by lia.
  rewrite seqZ_cons by lia. f_equal. f_equal; lia.
Qed.

(** Once [retainAll] has removed an element before the last position, the
    rest of its loop cannot finish: it reaches an index at or beyond the
    shrunken count, finds the cleared slot [None] there, and the removal it
    attempts raises. *)
Lemma retainAll_loop_raises (c : list value) (n0 : Z) (k : nat) :
  None ∉ c ->
  forall (a : Z) (self : Vector) (removed : bool),
    a + Z.of_nat k = n0 ->
    wf self ->
    0 <= a ->
    elementCount self < n0 <= capacity self ->
    (forall j : nat, elementCount self <= Z.of_nat j < n0 ->
                     elementData self !! j = Some None) ->
    a <= elementCount self + 1 ->
    (a = elementCount self + 1 -> a < n0) ->
    exists self',
      for_each (range a n0)
        (fun i removed =>
           x <- read_data i ;;
           if negb (Py.contains c x) then removeAt i ;;; ret true
           else ret removed)
        removed self
      = (self', Raise IndexError)
      /\ wf self'
      /\ elementCount self' <= elementCount self.
Proof.
  intros HNone. induction k as [|k IH];
    intros a self removed Hak Hwf Ha Hcount Hclean Hle Hlt; [lia|].
  pose proof Hwf as [Hn Hc]. unfold capacity, len in Hcount, Hc.
  rewrite range_cons by lia. simpl for_each.
  unfold bind at 1. unfold bind at 1, read_data at 1.
  assert (HnotNone : Py.contains c None = false)
    by (unfold Py.contains; by apply bool_decide_eq_false).
  destruct (decide (elementCount self <= a)) as [Hge|Hlt'].
  - rewrite (getitem_nonneg _ _ (None : value))
      by (done || (replace a with (Z.of_nat (Z.to_nat a)) in * by lia;
                   rewrite Nat2Z.id; apply Hclean; lia)).
    rewrite HnotNone. simpl. unfold bind at 1.
    destruct (removeAt_deletes self a Hwf) as [_ Hout].
    rewrite Hout by (unfold size; lia).
    exists self. split; [done|]. split; [done | lia].
  - destruct (get_defined self a Hwf) as (x & Hx & _); [lia|].
    rewrite (getitem_nonneg _ _ x) by (done || lia).
    destruct (Py.contains c x) eqn:Hin; simpl.
    + unfold ret at 1.
      destruct (IH (a + 1) self removed) as (self' & Heq & Hwf' & Hcnt');
        try (done || lia).
      exists self'. done.
    + destruct (removeAt_eq self a Hwf) as (d & y & Hr & _ & Hlen & Hd); [lia|].
      unfold bind at 1. rewrite Hr. unfold ret at 1.
      set (s1 := mkVector (capacityIncrement self) d (elementCount self - 1)).
      assert (Hwf1 : wf s1).
      { unfold s1, wf, capacity, len. simpl. unfold value in *. lia. }
      destruct (IH (a + 1) s1 true) as (self' & Heq & Hwf' & Hcnt');
        try (done || unfold s1, capacity, len; simpl; unfold value in *; lia).
      * intros j Hj. unfold s1 in *. simpl in *. rewrite Hd.
        destruct (decide _); [lia|]. destruct (decide _); [lia|].
        destruct (decide _); [done|]. apply Hclean. lia.
      * exists self'. split; [done|]. split; [done|].
        unfold s1 in Hcnt'. simpl in Hcnt'. lia.
Qed.

(** X14. When a non-member stands before the last position and [None] is
    not in [c], [retainAll(c)] raises [IndexError], and it does so after
    having shrunk the vector. *)
Theorem retainAll_raises_on_inner_nonmember (self : Vector) (c : list value)
  (init rest : list value) (bad : value) :
  wf self ->
  toArray self = init ++ bad :: rest ->
  rest <> [] ->
  Forall (fun x => x ∈ c) init ->
  bad ∉ c ->
  None ∉ c ->
  exists self',
    retainAll c self = (self', Raise IndexError)
    /\ wf self'
    /\ size self' < size self.
Proof.
  unfold size. intros Hwf HA Hrest Hinit Hbad HNone.
  pose proof Hwf as [Hn Hc].
  pose proof (toArray_length self Hwf) as Hlen.
  rewrite HA, length_app in Hlen. simpl in Hlen.
  assert (Hrl : (0 < length rest)%nat) by (destruct rest; [done | simpl; lia]).
  set (i := Z.of_nat (length init)).
  assert (Hbad' : elementData self !! Z.to_nat i = Some bad).
  { pose proof (toArray_lookup self (Z.to_nat i) Hwf) as Hl.
    destruct (decide _); [|lia]. rewrite <- Hl, HA.
    rewrite lookup_app_r by lia.
    by replace (Z.to_nat i - length init)%nat with 0%nat by lia. }
  destruct (removeAt_eq self i Hwf) as (d & y & Hr & _ & Hlend & Hd); [lia|].
  set (s1 := mkVector (capacityIncrement self) d (elementCount self - 1)) in *.
  assert (Hwf1 : wf s1).
  { unfold s1, wf, capacity, len in *. simpl. unfold value in *. lia. }
  destruct (retainAll_loop_raises c (elementCount self)
              (Z.to_nat (elementCount self - (i + 1))) HNone (i + 1) s1 true)
    as (self' & Heq & Hwf' & Hcnt');
    try (done || unfold s1, capacity, len in *; simpl; unfold value in *; lia).
  { intros j Hj. unfold s1 in *. simpl in *. rewrite Hd.
    destruct (decide _); [lia|]. destruct (decide _); [lia|].
    destruct (decide _); [done | lia]. }
  exists self'. split; [|split; [done|]].
  - unfold retainAll, bind at 1, gets at 1.
    rewrite (range_split 0 i) by lia. rewrite for_each_app.
    pose proof (retainAll_loop_members c self (length init) 0 false Hwf) as Hl.
    rewrite Z.add_0_l in Hl. fold i in Hl. rewrite Hl; [|lia|lia|].
    + simpl for_each. unfold bind at 1. unfold bind at 1, read_data at 1.
      rewrite (getitem_nonneg _ _ bad) by (done || lia).
      assert (Hnin : Py.contains c bad = false)
        by (unfold Py.contains; by apply bool_decide_eq_false).
      rewrite Hnin. simpl. unfold bind at 1. rewrite Hr. unfold ret at 1.
      exact Heq.
    + intros j Hj x Hx. rewrite Forall_forall in Hinit. apply Hinit.
      apply list_elem_of_lookup. exists j.
      assert (HxA : toArray self !! j = Some x).
      { rewrite toArray_lookup by done. destruct (decide _); [done | lia]. }
      rewrite HA, lookup_app_l in HxA by lia. done.
  - unfold s1 in Hcnt'. simpl in Hcnt'. lia.
Qed.

End VectorMore.

(** ** ArrayDeque: order of insertion and removal *)

Module ArrayDequeSpec.
Import ArrayDeque.

Lemma addAll_items (items : list value) (self : ArrayDeque) :
  addAll items self = (set_deque (_deque self ++ items) self, Ok true).
Proof.
  unfold addAll, bind.
  assert (Hloop : forall xs s,
             for_each xs (fun item _ => add item ;;; ret tt) tt s
             = (set_deque (_deque s ++ xs) s, Ok tt)).
  { induction xs as [|x xs IH]; intros s.
    - simpl. rewrite app_nil_r. by destruct s.
    - simpl. unfold bind at 1. unfold bind at 1, add at 1.
      unfold bind at 1, gets at 1. unfold bind at 1, modify at 1.
      unfold ret at 1. unfold ret at 1. rewrite IH. simpl.
      by rewrite <- app_assoc. }
  by rewrite Hloop.
Qed.

Lemma pollFirst_cons (self : ArrayDeque) (x : value) (d : list value) :
  _deque self = x :: d -> pollFirst self = (set_deque d self, Ok x).
Proof. intros Hd. unfold pollFirst, bind, gets. by rewrite Hd. Qed.

Lemma pollLast_snoc (self : ArrayDeque) (x : value) (d : list value) :
  _deque self = d ++ [x] -> pollLast self = (set_deque d self, Ok x).
Proof.
  intros Hd. unfold pollLast, bind at 1, gets at 1. rewrite Hd. clear Hd.
  destruct (d ++ [x]) as [|y l] eqn:Hl; [by destruct d|].
  rewrite <- Hl. clear Hl y l.
  assert (Hlast : getitem (d ++ [x]) (-1) = Ok x).
  { unfold getitem, position, len. rewrite length_app. simpl.
    destruct (Z.leb_spec 0 (-1)); [lia|]. simpl.
    destruct (Z.leb_spec (- Z.of_nat (length d + 1)) (-1)); [|lia].
    simpl.
    replace (Z.to_nat (Z.of_nat (length d + 1) + -1)) with (length d) by lia.
    rewrite lookup_app_r by lia.
    by replace (length d - length d)%nat with 0%nat by lia. }
  unfold bind at 1, lift at 1. rewrite Hlast.
  unfold bind at 1, modify at 1. unfold ret at 1.
  rewrite length_app. simpl.
  replace (length d + 1 - 1)%nat with (length d) by lia.
  by rewrite take_app_length.
Qed.

Lemma repeat_poll_front (xs : list value) (self : ArrayDeque) (rest : list value) :
  _deque self = xs ++ rest ->
  repeat_call poll (length xs) self = (set_deque rest self, Ok <$> xs).
Proof.
  revert self. induction xs as [|x xs IH]; intros self Hd.
  - simpl in *. rewrite <- Hd. by destruct self.
  - simpl in Hd. cbn [length repeat_call].
    change (poll self) with (pollFirst self).
    rewrite (pollFirst_cons self x (xs ++ rest)) by done.
    rewrite (IH (set_deque (xs ++ rest) self)) by done. done.
Qed.

Lemma repeat_pollLast_back (xs : list value) :
  forall (self : ArrayDeque) (init : list value),
    _deque self = init ++ reverse xs ->
    repeat_call pollLast (length xs) self = (set_deque init self, Ok <$> xs).
Proof.
  induction xs as [|x xs IH]; intros self init Hd.
  - simpl in *. rewrite app_nil_r in Hd. rewrite <- Hd. by destruct self.
  - rewrite reverse_cons, app_assoc in Hd. cbn [length repeat_call].
    rewrite (pollLast_snoc self x (init ++ reverse xs)) by done.
    rewrite (IH (set_deque (init ++ reverse xs) self) init) by done. done.
Qed.

(** X15. First in, first out: after [addAll(items)] a deque holds its
    former items followed by [items]; polling an initially empty deque as
    many times as items were added returns them in insertion order and
    empties it, while [pollLast] returns them in reverse order. *)
Theorem addAll_then_poll (items : list value) (self : ArrayDeque) :
  exists self1,
    addAll items self = (self1, Ok true)
    /\ toArray self1 = toArray self ++ items
    /\ (toArray self = [] ->
        (exists self2,
           repeat_call poll (length items) self1 = (self2, Ok <$> items)
           /\ toArray self2 = [])
        /\ (exists self2,
              repeat_call pollLast (length items) self1
              = (self2, Ok <$> reverse items)
              /\ toArray self2 = [])).
Proof.
  eexists. split; [apply addAll_items|]. split; [done|].
  unfold toArray. intros He. rewrite He. simpl. split.
  - eexists. split.
    + rewrite (repeat_poll_front items _ []); [reflexivity|]. simpl.
      by rewrite app_nil_r.
    + reflexivity.
  - eexists. split.
    + rewrite <- (length_reverse items).
      rewrite (repeat_pollLast_back (reverse items) _ []); [reflexivity|].
      simpl. by rewrite reverse_involutive.
    + reflexivity.
Qed.

Lemma list_remove_first {A} (eqb : A -> bool) (l : list A) :
  (exists l1 x l2,
     l = l1 ++ x :: l2 /\ eqb x = true
     /\ Forall (fun y => eqb y = false) l1
     /\ list_remove eqb l = Ok (l1 ++ l2))
  \/ (Forall (fun y => eqb y = false) l /\ list_remove eqb l = Raise ValueError).
Proof.
  induction l as [|y l IH]; [by right|].
  simpl. destruct (eqb y) eqn:Hy.
  - left. exists [], y, l. by repeat split.
  - destruct IH as [(l1 & x & l2 & -> & Hx & Hl1 & ->)|[Hall ->]].
    + left. exists (y :: l1), x, l2. repeat split; try done. by constructor.
    + right. split; [by constructor | done].
Qed.

(** X16. [remove(o)] with an integer [o] removes the first item equal to
    [o] and returns [True], or returns [False] and changes nothing when
    there is none; [remove(None)] does not look for a stored [None]: it
    takes the head of the deque, whatever it is, like [pollFirst()]. *)
Theorem remove_first_or_head (self : ArrayDeque) (z : Z) :
  ((exists l1 l2,
      toArray self = l1 ++ Some z :: l2
      /\ (Some z ∉ l1)
      /\ remove (Some z) self = (set_deque (l1 ++ l2) self, Ok (inr true)))
   \/ ((Some z ∉ toArray self)
       /\ remove (Some z) self = (self, Ok (inr false))))
  /\ (forall x rest,
        toArray self = x :: rest ->
        remove None self = (set_deque rest self, Ok (inl x)))
  /\ (toArray self = [] -> remove None self = (self, Ok (inl None))).
Proof.
  unfold toArray. split; [|split].
  - simpl.
    match goal with
    | |- context [list_remove ?f ?l] =>
        destruct (list_remove_first f l)
          as [(l1 & x & l2 & Hd & Hx & Hl1 & Hr)|[Hall Hr]]
    end.
    + left. apply bool_decide_eq_true in Hx as ->.
      exists l1, l2. split; [done|]. split.
      * intros Hin. rewrite Forall_forall in Hl1.
        specialize (Hl1 _ Hin). by apply bool_decide_eq_false in Hl1.
      * by rewrite Hr.
    + right. split.
      * intros Hin. rewrite Forall_forall in Hall.
        specialize (Hall _ Hin). by apply bool_decide_eq_false in Hall.
      * by rewrite Hr.
  - intros x rest Hd. simpl. unfold bind.
    by rewrite (pollFirst_cons self x rest).
  - intros Hd. simpl. unfold bind, pollFirst, bind, gets. by rewrite Hd.
Qed.

Lemma index_of_first {A} `{EqDecision A} (x : A) (l : list A) :
  (x ∈ l ->
   exists l1 l2, l = l1 ++ x :: l2 /\ (x ∉ l1)
                 /\ index_of x l = Some (length l1))
  /\ (x ∉ l -> index_of x l = None).
Proof.
  induction l as [|y l [IH1 IH2]]; simpl.
  - split; [|done]. intros Hin. by apply elem_of_nil in Hin.
  - destruct (decide (y = x)) as [->|Hne]; split.
    + intros _. exists [], l. split; [done|]. split; [|done].
      intros Hin. by apply elem_of_nil in Hin.
    + intros Hnin. exfalso. apply Hnin. by left.
    + intros Hin. apply elem_of_cons in Hin as [->|Hin]; [done|].
      destruct (IH1 Hin) as (l1 & l2 & -> & Hl1 & ->).
      exists (y :: l1), l2. split; [done|]. split; [|done].
      intros Hin'. apply elem_of_cons in Hin' as [->|Hin']; done.
    + intros Hnin. apply not_elem_of_cons in Hnin as [_ Hnin].
      by rewrite (IH2 Hnin).
Qed.

(** X17. [removeLastOccurrence(o)] removes the last item equal to [o],
    keeps every other item in place and returns [True]; when no item
    equals [o] it returns [False] and changes nothing. *)
Theorem removeLastOccurrence_last (self : ArrayDeque) (o : value) :
  (o ∈ toArray self ->
   exists l1 l2,
     toArray self = l1 ++ o :: l2
     /\ (o ∉ l2)
     /\ removeLastOccurrence o self = (set_deque (l1 ++ l2) self, Ok true))
  /\ (o ∉ toArray self -> removeLastOccurrence o self = (self, Ok false)).
Proof.
  unfold toArray. split.
  - intros Hin.
    assert (Hrin : o ∈ reverse (_deque self)) by (by apply elem_of_reverse_2).
    destruct (index_of_first o (reverse (_deque self))) as [Hfirst _].
    destruct (Hfirst Hrin) as (r1 & r2 & Hrev & Hr1 & Hidx).
    assert (Hd : _deque self = reverse r2 ++ o :: reverse r1).
    { rewrite <- (reverse_involutive (_deque self)), Hrev.
      rewrite reverse_app, reverse_cons, <- app_assoc. done. }
    exists (reverse r2), (reverse r1). split; [done|]. split.
    + intros Hin'. apply Hr1. by apply elem_of_reverse.
    + unfold removeLastOccurrence, bind at 1, gets at 1.
      assert (Hc : Py.contains (_deque self) o = true)
        by (unfold Py.contains; by apply bool_decide_eq_true).
      rewrite Hc, Hidx.
      assert (Hdel : delitem (_deque self)
                       (len (_deque self) - 1 - Z.of_nat (length r1))
                     = Ok (reverse r2 ++ reverse r1)).
      { unfold delitem. rewrite position_nonneg.
        - rewrite Hd at 1. unfold len. rewrite Hd at 1.
          rewrite length_app. simpl. rewrite !length_reverse.
          replace (Z.to_nat (Z.of_nat (length r2 + S (length r1)) - 1
                             - Z.of_nat (length r1)))
            with (length (reverse r2)) by (rewrite length_reverse; lia).
          by rewrite delete_middle.
        - unfold len. rewrite Hd, length_app. simpl.
          rewrite !length_reverse. lia. }
      unfold bind at 1, lift at 1. rewrite Hdel. done.
  - intros Hnin. unfold removeLastOccurrence, bind, gets.
    assert (Hc : Py.contains (_deque self) o = false)
      by (unfold Py.contains; by apply bool_decide_eq_false).
    by rewrite Hc.
Qed.

Lemma filter_length_forallb {A} (f : A -> bool) (l : list A) :
  (length (List.filter f l) =? length l)%nat = forallb f l.
Proof.
  assert (Hle : forall l', (length (List.filter f l') <= length l')%nat).
  { induction l' as [|y l' IH]; simpl; [done|].
    destruct (f y); simpl; lia. }
  induction l as [|x l IH]; simpl; [done|].
  destruct (f x); simpl.
  - exact IH.
  - pose proof (Hle l). apply Nat.eqb_neq. lia.
Qed.

Lemma forallb_negb_existsb {A} (p : A -> bool) (l : list A) :
  forallb (fun x => negb (p x)) l = negb (existsb p l).
Proof.
  induction l as [|x l IH]; simpl; [done|].
  rewrite IH. by destruct (p x).
Qed.

Lemma len_eqb {A} (l1 l2 : list A) :
  (len l1 =? len l2) = (length l1 =? length l2)%nat.
Proof.
  unfold len. destruct (Z.eqb_spec (Z.of_nat (length l1)) (Z.of_nat (length l2))),
    (Nat.eqb_spec (length l1) (length l2)); (done || lia).
Qed.

(** X18. [retainAll(c)] keeps exactly the items that are in [c], in
    order, and [removeIf(p)] exactly those that fail [p]; each returns
    [True] exactly when it dropped an item. *)
Theorem retainAll_removeIf_filter (self : ArrayDeque) (c : list value)
  (p : value -> bool) :
  retainAll c self
  = (set_deque (List.filter (Py.contains c) (toArray self)) self,
     Ok (negb (forallb (Py.contains c) (toArray self))))
  /\ removeIf p self
     = (set_deque (List.filter (fun x => negb (p x)) (toArray self)) self,
        Ok (existsb p (toArray self))).
Proof.
  unfold toArray. split.
  - unfold retainAll, bind, gets, modify, ret. simpl.
    by rewrite len_eqb, filter_length_forallb.
  - unfold removeIf, bind, gets, modify, ret. simpl.
    rewrite len_eqb, filter_length_forallb, forallb_negb_existsb.
    by rewrite negb_involutive.
Qed.

End ArrayDequeSpec.

(** ** PriorityQueue: removal, filtering, seeding and peeking *)

Module PriorityQueueMore.
Import Heapq HeapqSpec PriorityQueue PriorityQueueSpec.

Lemma existsb_int_eq (z : Z) (h : list Z) :
  existsb (int_eq (Int z)) h = true <-> z ∈ h.
Proof.
  rewrite existsb_exists. split.
  - intros (x & Hin & Heq). simpl in Heq. apply Z.eqb_eq in Heq as ->.
    by apply list_elem_of_In.
  - intros Hin. exists z. split; [by apply list_elem_of_In|].
    simpl. apply Z.eqb_refl.
Qed.

(** X19. On a queue without comparator, [remove(o)] returns [True]
    exactly when the integer [o] is held; it then takes out one occurrence
    of [o], keeps all other elements and restores the heap property by
    [heapify]; otherwise it returns [False] and changes nothing.
    [contains(o)] tells whether [o] is held. *)
Theorem remove_without_comparator (h : list Z) (z : Z) :
  (z ∈ h ->
   exists h',
     remove (Int z) (Natural h) = (Natural h', Ok true)
     /\ is_heap h'
     /\ h ≡ₚ z :: h')
  /\ (z ∉ h -> remove (Int z) (Natural h) = (Natural h, Ok false))
  /\ (contains (Int z) (Natural h) = true <-> z ∈ h).
Proof.
  split; [|split].
  - intros Hin. simpl.
    destruct (ArrayDequeSpec.list_remove_first (int_eq (Int z)) h)
      as [(l1 & x & l2 & -> & Hx & Hl1 & ->)|[Hall _]].
    + simpl in Hx. apply Z.eqb_eq in Hx as ->.
      destruct (heapify_heap (l1 ++ l2)) as (Hheap & Hperm & _).
      exists (heapify (l1 ++ l2)). split; [done|]. split; [done|].
      rewrite Hperm. by rewrite Permutation_middle.
    + exfalso. rewrite Forall_forall in Hall.
      specialize (Hall z Hin). simpl in Hall. by rewrite Z.eqb_refl in Hall.
  - intros Hnin. simpl.
    destruct (ArrayDequeSpec.list_remove_first (int_eq (Int z)) h)
      as [(l1 & x & l2 & -> & Hx & Hl1 & _)|[_ ->]]; [|done].
    exfalso. simpl in Hx. apply Z.eqb_eq in Hx as ->.
    apply Hnin. apply elem_of_app. right. by left.
  - apply existsb_int_eq.
Qed.

Lemma filter_tuple_in_ints (c : list obj) (h : list (Z * Z)) :
  Forall (fun o => exists z, o = Int z) c ->
  List.filter (tuple_in c) h = [].
Proof.
  intros Hc.
  assert (Hf : forall p, tuple_in c p = false).
  { intros p. unfold tuple_in. induction Hc as [|o c [z ->] _ IH]; [done|].
    simpl. exact IH. }
  induction h as [|p h IH]; [done|]. simpl. by rewrite Hf.
Qed.

(** X20. [retainAll(collection)] keeps exactly the stored items that are
    in the collection and leaves a heap.  Without a comparator those are
    the held integers found in the collection.  With a comparator the
    stored items are (key, element) pairs, so a collection of integers
    matches none of them and the queue is left empty. *)
Theorem retainAll_keeps_stored_matches (q : PriorityQueue) (c : list obj) :
  heap_ordered (fst (retainAll c q))
  /\ snd (retainAll c q) = Ok tt
  /\ match q with
     | Natural h =>
         elements (fst (retainAll c q)) ≡ₚ List.filter (int_in c) h
     | Keyed _ h =>
         elements (fst (retainAll c q))
         ≡ₚ snd <$> List.filter (tuple_in c) h
         /\ (Forall (fun o => exists z, o = Int z) c ->
             elements (fst (retainAll c q)) = [])
     end.
Proof.
  destruct q as [h|cmp h]; simpl.
  - destruct (heapify_heap (List.filter (int_in c) h)) as (Hh & Hp & _).
    done.
  - destruct (heapify_heap (List.filter (tuple_in c) h)) as (Hh & Hp & _).
    split; [done|]. split; [done|]. split; [by rewrite Hp|].
    intros Hc. by rewrite filter_tuple_in_ints.
Qed.

Lemma for_each_add (items : list Z) :
  forall q : PriorityQueue,
    inv q ->
    exists q',
      for_each items (fun item _ => add item ;;; ret tt) tt q = (q', Ok tt)
      /\ inv q'
      /\ elements q' ≡ₚ items ++ elements q
      /\ comparator_of q' = comparator_of q.
Proof.
  induction items as [|e items IH]; intros q Hq.
  - exists q. done.
  - destruct (add_spec e q Hq) as (q1 & Hadd & Hq1 & Hel1 & Hc1).
    destruct (IH q1 Hq1) as (q' & Heq & Hq' & Hel' & Hc').
    exists q'. split; [|split; [done|split]].
    + simpl. unfold bind at 1. unfold bind at 1. rewrite Hadd.
      unfold ret at 1. exact Heq.
    + rewrite Hel', Hel1. simpl. by rewrite Permutation_middle.
    + congruence.
Qed.

Lemma size_elements (q : PriorityQueue) :
  size q = Z.of_nat (length (elements q)).
Proof. destruct q; simpl; unfold len; by rewrite ?length_fmap. Qed.

(** X21. A queue constructed from a collection, and a queue after
    [addAll(collection)], hold exactly the given elements next to those
    held before, in heap order under the active ordering. *)
Theorem seeded_queue_holds_seed (items : list Z)
  (comparator : option (Z -> Z)) (q : PriorityQueue) :
  (inv (new (Some items) comparator)
   /\ elements (new (Some items) comparator) ≡ₚ items
   /\ size (new (Some items) comparator) = len items
   /\ comparator_of (new (Some items) comparator) = comparator)
  /\ (inv q ->
      exists q',
        addAll items q = (q', Ok tt)
        /\ inv q'
        /\ elements q' ≡ₚ items ++ elements q).
Proof.
  split.
  - unfold new.
    set (q0 := match comparator with
               | Some c => Keyed c []
               | None => Natural []
               end).
    assert (Hq0 : inv q0).
    { unfold q0. destruct comparator; (split; [apply is_heap_nil | done]). }
    assert (He0 : elements q0 = []) by (unfold q0; by destruct comparator).
    assert (Hc0 : comparator_of q0 = comparator)
      by (unfold q0; by destruct comparator).
    destruct (for_each_add items q0 Hq0) as (q' & Heq & Hq' & Hel' & Hc').
    rewrite Heq. simpl. rewrite He0, app_nil_r in Hel'.
    split; [done|]. split; [done|]. split; [|congruence].
    rewrite size_elements. unfold len. f_equal.
    by apply Permutation_length.
  - intros Hq. destruct (for_each_add items q Hq) as (q' & Heq & Hq' & Hel' & _).
    exists q'. done.
Qed.

(** X22. [peek()] changes nothing and returns what the next [poll()]
    returns: [None] on an empty queue, otherwise an element of minimal
    key. *)
Theorem peek_agrees_with_poll (q : PriorityQueue) :
  inv q ->
  exists r,
    peek q = (q, Ok r)
    /\ snd (poll q) = Ok r
    /\ match r with
       | None => elements q = []
       | Some e =>
           e ∈ elements q
           /\ forall x, x ∈ elements q -> key q e <= key q x
       end.
Proof.
  intros Hq. destruct (decide (elements q = [])) as [He|He].
  - exists None. rewrite poll_empty by done. split; [|done].
    apply isEmpty_elements in He. unfold peek, bind, gets. by rewrite He.
  - destruct (poll_spec q Hq He) as (e & q' & Hpoll & _ & Hin & Hmin & _).
    exists (Some e). rewrite Hpoll. split; [|done].
    assert (Hemp : isEmpty q = false).
    { destruct (isEmpty q) eqn:Hi; [|done]. by apply isEmpty_elements in Hi. }
    revert Hpoll. unfold peek, poll, bind, gets. rewrite Hemp.
    destruct Hq as [Hh _]. destruct q as [h|c h]; simpl in *.
    + destruct (heappop_heap h Hh He) as (x & h' & Hpop & Hx & _).
      rewrite Hpop. intros [= _ <-].
      destruct h as [|y h]; [done|]. by rewrite Hx.
    + assert (Hne : h <> []) by (by destruct h).
      destruct (heappop_heap h Hh Hne) as (x & h' & Hpop & Hx & _).
      rewrite Hpop. intros [= _ <-].
      destruct h as [|y h]; [done|]. by rewrite Hx.
Qed.

(** X23. On a queue in heap order, [add(e)] (and [offer(e)], which calls
    it) returns [True], keeps the heap order, holds [e] next to the
    elements held before and makes the size one larger; [poll()] on a
    non-empty queue makes it one smaller. *)
Theorem add_grows_poll_shrinks (q : PriorityQueue) (e : Z) :
  inv q ->
  (exists q',
     add e q = (q', Ok true)
     /\ offer e q = (q', Ok true)
     /\ inv q'
     /\ elements q' ≡ₚ e :: elements q
     /\ size q' = size q + 1)
  /\ (0 < size q -> size (fst (poll q)) = size q - 1).
Proof.
  intros Hq. split.
  - destruct (add_spec e q Hq) as (q' & Hadd & Hq' & Hel & _).
    exists q'. split; [done|]. split; [done|]. split; [done|].
    split; [done|]. rewrite !size_elements.
    apply Permutation_length in Hel. simpl in Hel. lia.
  - intros Hpos. rewrite size_elements in Hpos.
    assert (He : elements q <> []) by (destruct (elements q); [simpl in Hpos; lia | done]).
    destruct (poll_spec q Hq He) as (x & q' & -> & _ & _ & _ & Hel & _).
    simpl. rewrite !size_elements.
    apply Permutation_length in Hel. simpl in Hel. lia.
Qed.

End PriorityQueueMore.

(** ** Vector: unused slots stay cleared *)

Module VectorTidy.
Import Vector VectorSpec VectorMore.

Lemma elem_of_range (a b x : Z) : x ∈ range a b -> a <= x < b.
Proof. unfold range. rewrite elem_of_seqZ. lia. Qed.

Lemma elem_of_range_down (a b x : Z) : x ∈ range_down a b -> b < x <= a.
Proof.
  unfold range_down. rewrite list_elem_of_fmap.
  intros (k & -> & Hk). apply elem_of_seqZ in Hk. lia.
Qed.

(** A loop whose body keeps [P] keeps [P]. *)
Lemma wp_loop_inv {X L} (P : Vector -> Prop) (xs : list X)
  (body : X -> L -> M Vector L) (acc : L) (s : Vector)
  (Q : L -> Vector -> Prop) (E E0 : exn -> Vector -> Prop) :
  (forall x acc s, x ∈ xs -> P s -> wp (body x acc) (fun _ => P) E0 s) ->
  P s ->
  (forall a s', P s' -> Q a s') ->
  (forall e s', E0 e s' -> E e s') ->
  wp (for_each xs body acc) Q E s.
Proof.
  intros Hbody Hs HQ HE.
  eapply wp_mono;
    [apply (wp_for_each (fun _ _ => P) body E0 xs); [|exact Hs] | |].
  - intros done x rest acc' s' Hxs Hs'. apply Hbody; [|done].
    rewrite Hxs. apply elem_of_app. right. left.
  - intros a s' Hs'. by apply HQ.
  - done.
Qed.

Lemma clean_from_mono (b b' : Z) (s : Vector) :
  b <= b' -> clean_from b s -> clean_from b' s.
Proof. intros Hb Hc j Hj. apply Hc. lia. Qed.

Lemma clean_write (b i : Z) (x : value) (s : Vector) :
  0 <= i < b ->
  clean_from b s ->
  clean_from b (set_elementData (<[Z.to_nat i := x]> (elementData s)) s).
Proof.
  intros Hi Hc j Hj. unfold capacity, len in Hj. simpl in *.
  rewrite length_insert in Hj.
  rewrite list_lookup_insert_ne by lia. apply Hc. unfold capacity, len. lia.
Qed.

Lemma wp_read_in (i : Z) (Q : value -> Vector -> Prop) E (self : Vector) :
  0 <= i < capacity self -> (forall x, Q x self) -> wp (read_data i) Q E self.
Proof.
  intros Hi HQ.
  destruct (lookup_lt_is_Some_2 (elementData self) (Z.to_nat i)) as [x Hx];
    [unfold capacity, len in *; lia|].
  apply (wp_read_data i Q E self x); [lia | done | done].
Qed.

Lemma wp_read_below (self0 : Vector) (b i : Z) (s : Vector)
  (Q : value -> Vector -> Prop) E :
  b <= capacity self0 -> below self0 b s -> 0 <= i < b ->
  (forall x, Q x s) ->
  wp (read_data i) Q E s.
Proof.
  intros Hb [Hd _] Hi HQ. apply wp_read_in; [|done].
  rewrite (same_dims_capacity _ _ Hd). lia.
Qed.

Lemma wp_write_below (self0 : Vector) (b i : Z) (x : value) (s : Vector)
  (Q : unit -> Vector -> Prop) E :
  b <= capacity self0 -> below self0 b s -> 0 <= i < b ->
  (forall s', below self0 b s' -> Q tt s') ->
  wp (write_data i x) Q E s.
Proof.
  intros Hb [Hd Hc] Hi HQ. apply wp_write_data.
  - rewrite (same_dims_capacity _ _ Hd). lia.
  - apply HQ. split; [|by apply clean_write].
    apply same_dims_set_data; [done|].
    unfold capacity, len. by rewrite length_insert.
Qed.

Lemma tidy_below (self : Vector) (b : Z) :
  tidy self -> elementCount self <= b -> below self b self.
Proof.
  intros [_ Hc] Hb. split; [done|]. by apply (clean_from_mono (elementCount self)).
Qed.

Lemma below_tidy (self0 s : Vector) (b : Z) :
  wf self0 -> b <= elementCount self0 -> below self0 b s -> tidy s.
Proof.
  intros Hwf Hb [Hd Hc]. split; [by apply (same_dims_wf self0)|].
  apply (clean_from_mono b); [|done]. rewrite (same_dims_count _ _ Hd). done.
Qed.

(** [ensureCapacity] on a tidy vector. *)
Lemma ensureCapacity_tidy (m : Z) (self : Vector)
  (Q : unit -> Vector -> Prop) E :
  tidy self ->
  (forall s, tidy s -> elementCount s = elementCount self ->
             m <= capacity s -> capacity self <= capacity s ->
             (forall j : nat, Z.of_nat j < elementCount self ->
                              elementData s !! j = elementData self !! j) ->
             Q tt s) ->
  wp (ensureCapacity m) Q E self.
Proof.
  intros [Hwf Hcl] HQ. unfold wp.
  destruct (Z.lt_ge_cases (capacity self) m) as [Hlt|Hge].
  - rewrite ensureCapacity_grow by done.
    pose proof (grown_data_len self m Hwf Hlt) as Hlen.
    pose proof (grown_capacity_ge self m) as Hge.
    destruct Hwf as [Hn Hc].
    apply HQ; try done.
    + split.
      * unfold wf, capacity. simpl. lia.
      * intros j Hj. unfold capacity in Hj. simpl in *. rewrite Hlen in Hj.
        unfold grown_data, capacity, len in *.
        rewrite lookup_app_r by (rewrite length_take; lia).
        rewrite length_take. apply lookup_replicate_2. unfold value in *. lia.
    + unfold capacity. simpl. lia.
    + unfold capacity at 2. simpl. lia.
    + intros j Hj. simpl. by apply grown_data_lookup.
  - rewrite ensureCapacity_keep by done. apply HQ; try done; lia.
Qed.

Lemma ensureCapacity_keeps_tidy (m : Z) : keeps_tidy (ensureCapacity m).
Proof. intros self Ht. apply ensureCapacity_tidy; [done|]. by intros. Qed.

(** Writing into the first free slot, if there is one. *)
Lemma wp_write_next (x : value) (s : Vector) (Q : unit -> Vector -> Prop) E :
  wf s ->
  (elementCount s < capacity s ->
   Q tt (set_elementData
           (<[Z.to_nat (elementCount s) := x]> (elementData s)) s)) ->
  E IndexError s ->
  wp (write_data (elementCount s) x) Q E s.
Proof.
  intros [Hn Hc] HQ HE.
  destruct (Z.lt_ge_cases (elementCount s) (capacity s)) as [Hlt|Hge].
  - apply wp_write_data; [lia|]. by apply HQ.
  - unfold wp, write_data. by rewrite setitem_out.
Qed.

Lemma tidy_push (x : value) (s : Vector) :
  tidy s ->
  elementCount s < capacity s ->
  tidy (set_elementCount (elementCount s + 1)
          (set_elementData
             (<[Z.to_nat (elementCount s) := x]> (elementData s)) s)).
Proof.
  intros [[Hn Hc] Hcl] Hlt. split.
  - unfold wf, capacity, len, value in *. simpl. rewrite length_insert. lia.
  - simpl. intros j Hj. unfold capacity, len, value in *. simpl in *.
    rewrite length_insert in Hj.
    rewrite list_lookup_insert_ne by lia. apply Hcl.
    unfold capacity, len, value in *. lia.
Qed.

Lemma addElement_keeps_tidy (x : value) : keeps_tidy (addElement x).
Proof.
  intros self Ht. unfold addElement. wp_go.
  assert (Htail : forall s, tidy s ->
            wp (n <- gets elementCount ;; write_data n x ;;;
                modify (set_elementCount (n + 1)))
              (fun _ => tidy) (fun _ => tidy) s).
  { intros s Hs. wp_go. apply wp_write_next; [apply Hs | | done].
    intros Hlt. wp_go. by apply tidy_push. }
  destruct (elementCount self =? capacity self).
  - wp_go. apply ensureCapacity_tidy; [done|].
    intros s Hs _ _ _ _. by apply Htail.
  - apply wp_ret. by apply Htail.
Qed.

Lemma add_keeps_tidy (x : value) : keeps_tidy (add x).
Proof.
  intros self Ht. unfold add. wp_go.
  apply ensureCapacity_tidy; [done|]. intros s Hs _ _ _ _. wp_go.
  apply wp_write_next; [apply Hs | | done].
  intros Hlt. wp_go. by apply tidy_push.
Qed.

Lemma add_at_keeps_tidy (i : Z) (x : value) : keeps_tidy (add_at i x).
Proof.
  intros self Ht. unfold add_at. wp_go.
  destruct (Z.gtb_spec i (elementCount self)); [by apply wp_raise|].
  destruct (Z.ltb_spec i 0); [by apply wp_raise|]. simpl. wp_go.
  apply ensureCapacity_tidy; [done|]. intros s Hs Hcount Hcap _ _. wp_go.
  pose proof Hs as [[Hn Hc] Hcl].
  assert (Hb : elementCount s + 1 <= capacity s) by lia.
  apply (wp_loop_inv (below s (elementCount s + 1)) _ _ _ s _ _
           (fun _ _ => False)).
  - intros k [] s1 Hk Hs1. apply elem_of_range_down in Hk. wp_go.
    apply (wp_read_below s (elementCount s + 1)); [done | done | lia |].
    intros y.
    apply (wp_write_below s (elementCount s + 1)); [done | done | lia | done].
  - apply tidy_below; [done | lia].
  - intros _ s1 Hs1. wp_go.
    apply (wp_write_below s (elementCount s + 1)); [done | done | lia |].
    intros s2 [Hd2 Hc2]. wp_go.
    pose proof (same_dims_capacity _ _ Hd2) as Hcap2. split.
    + unfold wf. simpl. change (capacity (set_elementCount _ s2))
        with (capacity s2). lia.
    + exact Hc2.
  - done.
Qed.

Lemma addAll_keeps_tidy (c : collection_arg) : keeps_tidy (addAll c).
Proof.
  intros self Ht. unfold addAll.
  destruct c as [items|items|]; wp_go; try done. cbn [items_of].
  destruct (_ =? 0); [by apply wp_ret|]. wp_go.
  apply ensureCapacity_tidy; [done|]. intros s Hs _ _ _ _. wp_go.
  apply (wp_loop_inv tidy _ _ _ s _ _ (fun _ => tidy)); try done.
  intros x [] s1 _ Hs1. wp_go.
  apply wp_write_next; [apply Hs1 | | done].
  intros Hlt. wp_go. by apply tidy_push.
Qed.

Lemma addAll_at_keeps_tidy (i : Z) (c : collection_arg) :
  keeps_tidy (addAll_at i c).
Proof.
  intros self Ht. unfold addAll_at.
  destruct c as [c|c|]; wp_go; try done;
    (destruct (Z.ltb_spec i 0); [by apply wp_raise|]);
    (destruct (Z.gtb_spec i (elementCount self)); [by apply wp_raise|]);
    cbn [orb]; wp_go; try done.
  cbn [items_of].
  destruct (_ =? 0); [by apply wp_ret|]. wp_go.
  apply ensureCapacity_tidy; [done|]. intros s Hs Hcount Hcap _ _. wp_go.
  pose proof Hs as [[Hn Hc] Hcl]. pose proof (len_nonneg c) as Hm.
  set (b := elementCount s + len c).
  assert (Hb : b <= capacity s) by (unfold b; lia).
  apply (wp_loop_inv (below s b) _ _ _ s _ _ (fun _ _ => False)).
  - intros k [] s1 Hk Hs1. apply elem_of_range_down in Hk. wp_go.
    apply (wp_read_below s b); [done | done | unfold b; lia |].
    intros y.
    apply (wp_write_below s b); [done | done | unfold b; lia | done].
  - apply tidy_below; [done | unfold b; lia].
  - intros _ s1 Hs1. wp_go.
    eapply wp_mono;
      [apply (wp_for_each
                (fun done (acc : Z) s' => acc = i + len done /\ below s b s')
                _ (fun _ _ => False) c) | |].
    + intros done x rest acc s2 Hxs [-> Hs2]. wp_go.
      assert (len done < len c).
      { rewrite Hxs. unfold len. rewrite length_app. simpl. lia. }
      apply (wp_write_below s b); [done | done | |].
      * pose proof (len_nonneg done). unfold b. lia.
      * intros s3 Hs3. wp_go. split; [|done].
        unfold len. rewrite length_app. simpl. lia.
    + split; [|done]. unfold len. simpl. lia.
    + intros acc s2 [_ [Hd2 Hc2]]. wp_go.
      pose proof (same_dims_capacity _ _ Hd2) as Hcap2.
      pose proof (same_dims_count _ _ Hd2) as Hcount2.
      rewrite Hcount2. split.
      * unfold wf. simpl. change (capacity (set_elementCount _ s2))
          with (capacity s2). lia.
      * exact Hc2.
    + done.
  - done.
Qed.

Lemma clear_keeps_tidy : keeps_tidy clear.
Proof.
  intros self [Hwf _]. unfold clear. wp_go. split.
  - unfold wf, capacity. simpl. rewrite len_repeat.
    pose proof (len_nonneg (elementData self)). lia.
  - intros j Hj. unfold capacity in Hj. simpl in *.
    rewrite len_repeat in Hj. unfold Py.repeat.
    apply lookup_replicate_2. unfold capacity in *. lia.
Qed.

Lemma removeAt_keeps_tidy (i : Z) : keeps_tidy (removeAt i).
Proof.
  intros self Ht. pose proof Ht as [Hwf Hcl]. pose proof Hwf as [Hn Hc].
  destruct (decide (0 <= i < elementCount self)) as [Hi|Hi].
  - destruct (removeAt_eq self i Hwf Hi) as (d & x & Heq & Hx & Hlen & Hd).
    unfold wp. rewrite Heq. split.
    + unfold wf, capacity, len in *. simpl. lia.
    + intros j Hj. unfold capacity, len in Hj. simpl in *. rewrite Hd.
      destruct (decide _); [lia|]. destruct (decide _); [lia|].
      destruct (decide _); [done|]. apply Hcl. unfold capacity, len. lia.
  - unfold removeAt. wp_go.
    destruct (Z.ltb_spec i 0); [by apply wp_raise|].
    destruct (Z.geb_spec i (elementCount self)); [by apply wp_raise | lia].
Qed.

Lemma removeElement_keeps_tidy (x : value) : keeps_tidy (removeElement x).
Proof.
  intros self Ht. unfold wp, removeElement.
  assert (Hin : wp (index <- indexOf x ;;
                    if negb (index =? -1) then removeAt index ;;; ret true
                    else ret false) (fun _ => tidy) (fun _ => tidy) self).
  { unfold indexOf. wp_go.
    eapply wp_mono; [by apply (indexOf_loop_keeps _ _ _ tidy) | | done].
    intros index s Hs. destruct (negb _); [|done]. wp_go.
    eapply wp_mono; [by apply removeAt_keeps_tidy | | done]. done. }
  unfold wp in Hin. destruct (bind (indexOf x) _ self) as [s' [a|[]]]; done.
Qed.

Lemma remove_keeps_tidy (arg : value) : keeps_tidy (remove arg).
Proof.
  intros self Ht. unfold remove. destruct arg as [index|]; wp_go.
  - eapply wp_mono; [by apply removeAt_keeps_tidy | | done]. done.
  - eapply wp_mono; [by apply removeElement_keeps_tidy | | done]. done.
Qed.

Lemma trimToSize_keeps_tidy : keeps_tidy trimToSize.
Proof.
  intros self Ht. pose proof Ht as [[Hn Hc] Hcl]. unfold trimToSize. wp_go.
  destruct (Z.gtb_spec (capacity self) (elementCount self)); [|by apply wp_ret].
  wp_go. split.
  - unfold wf, capacity, len in *. simpl.
    rewrite slice_to_take by done. rewrite length_take. lia.
  - intros j Hj. unfold capacity, len in *. simpl in *.
    rewrite slice_to_take in Hj by done. rewrite length_take in Hj. lia.
Qed.

Lemma clean_from_set_count (b k : Z) (s : Vector) :
  clean_from b s -> clean_from b (set_elementCount k s).
Proof. intros H. exact H. Qed.

Lemma range_split_at (a b x : Z) (done rest : list Z) :
  range a b = done ++ x :: rest -> x = a + len done.
Proof.
  intros H. assert (Hx : range a b !! length done = Some x).
  { rewrite H. by apply list_lookup_middle. }
  unfold range in Hx. apply lookup_seqZ in Hx as [-> _]. done.
Qed.

(** [setSize(n)] for [n >= 0] on a tidy vector: it returns, keeps the
    slots below both the old and the new size, and leaves [None] in the
    slots between the old and the new size. *)
Lemma setSize_post (n : Z) (self : Vector) :
  tidy self ->
  0 <= n ->
  wp (setSize n)
    (fun _ s =>
       tidy s /\ elementCount s = n
       /\ (forall j : nat, Z.of_nat j < n -> Z.of_nat j < elementCount self ->
                           elementData s !! j = elementData self !! j)
       /\ (forall j : nat, elementCount self <= Z.of_nat j < n ->
                           elementData s !! j = Some None))
    (fun _ _ => False) self.
Proof.
  intros Ht Hn0. pose proof Ht as [[Hn Hc] Hcl]. unfold setSize.
  destruct (Z.ltb_spec n 0); [lia|]. wp_go.
  destruct (Z.gtb_spec n (capacity self)).
  - apply ensureCapacity_tidy; [done|].
    intros s [[Hn1 Hc1] Hcl1] Hcount Hcap _ Hpre. wp_go.
    split; [split|].
    + unfold wf. simpl.
      change (capacity (set_elementCount n s)) with (capacity s). lia.
    + simpl. apply clean_from_set_count.
      apply (clean_from_mono (elementCount s)); [lia | done].
    + simpl. split; [done|]. split; [intros; by apply Hpre|].
      intros j Hj. apply Hcl1. lia.
  - destruct (Z.ltb_spec n (elementCount self)).
    + eapply wp_mono;
        [apply (wp_for_each
                  (fun done (_ : unit) s =>
                     same_dims self s
                     /\ (forall j : nat,
                           elementCount self <= Z.of_nat j
                           \/ n <= Z.of_nat j < n + len done ->
                           Z.of_nat j < capacity self ->
                           elementData s !! j = Some None)
                     /\ (forall j : nat, Z.of_nat j < n ->
                           elementData s !! j = elementData self !! j))
                  _ (fun _ _ => False) (range n (elementCount self))) | |].
      * intros done x rest [] s Hxs (Hd & Hnone & Hpre).
        pose proof (range_split_at _ _ _ _ _ Hxs) as Hx.
        assert (Hxin : x ∈ range n (elementCount self)).
        { rewrite Hxs. apply elem_of_app. right. left. }
        apply elem_of_range in Hxin.
        pose proof (same_dims_capacity _ _ Hd) as Hcap.
        apply wp_write_data; [lia|].
        split; [|split].
        -- apply same_dims_set_data; [done|].
           unfold capacity, len. by rewrite length_insert.
        -- intros j Hj Hjc. simpl.
           destruct (decide (j = Z.to_nat x)) as [->|Hne].
           ++ apply list_lookup_insert_eq.
              unfold capacity, len, value in *. lia.
           ++ rewrite list_lookup_insert_ne by done. apply Hnone; [|done].
              unfold len in *. rewrite length_app in Hj. simpl in Hj. lia.
        -- intros j Hj. simpl. rewrite list_lookup_insert_ne by lia.
           by apply Hpre.
      * split; [done|]. split; [|done].
        intros j [Hj|Hj] Hjc; [apply Hcl; lia|]. unfold len in Hj.
        simpl in Hj. lia.
      * intros [] s (Hd & Hnone & Hpre). wp_go.
        pose proof (same_dims_capacity _ _ Hd) as Hcap.
        split; [split|].
        -- unfold wf. simpl.
           change (capacity (set_elementCount n s)) with (capacity s). lia.
        -- simpl. apply clean_from_set_count. intros j Hj.
           apply Hnone; [|lia].
           unfold range, len. rewrite length_seqZ. lia.
        -- simpl. split; [done|]. split; [intros; by apply Hpre|].
           intros j Hj. lia.
      * done.
    + wp_go. split; [split|].
      * unfold wf. simpl.
        change (capacity (set_elementCount n self)) with (capacity self). lia.
      * simpl. apply clean_from_set_count.
        apply (clean_from_mono (elementCount self)); [lia | done].
      * simpl. split; [done|]. split; [done|].
        intros j Hj. apply Hcl. lia.
Qed.

Lemma setSize_keeps_tidy (n : Z) : keeps_tidy (setSize n).
Proof.
  intros self Ht. destruct (Z.lt_ge_cases n 0).
  - unfold setSize. destruct (Z.ltb_spec n 0); [by apply wp_raise | lia].
  - eapply wp_mono; [by apply setSize_post | |].
    + by intros _ s (Hs & _).
    + done.
Qed.

Lemma tidy_write (i : Z) (x : value) (s : Vector) :
  tidy s ->
  0 <= i < elementCount s ->
  tidy (set_elementData (<[Z.to_nat i := x]> (elementData s)) s).
Proof.
  intros [[Hn Hc] Hcl] Hi. split.
  - unfold wf, capacity, len, value in *. simpl. rewrite length_insert. lia.
  - by apply clean_write.
Qed.

Lemma setElementAt_keeps_tidy (x : value) (i : Z) :
  keeps_tidy (setElementAt x i).
Proof.
  intros self Ht. unfold setElementAt.
  destruct (Z.ltb_spec i 0); [by apply wp_raise|]. wp_go.
  assert (Htail : forall s, tidy s -> i + 1 <= capacity s ->
            wp (n <- gets elementCount ;;
                (if i >=? n then modify (set_elementCount (i + 1))
                 else ret tt) ;;;
                write_data i x) (fun _ => tidy) (fun _ => tidy) s).
  { intros s Hs Hcap. pose proof Hs as [[Hn Hc] Hcl]. wp_go.
    destruct (Z.geb_spec i (elementCount s)); wp_go.
    - apply wp_write_data;
        [change (capacity (set_elementCount (i + 1) s)) with (capacity s); lia|].
      apply (tidy_write i x (set_elementCount (i + 1) s)); [|simpl; lia].
      split.
      + unfold wf. simpl.
        change (capacity (set_elementCount (i + 1) s)) with (capacity s). lia.
      + simpl. apply clean_from_set_count.
        apply (clean_from_mono (elementCount s)); [lia | done].
    - apply wp_write_data; [lia|]. apply tidy_write; [done | lia]. }
  destruct (Z.geb_spec i (capacity self)).
  - apply ensureCapacity_tidy; [done|]. intros s Hs _ Hcap _ _.
    by apply Htail.
  - apply wp_ret. apply Htail; [done | lia].
Qed.

Lemma set_keeps_tidy (i : Z) (x : value) : keeps_tidy (set i x).
Proof.
  intros self Ht. pose proof Ht as [[Hn Hc] Hcl]. unfold set. wp_go.
  destruct (Z.ltb_spec i 0); [by apply wp_raise|].
  destruct (Z.geb_spec i (elementCount self)); [by apply wp_raise|]. simpl.
  wp_go. apply wp_read_any; [|done]. intros old. wp_go.
  apply wp_write_data; [lia|]. wp_go. apply tidy_write; [done | lia].
Qed.

Lemma replaceAll_keeps_tidy (f : value -> value) : keeps_tidy (replaceAll f).
Proof.
  intros self Ht. pose proof Ht as [[Hn Hc] Hcl]. unfold replaceAll. wp_go.
  apply (wp_loop_inv (below self (elementCount self)) _ _ _ self _ _
           (fun _ _ => False)).
  - intros k [] s1 Hk Hs1. apply elem_of_range in Hk. wp_go.
    apply (wp_read_below self (elementCount self)); [done | done | lia |].
    intros y.
    apply (wp_write_below self (elementCount self));
      [done | done | lia | done].
  - apply tidy_below; [done | lia].
  - intros _ s1 Hs1. by apply (below_tidy self _ (elementCount self)).
  - done.
Qed.

Lemma retainAll_keeps_tidy (c : list value) : keeps_tidy (retainAll c).
Proof.
  intros self Ht. unfold retainAll. wp_go.
  apply (wp_for_each (fun _ _ => tidy)); [|done].
  intros _ i _ removed s _ Hs. wp_go.
  apply wp_read_any; [|done]. intros x.
  destruct (negb _); [|done]. wp_go.
  eapply wp_mono; [by apply removeAt_keeps_tidy | | done]. done.
Qed.

Lemma removeIf_keeps_tidy (p : value -> bool) : keeps_tidy (removeIf p).
Proof.
  intros self Ht. unfold removeIf. wp_go.
  apply (wp_for_each (fun _ _ => tidy)); [|done].
  intros _ i _ removed s _ Hs. wp_go.
  apply wp_read_any; [|done]. intros x.
  destruct (p x); [|done]. wp_go.
  eapply wp_mono; [by apply removeAt_keeps_tidy | | done]. done.
Qed.

Lemma sort_keeps_tidy (c : value -> Z) : keeps_tidy (sort c).
Proof.
  intros self Ht. pose proof Ht as [[Hn Hc] Hcl]. unfold sort. wp_go.
  split.
  - unfold wf, capacity, len, set_slice_to in *. simpl.
    rewrite length_app, sorted_length, length_drop. lia.
  - simpl. intros j Hj.
    unfold capacity, len, set_slice_to in Hj. simpl in Hj.
    rewrite length_app, sorted_length, length_drop in Hj.
    unfold set_slice_to. rewrite slice_to_take in * by done.
    rewrite length_take in *. unfold capacity, len, value in *.
    cbn [elementData set_elementData].
    rewrite lookup_app_r by (rewrite sorted_length, length_take; lia).
    rewrite sorted_length, length_take, lookup_drop.
    replace (Z.to_nat (elementCount self) `min` length (elementData self)
             + (j - Z.to_nat (elementCount self)
                      `min` length (elementData self)))%nat
      with j by lia.
    apply Hcl. unfold capacity, len, value. lia.
Qed.

Lemma construct_tidy (c : ctor) (v : Vector) :
  construct c = Some v -> tidy v.
Proof.
  intros Hc. split; [by apply (construct_wf c)|].
  destruct c; try discriminate Hc; injection Hc as <-; intros j Hj;
    unfold capacity in Hj;
    simpl in *; rewrite ?len_repeat in Hj; try lia;
    unfold Py.repeat; apply lookup_replicate_2; lia.
Qed.

Lemma removeAll_while_keeps_tidy (fuel : nat) (x : value) (removed : bool) :
  keeps_tidy (removeAll_while fuel x removed).
Proof.
  revert removed.
  induction fuel as [|fuel IH]; intros removed self Ht; simpl;
    [by apply wp_ret|].
  apply wp_bind.
  eapply wp_mono; [by apply removeElement_keeps_tidy | | done].
  intros r s Hs. cbn beta. destruct r; [by apply IH | by apply wp_ret].
Qed.

Lemma removeAll_for_keeps_tidy (fuel : nat) (c : list value)
  (removed : bool) :
  keeps_tidy (removeAll_for fuel c removed).
Proof.
  revert removed.
  induction c as [|x c IH]; intros removed self Ht; simpl;
    [by apply wp_ret|].
  apply wp_bind.
  eapply wp_mono; [by apply removeAll_while_keeps_tidy | | done].
  intros r s Hs. cbn beta. destruct r; [by apply IH | by apply wp_ret].
Qed.

Lemma removeAll_keeps_tidy (c : list value) : keeps_tidy (removeAll c).
Proof.
  intros self Ht. unfold removeAll. wp_go.
  by apply removeAll_for_keeps_tidy.
Qed.

Lemma keeps_tidy_fst {A} (m : M Vector A) (self : Vector) :
  keeps_tidy m -> tidy self -> tidy (fst (m self)).
Proof.
  intros Hm Ht. specialize (Hm self Ht). unfold wp in Hm.
  by destruct (m self) as [s' [a|e]].
Qed.

Lemma exec_tidy (o : op) (self : Vector) : tidy self -> tidy (exec o self).
Proof.
  intros Ht. destruct o; unfold exec; apply keeps_tidy_fst; try done.
  - apply ensureCapacity_keeps_tidy.
  - apply addElement_keeps_tidy.
  - apply add_keeps_tidy.
  - apply add_at_keeps_tidy.
  - apply addAll_keeps_tidy.
  - apply addAll_at_keeps_tidy.
  - apply clear_keeps_tidy.
  - apply removeElement_keeps_tidy.
  - apply removeAll_keeps_tidy.
  - apply remove_keeps_tidy.
  - apply removeAt_keeps_tidy.
  - apply clear_keeps_tidy.
  - apply trimToSize_keeps_tidy.
  - apply setSize_keeps_tidy.
  - apply setElementAt_keeps_tidy.
  - apply set_keeps_tidy.
  - apply replaceAll_keeps_tidy.
  - apply retainAll_keeps_tidy.
  - apply removeIf_keeps_tidy.
  - apply sort_keeps_tidy.
Qed.

(** X24. Take a vector constructed with one of the four argument shapes
    [__init__] handles (no argument, a capacity, a [Collection] of the
    library, a capacity and an increment).  Right after construction, and
    after each call of any sequence of mutating calls, whether the call
    returns or raises, every slot of the backing store from position [size]
    up to the capacity holds [None]: no removed or shifted element lingers
    in the unused part. *)
Theorem unused_slots_stay_cleared (c : ctor) (v : Vector) (ops : list op) :
  construct c = Some v ->
  tidy v /\ Forall tidy (trace ops v).
Proof.
  intros Hc.
  assert (Hgen : forall self, tidy self -> Forall tidy (trace ops self)).
  { induction ops as [|o ops IH]; intros self Ht; simpl; [constructor|].
    constructor; [by apply exec_tidy|]. apply IH. by apply exec_tidy. }
  pose proof (construct_tidy c v Hc) as Ht.
  split; [done | by apply Hgen].
Qed.

(** X25. [setSize(n)] on a vector whose unused slots are cleared: a
    negative [n] raises [ValueError] and changes nothing; otherwise the
    call returns, the size becomes [n], and the contents are the first [n]
    old elements followed by as many [None] as are needed to reach [n]. *)
Theorem setSize_truncates_or_pads (self : Vector) (n : Z) :
  tidy self ->
  (n < 0 -> setSize n self = (self, Raise ValueError))
  /\ (0 <= n ->
      exists self',
        setSize n self = (self', Ok tt)
        /\ tidy self'
        /\ size self' = n
        /\ toArray self' =
             take (Z.to_nat n) (toArray self)
             ++ replicate (Z.to_nat n - Z.to_nat (size self)) None).
Proof.
  intros Ht. pose proof Ht as [Hwf Hcl]. pose proof Hwf as [Hn Hc]. split.
  - intros Hneg. unfold setSize. destruct (Z.ltb_spec n 0); [done | lia].
  - intros Hn0. pose proof (setSize_post n self Ht Hn0) as Hpost.
    unfold wp in Hpost.
    destruct (setSize n self) as [s' [[]|e]]; [|done].
    destruct Hpost as (Ht' & Hcount & Hpre & Hpad).
    exists s'. split; [done|]. split; [done|]. split; [done|].
    pose proof Ht' as [Hwf' _]. unfold size.
    apply list_eq. intros j. rewrite toArray_lookup by done. rewrite Hcount.
    destruct (decide (Z.of_nat j < n)) as [Hj|Hj].
    + destruct (decide (Z.of_nat j < elementCount self)) as [Hj'|Hj'].
      * rewrite lookup_app_l
          by (rewrite length_take, toArray_length by done; lia).
        rewrite lookup_take_lt by lia. rewrite toArray_lookup by done.
        destruct (decide _); [|lia]. by apply Hpre.
      * rewrite lookup_app_r
          by (rewrite length_take, toArray_length by done; lia).
        rewrite length_take, toArray_length by done.
        rewrite lookup_replicate_2 by lia. apply Hpad. lia.
    + symmetry. apply lookup_ge_None.
      rewrite length_app, length_take, length_replicate, toArray_length
        by done. lia.
Qed.

End VectorTidy.

(** ** Vector: removal by value, equality and sublists *)

Module VectorQueries.
Import Vector VectorSpec VectorMore.

(** Contents after [__removeAt__] at a valid index. *)
Lemma removeAt_contents (self : Vector) (i : Z) :
  wf self ->
  0 <= i < elementCount self ->
  exists self' x,
    removeAt i self = (self', Ok x)
    /\ wf self'
    /\ toArray self' = delete (Z.to_nat i) (toArray self).
Proof.
  intros Hwf Hi. pose proof Hwf as [Hn Hc].
  destruct (removeAt_eq self i Hwf Hi) as (d & x & Heq & Hx & Hlen & Hd).
  assert (Hwf' : wf (mkVector (capacityIncrement self) d
                       (elementCount self - 1))).
  { unfold wf, capacity, len in *. simpl. lia. }
  eexists _, x. split; [exact Heq|]. split; [done|].
  apply list_eq. intros j. rewrite toArray_lookup by done. simpl.
  destruct (decide (j < Z.to_nat i)%nat).
  - rewrite list_lookup_delete_lt by done. rewrite toArray_lookup by done.
    destruct (decide _); [|lia]. destruct (decide _); [|lia].
    rewrite Hd. destruct (decide _); [done | lia].
  - rewrite list_lookup_delete_ge by lia. rewrite toArray_lookup by done.
    destruct (decide (Z.of_nat j < elementCount self - 1)).
    + destruct (decide _); [|lia]. rewrite Hd.
      destruct (decide _); [lia|]. destruct (decide _); [|lia].
      f_equal. lia.
    + destruct (decide _); [lia | done].
Qed.

(** X26. [removeElement(o)] removes the first occurrence of [o] and
    nothing else, returning [True]; when [o] is not stored it returns
    [False] and changes nothing.  [remove(arg)] with an integer argument
    is always removal at that index, and with [None] removal of the first
    [None]. *)
Theorem removeElement_first_occurrence (self : Vector) (o : value) :
  wf self ->
  (o ∈ toArray self ->
   exists l1 l2 self',
     toArray self = l1 ++ o :: l2
     /\ (o ∉ l1)
     /\ removeElement o self = (self', Ok true)
     /\ wf self'
     /\ toArray self' = l1 ++ l2)
  /\ (o ∉ toArray self -> removeElement o self = (self, Ok false))
  /\ (forall index : Z,
        remove (Some index) self =
          match removeAt index self with
          | (s, Ok x) => (s, Ok (inl x))
          | (s, Raise e) => (s, Raise e)
          end)
  /\ remove None self =
       match removeElement None self with
       | (s, Ok b) => (s, Ok (inr b))
       | (s, Raise e) => (s, Raise e)
       end.
Proof.
  intros Hwf. pose proof Hwf as [Hn Hc].
  destruct (indexOf_loop_up o self (Z.to_nat (elementCount self)) 0 Hwf)
    as (r & Heq & Hr); [lia | lia |].
  rewrite Z.add_0_l, Z2Nat.id in Heq, Hr by lia.
  assert (Hio : indexOf o self = (self, Ok r)) by exact Heq.
  split; [|split; [|split]].
  - intros Hin. destruct Hr as [[-> Hnone]|(Hr1 & Hr2 & Hr3)].
    { exfalso. revert Hin. apply not_in_toArray; [done|].
      intros j Hj. apply Hnone. lia. }
    destruct (removeAt_contents self r Hwf) as (s' & x & Hrm & Hwf' & Harr);
      [lia|].
    assert (Hlook : toArray self !! Z.to_nat r = Some o).
    { rewrite toArray_lookup by done. destruct (decide _); [done | lia]. }
    exists (take (Z.to_nat r) (toArray self)),
      (drop (S (Z.to_nat r)) (toArray self)), s'.
    split; [by rewrite take_drop_middle|]. split; [|split; [|split]].
    + intros Hl1. apply list_elem_of_lookup in Hl1 as [j Hj].
      pose proof (lookup_lt_Some _ _ _ Hj) as Hlt.
      rewrite length_take in Hlt.
      rewrite lookup_take_lt in Hj by lia.
      rewrite toArray_lookup in Hj by done.
      destruct (decide _); [|done]. apply (Hr3 j); [lia | done].
    + unfold removeElement. unfold bind at 1. rewrite Hio.
      destruct (Z.eqb_spec r (-1)); [lia|]. simpl.
      unfold bind. rewrite Hrm. done.
    + done.
    + rewrite Harr. apply delete_take_drop.
  - intros Hnin. destruct Hr as [[-> Hnone]|(Hr1 & Hr2 & Hr3)].
    + unfold removeElement. unfold bind at 1. rewrite Hio. done.
    + exfalso. apply Hnin. apply list_elem_of_lookup. exists (Z.to_nat r).
      rewrite toArray_lookup by done. destruct (decide _); [done | lia].
  - intros index. unfold remove, bind.
    by destruct (removeAt index self) as [s [x|e]].
  - unfold remove, bind.
    by destruct (removeElement None self) as [s [b|e]].
Qed.

(** The comparing loop over ascending indices. *)
Lemma equals_loop_up (o self : Vector) (k : nat) :
  forall a : Z,
    wf self -> wf o ->
    0 <= a ->
    a + Z.of_nat k <= elementCount self ->
    a + Z.of_nat k <= elementCount o ->
    exists b : bool,
      equals_loop o (range a (a + Z.of_nat k)) self = (self, Ok b)
      /\ (b = true <->
          forall j : nat, a <= Z.of_nat j < a + Z.of_nat k ->
                          elementData self !! j = elementData o !! j).
Proof.
  induction k as [|k IH]; intros a Hwf Hwfo Ha Hk Hko.
  - rewrite range_nil by lia. exists true. split; [done|].
    split; [|done]. intros _ j Hj. lia.
  - rewrite range_cons by lia. simpl equals_loop.
    destruct (get_defined self a Hwf) as (x & Hx & _); [lia|].
    destruct (get_defined o a Hwfo) as (y & Hy & _); [lia|].
    unfold bind at 1, read_data at 1.
    rewrite (getitem_nonneg _ _ x) by (done || lia).
    unfold bind at 1, lift at 1.
    rewrite (getitem_nonneg _ _ y) by (done || lia).
    destruct (decide (x = y)) as [->|Hxy].
    + replace (a + Z.of_nat (S k)) with (a + 1 + Z.of_nat k) by lia.
      destruct (IH (a + 1) Hwf Hwfo) as (b & Heq & Hb); [lia | lia | lia |].
      exists b. split; [done|]. rewrite Hb. split.
      * intros Hall j Hj.
        destruct (decide (Z.of_nat j = a)) as [Hja|Hja].
        -- replace j with (Z.to_nat a) by lia. congruence.
        -- apply Hall. lia.
      * intros Hall j Hj. apply Hall. lia.
    + exists false. split; [done|]. split; [done|].
      intros Hall. exfalso. apply Hxy.
      specialize (Hall (Z.to_nat a)). rewrite Hx, Hy in Hall.
      assert (Some x = Some y) as [= ->] by (apply Hall; lia). done.
Qed.

(** X27. [equals(o)] for another vector [o] never raises, changes
    nothing, and returns [True] exactly when the two vectors hold the same
    elements in the same order: capacity, capacity increment and the
    unused slots play no part. *)
Theorem equals_compares_contents (self o : Vector) :
  wf self ->
  wf o ->
  exists b : bool,
    equals o self = (self, Ok b)
    /\ (b = true <-> toArray self = toArray o).
Proof.
  intros Hwf Hwfo. pose proof Hwf as [Hn Hc]. pose proof Hwfo as [Hno Hco].
  unfold equals, bind at 1, gets at 1, size.
  destruct (Z.eqb_spec (elementCount self) (elementCount o)) as [He|He];
    simpl.
  - destruct (equals_loop_up o self (Z.to_nat (elementCount self)) 0 Hwf Hwfo)
      as (b & Heq & Hb); [lia | lia | lia |].
    rewrite Z.add_0_l, Z2Nat.id in Heq, Hb by lia.
    exists b. split; [exact Heq|]. rewrite Hb. split.
    + intros Hall. apply list_eq. intros j.
      rewrite !toArray_lookup by done. rewrite <- He.
      destruct (decide _); [|done]. apply Hall. lia.
    + intros Harr j Hj.
      assert (Hl : toArray self !! j = toArray o !! j) by by rewrite Harr.
      rewrite !toArray_lookup in Hl by done. rewrite <- He in Hl.
      destruct (decide _); [done | lia].
  - exists false. split; [done|]. split; [done|].
    intros Harr. exfalso. apply He.
    assert (Hl : length (toArray self) = length (toArray o))
      by by rewrite Harr.
    rewrite !toArray_length in Hl by done. lia.
Qed.

(** X28. [subList(fromIndex, toIndex)] with
    [0 <= fromIndex <= toIndex <= size] returns the elements at positions
    [fromIndex .. toIndex - 1] of the contents, so never an unused slot;
    any other pair of bounds raises [IndexError].  The vector is unchanged
    either way. *)
Theorem subList_is_segment (self : Vector) (fromIndex toIndex : Z) :
  wf self ->
  (0 <= fromIndex <= toIndex /\ toIndex <= size self ->
   subList fromIndex toIndex self
   = (self, Ok (take (Z.to_nat (toIndex - fromIndex))
                  (drop (Z.to_nat fromIndex) (toArray self)))))
  /\ (fromIndex < 0 \/ size self < toIndex \/ toIndex < fromIndex ->
      subList fromIndex toIndex self = (self, Raise IndexError)).
Proof.
  unfold size. intros Hwf. pose proof Hwf as [Hn Hc].
  split.
  - intros [Hft Ht]. unfold subList, bind at 1, gets at 1.
    destruct (Z.ltb_spec fromIndex 0), (Z.gtb_spec toIndex (elementCount self)),
      (Z.gtb_spec fromIndex toIndex); try lia.
    simpl. unfold bind, gets, ret. f_equal. f_equal.
    unfold slice, slice_bound, toArray.
    rewrite slice_to_take by done.
    unfold capacity in Hc.
    destruct (Z.ltb_spec fromIndex 0), (Z.ltb_spec toIndex 0); try lia.
    rewrite !Z.min_l by lia.
    apply list_eq. intros j. unfold len in *.
    destruct (decide (j < Z.to_nat (toIndex - fromIndex))%nat).
    + rewrite !lookup_take_lt by done. rewrite !lookup_drop.
      rewrite lookup_take_lt by lia. done.
    + rewrite !lookup_take_ge by lia. done.
  - intros Hbad. unfold subList, bind at 1, gets at 1.
    destruct (Z.ltb_spec fromIndex 0), (Z.gtb_spec toIndex (elementCount self)),
      (Z.gtb_spec fromIndex toIndex); try lia; done.
Qed.

End VectorQueries.

(** ** Vector: removal of a collection's members, and the invariant *)

Module VectorInvariant.
Import Vector VectorSpec VectorMore VectorQueries.

(** Closed form of [removeElement] on a well-formed vector. *)
Lemma removeElement_eq (self : Vector) (o : value) :
  wf self ->
  (o ∈ toArray self ->
   exists l1 l2 self',
     toArray self = l1 ++ o :: l2
     /\ (o ∉ l1)
     /\ removeElement o self = (self', Ok true)
     /\ wf self'
     /\ toArray self' = l1 ++ l2)
  /\ (o ∉ toArray self -> removeElement o self = (self, Ok false)).
Proof.
  intros Hwf. pose proof Hwf as [Hn Hc].
  destruct (indexOf_loop_up o self (Z.to_nat (elementCount self)) 0 Hwf)
    as (r & Heq & Hr); [lia | lia |].
  rewrite Z.add_0_l, Z2Nat.id in Heq, Hr by lia.
  assert (Hio : indexOf o self = (self, Ok r)) by exact Heq.
  split.
  - intros Hin. destruct Hr as [[-> Hnone]|(Hr1 & Hr2 & Hr3)].
    { exfalso. revert Hin. apply not_in_toArray; [done|].
      intros j Hj. apply Hnone. lia. }
    destruct (removeAt_contents self r Hwf) as (s' & x & Hrm & Hwf' & Harr);
      [lia|].
    assert (Hlook : toArray self !! Z.to_nat r = Some o).
    { rewrite toArray_lookup by done. destruct (decide _); [done | lia]. }
    exists (take (Z.to_nat r) (toArray self)),
      (drop (S (Z.to_nat r)) (toArray self)), s'.
    split; [by rewrite take_drop_middle|]. split; [|split; [|split]].
    + intros Hl1. apply list_elem_of_lookup in Hl1 as [j Hj].
      pose proof (lookup_lt_Some _ _ _ Hj) as Hlt.
      rewrite length_take in Hlt.
      rewrite lookup_take_lt in Hj by lia.
      rewrite toArray_lookup in Hj by done.
      destruct (decide _); [|done]. apply (Hr3 j); [lia | done].
    + unfold removeElement. unfold bind at 1. rewrite Hio.
      destruct (Z.eqb_spec r (-1)); [lia|]. simpl.
      unfold bind. rewrite Hrm. done.
    + done.
    + rewrite Harr. apply delete_take_drop.
  - intros Hnin. destruct Hr as [[-> Hnone]|(Hr1 & Hr2 & Hr3)].
    + unfold removeElement. unfold bind at 1. rewrite Hio. done.
    + exfalso. apply Hnin. apply list_elem_of_lookup. exists (Z.to_nat r).
      rewrite toArray_lookup by done. destruct (decide _); [done | lia].
Qed.

Lemma filter_all {A} (P : A -> Prop) `{!forall x, Decision (P x)}
  (l : list A) :
  Forall P l -> filter P l = l.
Proof.
  induction 1 as [|x l Hx Hl IH]; [done|].
  rewrite filter_cons_True by done. by rewrite IH.
Qed.

(** The inner loop of [removeAll] ends before its fuel does, and takes
    out every occurrence of [x]. *)
Lemma removeAll_while_spec (x : value) (fuel : nat) :
  forall (self : Vector) (removed : bool),
    wf self ->
    (length (toArray self) < fuel)%nat ->
    exists self',
      removeAll_while fuel x removed self
      = (self', Ok (Some (removed || bool_decide (x ∈ toArray self))))
      /\ wf self'
      /\ toArray self' = filter (fun y => y <> x) (toArray self).
Proof.
  induction fuel as [|fuel IH]; intros self removed Hwf Hfuel; [lia|].
  simpl removeAll_while.
  destruct (removeElement_eq self x Hwf) as [Hin Hnin].
  destruct (decide (x ∈ toArray self)) as [Hx|Hx].
  - destruct (Hin Hx) as (l1 & l2 & s1 & HA & Hl1 & Hrm & Hwf1 & HA1).
    unfold bind at 1. rewrite Hrm.
    destruct (IH s1 true Hwf1) as (s' & Heq & Hwf' & Harr).
    { rewrite HA1. rewrite HA, length_app in Hfuel. simpl in Hfuel.
      rewrite length_app. lia. }
    exists s'. rewrite Heq. rewrite (bool_decide_eq_true_2 _ Hx), orb_true_r.
    split; [done|]. split; [done|].
    rewrite Harr, HA1, HA, !filter_app.
    rewrite (filter_cons_False _ x l2) by (intros Hxx; by apply Hxx). done.
  - unfold bind at 1. rewrite (Hnin Hx). exists self.
    rewrite (bool_decide_eq_false_2 _ Hx), orb_false_r.
    split; [done|]. split; [done|].
    symmetry. apply filter_all. apply Forall_forall. by intros y Hy ->.
Qed.

(** The outer loop of [removeAll]. *)
Lemma removeAll_for_spec (fuel : nat) (c : list value) :
  forall (self : Vector) (removed : bool),
    wf self ->
    (length (toArray self) < fuel)%nat ->
    exists self' b,
      removeAll_for fuel c removed self = (self', Ok (Some b))
      /\ (b = true <->
          removed = true \/ exists y, y ∈ toArray self /\ y ∈ c)
      /\ wf self'
      /\ toArray self' = filter (fun y => y ∉ c) (toArray self).
Proof.
  induction c as [|x c IH]; intros self removed Hwf Hfuel.
  - exists self, removed. simpl. split; [done|]. split; [|split; [done|]].
    + split; [by left|]. intros [H|(y & _ & Hy)]; [done|].
      by apply not_elem_of_nil in Hy.
    + symmetry. apply filter_all. apply Forall_forall. intros y _.
      apply not_elem_of_nil.
  - simpl removeAll_for.
    destruct (removeAll_while_spec x fuel self removed Hwf Hfuel)
      as (s1 & Heq1 & Hwf1 & HA1).
    unfold bind at 1. rewrite Heq1.
    destruct (IH s1 (removed || bool_decide (x ∈ toArray self)) Hwf1)
      as (s' & b & Heq & Hb & Hwf' & HA').
    { rewrite HA1.
      pose proof (length_filter (fun y => y <> x) (toArray self)). lia. }
    exists s', b. split; [done|]. split; [|split; [done|]].
    + rewrite Hb. rewrite orb_true_iff, bool_decide_eq_true. rewrite HA1.
      split.
      * intros [[H|H]|(y & Hy & Hyc)].
        -- by left.
        -- right. exists x. split; [done | left].
        -- apply list_elem_of_filter in Hy as [_ Hy]. right. exists y.
           split; [done | by right].
      * intros [H|(y & Hy & Hyc)]; [by left; left|].
        destruct (decide (y = x)) as [->|Hne]; [left; by right|].
        right. exists y. split; [by apply list_elem_of_filter|].
        apply elem_of_cons in Hyc as [?|?]; done.
    + rewrite HA', HA1, list_filter_filter. apply list_filter_iff.
      intros y. rewrite not_elem_of_cons. tauto.
Qed.

(** X29. [removeAll(c)] on a well-formed vector always returns: its inner
    loops end, each after at most as many removals as there are elements.
    It removes every element that is in [c], keeps the others in order,
    and returns [True] exactly when it removed something. *)
Theorem removeAll_removes_members (self : Vector) (c : list value) :
  wf self ->
  exists self' b,
    removeAll c self = (self', Ok (Some b))
    /\ (b = true <-> exists y, y ∈ toArray self /\ y ∈ c)
    /\ wf self'
    /\ toArray self' = filter (fun y => y ∉ c) (toArray self).
Proof.
  intros Hwf.
  destruct (removeAll_for_spec (S (Z.to_nat (elementCount self))) c self
              false Hwf) as (s' & b & Heq & Hb & Hwf' & HA).
  { rewrite toArray_length by done. lia. }
  exists s', b. split; [exact Heq|]. split; [|done].
  rewrite Hb. split; [by intros [?|?] | by right].
Qed.

(** C8. [Vector(...)] called with arguments that match none of the four
    branches of [__init__] (a plain list, say) raises nothing and returns
    an instance without [elementData] and [elementCount], of which
    [0 <= elementCount <= len(elementData)] does not hold.  On a vector
    constructed with arguments that [__init__] handles, the invariant
    holds after construction and after every call of any sequence of
    operations, returned or raised; the loops of [removeAll] always end
    on a vector that satisfies it. *)
Theorem invariant_after_every_call :
  (construct NewOther = None /\ ~ invariant (construct NewOther))
  /\ (forall (c : ctor) (v : Vector) (ops : list op),
        construct c = Some v ->
        invariant (construct c) /\ Forall wf (trace ops v))
  /\ (forall (self : Vector) (c : list value),
        wf self ->
        exists self' b,
          removeAll c self = (self', Ok (Some b)) /\ wf self').
Proof.
  split; [split; [done | by intros []]|]. split.
  - intros c v ops Hc. pose proof (construct_wf c v Hc) as Hwf.
    rewrite Hc. split; [exact Hwf | by apply trace_wf].
  - intros self c Hwf.
    destruct (removeAll_for_spec (S (Z.to_nat (elementCount self))) c self
                false Hwf) as (s' & b & Heq & _ & Hwf' & _).
    { rewrite toArray_length by done. lia. }
    by exists s', b.
Qed.

End VectorInvariant.

(** ** The further properties at concrete inputs *)

Module WitnessMore.
Import Vector VectorSpec VectorMore VectorTidy VectorQueries.

(** Decides a closed arithmetic side condition by evaluation. *)
Ltac conc := vm_compute; repeat split; (reflexivity || discriminate).

(** Decides a closed decidable side condition by evaluation. *)
Ltac decided := apply (bool_decide_unpack _); vm_compute; exact I.

Lemma removeAt_deletes_witness :
  wf v123 /\ 0 <= 1 < size v123
  /\ exists self' x,
       removeAt 1 v123 = (self', Ok x)
       /\ toArray self' = delete 1%nat (toArray v123).
Proof.
  assert (Hwf : wf v123) by (unfold wf; conc).
  assert (Hi : 0 <= 1 < size v123) by conc.
  split; [exact Hwf|]. split; [exact Hi|].
  destruct (removeAt_deletes v123 1 Hwf) as [Hin _].
  destruct (Hin Hi) as (self' & x & Hrun & _ & _ & _ & _ & Harr & _).
  exists self', x. split; [exact Hrun | exact Harr].
Defined.

Lemma remove_then_insert_restores_witness :
  wf v123 /\ 0 <= 1 < size v123
  /\ exists x s1 s2,
       removeAt 1 v123 = (s1, Ok x)
       /\ add_at 1 x s1 = (s2, Ok tt)
       /\ size s2 = size v123
       /\ toArray s2 = toArray v123.
Proof.
  assert (Hwf : wf v123) by (unfold wf; conc).
  assert (Hi : 0 <= 1 < size v123) by conc.
  split; [exact Hwf|]. split; [exact Hi|].
  exact (remove_then_insert_restores v123 1 Hwf Hi).
Defined.

Lemma add_appends_witness :
  wf v123
  /\ exists self',
       add (Some 4) v123 = (self', Ok true)
       /\ wf self'
       /\ size self' = size v123 + 1
       /\ toArray self' = toArray v123 ++ [Some 4].
Proof.
  assert (Hwf : wf v123) by (unfold wf; conc).
  split; [exact Hwf|]. exact (add_appends v123 (Some 4) Hwf).
Defined.

Lemma addElement_zero_capacity_witness :
  wf v123 /\ (0 < capacity v123 \/ 0 < capacityIncrement v123)
  /\ exists self',
       addElement (Some 4) v123 = (self', Ok tt)
       /\ wf self'
       /\ toArray self' = toArray v123 ++ [Some 4].
Proof.
  assert (Hwf : wf v123) by (unfold wf; conc).
  assert (Hroom : 0 < capacity v123 \/ 0 < capacityIncrement v123)
    by (left; conc).
  split; [exact Hwf|]. split; [exact Hroom|].
  destruct (addElement_zero_capacity v123 (Some 4) Hwf) as [Hin _].
  exact (Hin Hroom).
Defined.

Lemma addAll_appends_witness :
  wf v123 /\ [Some 4; Some 5] <> []
  /\ exists self',
       addAll (Iterable [Some 4; Some 5]) v123 = (self', Ok true)
       /\ wf self'
       /\ size self' = size v123 + len [Some 4; Some 5]
       /\ toArray self' = toArray v123 ++ [Some 4; Some 5].
Proof.
  assert (Hwf : wf v123) by (unfold wf; conc).
  assert (Hne : [Some 4; Some 5] <> ([] : list value)) by discriminate.
  split; [exact Hwf|]. split; [exact Hne|].
  destruct (addAll_appends v123 [Some 4; Some 5] Hwf) as (_ & Hin & _).
  exact (Hin Hne).
Defined.

Lemma set_replaces_witness :
  wf v123 /\ 0 <= 1 < size v123
  /\ exists self' old,
       set 1 (Some 9) v123 = (self', Ok old)
       /\ get 1 v123 = (v123, Ok old)
       /\ size self' = size v123
       /\ toArray self' = <[1%nat := Some 9]> (toArray v123).
Proof.
  assert (Hwf : wf v123) by (unfold wf; conc).
  assert (Hi : 0 <= 1 < size v123) by conc.
  split; [exact Hwf|]. split; [exact Hi|].
  destruct (set_replaces v123 1 (Some 9) Hwf) as [Hin _].
  exact (Hin Hi).
Defined.

Lemma trimToSize_exact_witness :
  wf v123
  /\ exists self',
       trimToSize v123 = (self', Ok tt)
       /\ wf self'
       /\ capacity self' = size v123
       /\ size self' = size v123
       /\ toArray self' = toArray v123.
Proof.
  assert (Hwf : wf v123) by (unfold wf; conc).
  split; [exact Hwf|]. exact (trimToSize_exact v123 Hwf).
Defined.

Lemma removeIf_filters_witness :
  wf v221
  /\ exists self',
       removeIf (fun x => bool_decide (x = Some 2)) v221
       = (self',
          Ok (existsb (fun x => bool_decide (x = Some 2)) (toArray v221)))
       /\ wf self'
       /\ toArray self' =
            List.filter (fun x => negb (bool_decide (x = Some 2)))
              (toArray v221).
Proof.
  assert (Hwf : wf v221) by (unfold wf; conc).
  split; [exact Hwf|].
  exact (removeIf_filters v221 (fun x => bool_decide (x = Some 2)) Hwf).
Defined.

Lemma retainAll_without_failure_witness :
  wf v123
  /\ Forall (fun x => x ∈ [Some 1; Some 2; Some 3]) (toArray v123)
  /\ retainAll [Some 1; Some 2; Some 3] v123 = (v123, Ok false).
Proof.
  assert (Hwf : wf v123) by (unfold wf; conc).
  assert (Hall : Forall (fun x => x ∈ [Some 1; Some 2; Some 3])
                   (toArray v123)) by decided.
  split; [exact Hwf|]. split; [exact Hall|].
  destruct (retainAll_without_failure v123 [Some 1; Some 2; Some 3] Hwf)
    as [Hin _].
  exact (Hin Hall).
Defined.

Lemma indexOf_first_last_witness :
  wf v221
  /\ (exists r, indexOf (Some 2) v221 = (v221, Ok r))
  /\ (exists r, lastIndexOf (Some 2) v221 = (v221, Ok r)).
Proof.
  assert (Hwf : wf v221) by (unfold wf; conc).
  split; [exact Hwf|].
  destruct (indexOf_first_last v221 (Some 2) Hwf)
    as [(r1 & H1 & _) (r2 & H2 & _)].
  split; [by exists r1 | by exists r2].
Defined.

Lemma search_distance_from_top_witness :
  wf v221 /\ exists r, Stack.search (Some 2) v221 = (v221, Ok r).
Proof.
  assert (Hwf : wf v221) by (unfold wf; conc).
  split; [exact Hwf|].
  destruct (search_distance_from_top v221 (Some 2) Hwf) as (r & Hr & _).
  by exists r.
Defined.

Lemma pop_takes_last_witness :
  wf v123 /\ toArray v123 = [Some 1; Some 2] ++ [Some 3]
  /\ Stack.peek v123 = (v123, Ok (Some 3))
  /\ exists self',
       Stack.pop v123 = (self', Ok (Some 3))
       /\ wf self'
       /\ toArray self' = [Some 1; Some 2].
Proof.
  assert (Hwf : wf v123) by (unfold wf; conc).
  assert (Harr : toArray v123 = [Some 1; Some 2] ++ [Some 3])
    by (vm_compute; reflexivity).
  split; [exact Hwf|]. split; [exact Harr|].
  exact (pop_takes_last v123 [Some 1; Some 2] (Some 3) Hwf Harr).
Defined.

Lemma push_then_pop_witness :
  wf v123 /\ (0 < capacity v123 \/ 0 < capacityIncrement v123)
  /\ exists s1 s2,
       Stack.push (Some 4) v123 = (s1, Ok (Some 4))
       /\ toArray s1 = toArray v123 ++ [Some 4]
       /\ Stack.peek s1 = (s1, Ok (Some 4))
       /\ Stack.search (Some 4) s1 = (s1, Ok 1)
       /\ Stack.pop s1 = (s2, Ok (Some 4))
       /\ toArray s2 = toArray v123.
Proof.
  assert (Hwf : wf v123) by (unfold wf; conc).
  assert (Hroom : 0 < capacity v123 \/ 0 < capacityIncrement v123)
    by (left; conc).
  split; [exact Hwf|]. split; [exact Hroom|].
  exact (push_then_pop v123 (Some 4) Hwf Hroom).
Defined.

Lemma retainAll_raises_on_inner_nonmember_witness :
  wf v123
  /\ toArray v123 = [] ++ Some 1 :: [Some 2; Some 3]
  /\ [Some 2; Some 3] <> []
  /\ Forall (fun x => x ∈ [Some 2; Some 3]) []
  /\ (Some 1 ∉ [Some 2; Some 3])
  /\ (None ∉ [Some 2; Some 3])
  /\ exists self',
       retainAll [Some 2; Some 3] v123 = (self', Raise IndexError)
       /\ wf self'
       /\ size self' < size v123.
Proof.
  assert (Hwf : wf v123) by (unfold wf; conc).
  assert (Harr : toArray v123 = [] ++ Some 1 :: [Some 2; Some 3])
    by (vm_compute; reflexivity).
  assert (Hne : [Some 2; Some 3] <> ([] : list value)) by discriminate.
  assert (Hall : Forall (fun x : value => x ∈ [Some 2; Some 3]) [])
    by constructor.
  assert (Hbad : Some 1 ∉ ([Some 2; Some 3] : list value)) by decided.
  assert (Hnone : None ∉ ([Some 2; Some 3] : list value)) by decided.
  split; [exact Hwf|]. split; [exact Harr|]. split; [exact Hne|].
  split; [exact Hall|]. split; [exact Hbad|]. split; [exact Hnone|].
  exact (retainAll_raises_on_inner_nonmember v123 [Some 2; Some 3] []
           [Some 2; Some 3] (Some 1) Hwf Harr Hne Hall Hbad Hnone).
Defined.

Lemma peek_agrees_with_poll_witness :
  PriorityQueue.inv (PriorityQueue.Natural [5])
  /\ exists r,
       PriorityQueue.peek (PriorityQueue.Natural [5])
       = (PriorityQueue.Natural [5], Ok r)
       /\ snd (PriorityQueue.poll (PriorityQueue.Natural [5])) = Ok r.
Proof.
  assert (Hinv : PriorityQueue.inv (PriorityQueue.Natural [5])).
  { split; [|exact I]. intros c Hc. simpl in Hc. lia. }
  split; [exact Hinv|].
  destruct (PriorityQueueMore.peek_agrees_with_poll _ Hinv)
    as (r & Hpeek & Hpoll & _).
  exists r. split; [exact Hpeek | exact Hpoll].
Defined.

Lemma add_grows_poll_shrinks_witness :
  PriorityQueue.inv (PriorityQueue.Natural [5])
  /\ exists q',
       PriorityQueue.add 3 (PriorityQueue.Natural [5]) = (q', Ok true)
       /\ PriorityQueue.inv q'
       /\ PriorityQueue.size q'
          = PriorityQueue.size (PriorityQueue.Natural [5]) + 1.
Proof.
  assert (Hinv : PriorityQueue.inv (PriorityQueue.Natural [5])).
  { split; [|exact I]. intros c Hc. simpl in Hc. lia. }
  split; [exact Hinv|].
  destruct (PriorityQueueMore.add_grows_poll_shrinks _ 3 Hinv)
    as [(q' & Hadd & _ & Hinv' & _ & Hsize) _].
  exists q'. split; [exact Hadd|]. split; [exact Hinv' | exact Hsize].
Defined.

Lemma setSize_truncates_or_pads_witness :
  tidy (new_from [Some 1; Some 2; Some 3]) /\ 0 <= 5
  /\ exists self',
       setSize 5 (new_from [Some 1; Some 2; Some 3]) = (self', Ok tt)
       /\ tidy self'
       /\ size self' = 5
       /\ toArray self' =
            take (Z.to_nat 5) (toArray (new_from [Some 1; Some 2; Some 3]))
            ++ replicate
                 (Z.to_nat 5
                  - Z.to_nat (size (new_from [Some 1; Some 2; Some 3])))
                 None.
Proof.
  assert (Ht : tidy (new_from [Some 1; Some 2; Some 3])).
  { split; [unfold wf; conc|]. intros j Hj.
    change (3 <= Z.of_nat j < 3) in Hj. lia. }
  assert (H0 : 0 <= 5) by discriminate.
  split; [exact Ht|]. split; [exact H0|].
  destruct (setSize_truncates_or_pads _ 5 Ht) as [_ Hin].
  exact (Hin H0).
Defined.

Lemma removeElement_first_occurrence_witness :
  wf v221 /\ Some 2 ∈ toArray v221
  /\ exists l1 l2 self',
       toArray v221 = l1 ++ Some 2 :: l2
       /\ (Some 2 ∉ l1)
       /\ removeElement (Some 2) v221 = (self', Ok true)
       /\ wf self'
       /\ toArray self' = l1 ++ l2.
Proof.
  assert (Hwf : wf v221) by (unfold wf; conc).
  assert (Hin : Some 2 ∈ toArray v221) by decided.
  split; [exact Hwf|]. split; [exact Hin|].
  destruct (removeElement_first_occurrence v221 (Some 2) Hwf) as [Hrun _].
  exact (Hrun Hin).
Defined.

Lemma equals_compares_contents_witness :
  wf v123 /\ wf (new_from [Some 1; Some 2; Some 3])
  /\ exists b : bool,
       equals (new_from [Some 1; Some 2; Some 3]) v123 = (v123, Ok b)
       /\ (b = true
           <-> toArray v123 = toArray (new_from [Some 1; Some 2; Some 3])).
Proof.
  assert (Hwf : wf v123) by (unfold wf; conc).
  assert (Hwfo : wf (new_from [Some 1; Some 2; Some 3]))
    by (unfold wf; conc).
  split; [exact Hwf|]. split; [exact Hwfo|].
  exact (equals_compares_contents v123 _ Hwf Hwfo).
Defined.

Lemma subList_is_segment_witness :
  wf v123 /\ (0 <= 1 <= 3 /\ 3 <= size v123)
  /\ subList 1 3 v123
     = (v123, Ok (take (Z.to_nat (3 - 1))
                    (drop (Z.to_nat 1) (toArray v123)))).
Proof.
  assert (Hwf : wf v123) by (unfold wf; conc).
  assert (Hb : 0 <= 1 <= 3 /\ 3 <= size v123) by conc.
  split; [exact Hwf|]. split; [exact Hb|].
  destruct (subList_is_segment v123 1 3 Hwf) as [Hin _].
  exact (Hin Hb).
Defined.

Lemma unused_slots_stay_cleared_witness :
  construct (NewCapacity 2) = Some (new_capacity 2)
  /\ tidy (new_capacity 2)
  /\ Forall tidy
       (trace [Add (Some 1); Add (Some 1); Add (Some 2);
               RemoveAll [Some 1]; SetSize 5] (new_capacity 2)).
Proof.
  split; [reflexivity|].
  exact (unused_slots_stay_cleared (NewCapacity 2) (new_capacity 2)
           [Add (Some 1); Add (Some 1); Add (Some 2);
            RemoveAll [Some 1]; SetSize 5] eq_refl).
Defined.

Lemma removeAll_removes_members_witness :
  wf v221
  /\ exists self' b,
       removeAll [Some 2] v221 = (self', Ok (Some b))
       /\ (b = true <-> exists y, y ∈ toArray v221 /\ y ∈ [Some 2])
       /\ wf self'
       /\ toArray self' = filter (fun y => y ∉ [Some 2]) (toArray v221).
Proof.
  assert (Hwf : wf v221) by (unfold wf; conc).
  split; [exact Hwf|].
  exact (VectorInvariant.removeAll_removes_members v221 [Some 2] Hwf).
Defined.

End WitnessMore.
